(** * AtomiAutoSolver: a shallow embedding of the content script and the popup

    The development models the parts of [extension/content.js] and
    [extension/popup.js] that the specification talks about: the oracle
    response parser, the quiz extractor and classifier over a DOM tree with
    shadow roots, the answer actuator, the math-field writer, the Run-All
    loop, the video watchdog and the model listing of the popup.

    The first part holds the definitions, the second part the theorems. *)

From Stdlib Require Import Ascii String Numbers.DecimalString.
From Stdlib Require Import Bool Arith ZArith QArith Lia List.
From Stdlib Require Import Sorting.Sorted Sorting.Permutation.
Import ListNotations.
Open Scope list_scope.
Open Scope nat_scope.

Set Implicit Arguments.

(* ================================================================== *)
(** * Part I: the embedding                                            *)
(* ================================================================== *)

(** ** JavaScript strings

    A string is the list of its code units.  The model keeps the code
    units below 256 (Latin-1); a code unit above that range is neither a
    digit nor a word character nor one of the modelled letters, so it
    behaves like any other non-word unit for the functions below. *)

Module JsString.

Definition jsstring := list ascii.

Definition lit (s : string) : jsstring := list_ascii_of_string s.

Definition code (c : ascii) : nat := nat_of_ascii c.

Definition between (lo hi : nat) (c : ascii) : bool :=
  (lo <=? code c) && (code c <=? hi).

(** [\d] *)
Definition is_digit (c : ascii) : bool := between 48 57 c.

Definition is_upper (c : ascii) : bool := between 65 90 c.
Definition is_lower (c : ascii) : bool := between 97 122 c.
Definition is_alpha (c : ascii) : bool := is_upper c || is_lower c.

(** [\w], which also decides [\b] *)
Definition is_word (c : ascii) : bool :=
  is_digit c || is_upper c || is_lower c || (code c =? 95).

(** [\s] and the units removed by [trim]: TAB, LF, VT, FF, CR, SPACE, NBSP *)
Definition is_space (c : ascii) : bool :=
  between 9 13 c || (code c =? 32) || (code c =? 160).

(** [toLowerCase] on one unit: A-Z and the Latin-1 capitals *)
Definition lower_char (c : ascii) : ascii :=
  if is_upper c || between 192 214 c || between 216 222 c
  then ascii_of_nat (code c + 32) else c.

Definition toLowerCase (s : jsstring) : jsstring := map lower_char s.

Fixpoint dropWhile (p : ascii -> bool) (s : jsstring) : jsstring :=
  match s with
  | [] => []
  | c :: s' => if p c then dropWhile p s' else s
  end.

Fixpoint takeWhile (p : ascii -> bool) (s : jsstring) : jsstring :=
  match s with
  | [] => []
  | c :: s' => if p c then c :: takeWhile p s' else []
  end.

Definition trimStart (s : jsstring) : jsstring := dropWhile is_space s.
Definition trimEnd (s : jsstring) : jsstring := rev (dropWhile is_space (rev s)).
Definition trim (s : jsstring) : jsstring := trimEnd (trimStart s).

Definition ascii_eqb (a b : ascii) : bool := Ascii.eqb a b.

Fixpoint startsWith (s p : jsstring) {struct p} : bool :=
  match p, s with
  | [], _ => true
  | _ :: _, [] => false
  | a :: p', c :: s' => ascii_eqb a c && startsWith s' p'
  end.

(** [s.includes(k)] *)
Fixpoint includes (s k : jsstring) : bool :=
  startsWith s k ||
  match s with
  | [] => false
  | _ :: s' => includes s' k
  end.

Definition str_eqb (a b : jsstring) : bool :=
  (length a =? length b) && startsWith a b.

(** Truthiness of a string value: the empty string is falsy. *)
Definition truthy (s : jsstring) : bool :=
  match s with [] => false | _ => true end.

(** [a || b] on strings that may be [undefined]/[null] *)
Definition or_str (a : option jsstring) (b : jsstring) : jsstring :=
  match a with
  | Some s => if truthy s then s else b
  | None => b
  end.

Definition join (sep : jsstring) (l : list jsstring) : jsstring :=
  match l with
  | [] => []
  | x :: xs => x ++ flat_map (fun y => sep ++ y) xs
  end.

Definition of_nat (n : nat) : jsstring :=
  lit (NilZero.string_of_uint (Nat.to_uint n)).

Definition of_Z (z : Z) : jsstring :=
  lit (NilZero.string_of_int (Z.to_int z)).

Definition digit_val (c : ascii) : Z := Z.of_nat (code c - 48).

Fixpoint digits_val (acc : Z) (s : jsstring) : Z :=
  match s with
  | [] => acc
  | c :: s' => digits_val (10 * acc + digit_val c)%Z s'
  end.

(** [parseInt(s, 10)]: leading white space, an optional sign, then the
    longest prefix of decimal digits; [None] is NaN. *)
Definition parseInt10 (s : jsstring) : option Z :=
  let s1 := trimStart s in
  let '(neg, s2) :=
    match s1 with
    | c :: r => if code c =? 45 then (true, r)
                else if code c =? 43 then (false, r) else (false, s1)
    | [] => (false, s1)
    end in
  match takeWhile is_digit s2 with
  | [] => None
  | ds => Some (if neg then (- digits_val 0 ds)%Z else digits_val 0 ds)
  end.

End JsString.

(** ** Regular expressions

    The fragment of JavaScript regular expressions that the scripts use:
    character classes, the word boundary [\b], a greedy optional, a greedy
    star over a character class, concatenation and alternation.  Matching
    is by backtracking, in continuation-passing style, as the
    specification of the language describes it.  The [i] flag is
    expressed in the character classes. *)

Module Regex.
Import JsString.

Inductive re : Type :=
| Eps : re
| Chr (p : ascii -> bool) : re
| Bnd : re
| Opt (r : re) : re
| Star (p : ascii -> bool) : re
| Cat (r1 r2 : re) : re
| Alt (r1 r2 : re) : re.

Definition word_opt (c : option ascii) : bool :=
  match c with Some a => is_word a | None => false end.

Section Matcher.
Variable R : Type.
(** A continuation receives the unit before the current position and
    the rest of the input. *)
Definition cont := option ascii -> jsstring -> option R.

Fixpoint star_greedy (p : ascii -> bool) (k : cont)
         (prev : option ascii) (s : jsstring) : option R :=
  match s with
  | c :: s' =>
      if p c then
        match star_greedy p k (Some c) s' with
        | Some x => Some x
        | None => k prev s
        end
      else k prev s
  | [] => k prev s
  end.

Fixpoint mre (r : re) (k : cont) (prev : option ascii) (s : jsstring)
  : option R :=
  match r with
  | Eps => k prev s
  | Chr p =>
      match s with
      | c :: s' => if p c then k (Some c) s' else None
      | [] => None
      end
  | Bnd => if xorb (word_opt prev) (word_opt (hd_error s))
           then k prev s else None
  | Opt r' =>
      match mre r' k prev s with
      | Some x => Some x
      | None => k prev s
      end
  | Star p => star_greedy p k prev s
  | Cat r1 r2 => mre r1 (mre r2 k) prev s
  | Alt r1 r2 =>
      match mre r1 k prev s with
      | Some x => Some x
      | None => mre r2 k prev s
      end
  end.
End Matcher.

(** One attempt at the current position: the rest of the input after the
    match. *)
Definition match_here (r : re) (prev : option ascii) (s : jsstring)
  : option jsstring :=
  mre r (fun _ rest => Some rest) prev s.

Definition matched (s rest : jsstring) : jsstring :=
  firstn (length s - length rest) s.

Definition last_unit (prev : option ascii) (m : jsstring) : option ascii :=
  match rev m with
  | c :: _ => Some c
  | [] => prev
  end.

(** [s.matchAll(/r/g)]: the matches from left to right, the search going
    on after each match (one unit further after an empty one). *)
Fixpoint matchAll_from (fuel : nat) (r : re) (prev : option ascii)
         (s : jsstring) : list jsstring :=
  match fuel with
  | O => []
  | S fuel' =>
      let advance :=
        match s with
        | [] => []
        | c :: s' => matchAll_from fuel' r (Some c) s'
        end in
      match match_here r prev s with
      | Some rest =>
          let m := matched s rest in
          match m with
          | [] => m :: advance
          | _ :: _ => m :: matchAll_from fuel' r (last_unit prev m) rest
          end
      | None => advance
      end
  end.

Definition matchAll (r : re) (s : jsstring) : list jsstring :=
  matchAll_from (S (length s)) r None s.

(** [s.replace(/r/, '')]: the first match is removed. *)
Fixpoint remove_first_from (r : re) (prev : option ascii) (s : jsstring)
  : jsstring :=
  match match_here r prev s with
  | Some rest => rest
  | None =>
      match s with
      | [] => []
      | c :: s' => c :: remove_first_from r (Some c) s'
      end
  end.

Definition remove_first (r : re) (s : jsstring) : jsstring :=
  remove_first_from r None s.

(** A literal, case-insensitive as under the [i] flag. *)
Definition chr_ci (a : ascii) : re :=
  Chr (fun c => ascii_eqb (lower_char c) (lower_char a)).

Definition lit_ci (s : string) : re :=
  fold_right (fun a r => Cat (chr_ci a) r) Eps (lit s).

Definition chr_eq (a : ascii) : re := Chr (fun c => ascii_eqb c a).

End Regex.

(** ** The answer oracle client: [callGroqAPI] *)

Module Oracle.
Import JsString Regex.

Definition DEFAULT_MODEL : jsstring := lit "llama-3.3-70b-versatile".

(** The body of the request that matters to the prompt. *)
Record request := {
  req_key : jsstring;
  req_model : jsstring;
  req_user : jsstring;
  req_max_tokens : Z
}.

(** What [fetch] resolves to: [ok], [status], the [error.message] of the
    payload of a failing call, and [choices[0].message] of a succeeding
    one ([None] stands for an absent, [null] or empty field). *)
Record response := {
  ok : bool;
  status : Z;
  err_message : option jsstring;
  content : option jsstring;
  reasoning : option jsstring
}.

(** An [async] function either throws an [Error] or returns. *)
Inductive outcome (A : Type) : Type :=
| Throw (msg : jsstring)
| Return (a : A).
Arguments Throw {A} msg.
Arguments Return {A} a.

Definition numbered (answers : list jsstring) : list jsstring :=
  map (fun ia => of_nat (S (fst ia)) ++ lit ". " ++ snd ia)
      (combine (seq 0 (length answers)) answers).

Definition userContent (question : jsstring) (answers : list jsstring)
  : jsstring :=
  lit "Question:" ++ ["010"%char] ++ question ++ ["010"%char; "010"%char]
  ++ lit "Possible answers:" ++ ["010"%char]
  ++ join ["010"%char] (numbered answers)
  ++ ["010"%char; "010"%char] ++ lit "Reply with only the number (1-"
  ++ of_nat (length answers) ++ lit "):".

Definition nonzero_digit (c : ascii) : bool := between 49 57 c.

(** [/\b([1-9]\d?)\b/g]; the group is the whole match, the boundaries
    being of width zero. *)
Definition answer_re : re :=
  Cat Bnd (Cat (Chr nonzero_digit) (Cat (Opt (Chr is_digit)) Bnd)).

Definition in_choices (numChoices : nat) (n : option Z) : bool :=
  match n with
  | Some z => (1 <=? z)%Z && (z <=? Z.of_nat numChoices)%Z
  | None => false
  end.

Definition last_opt (A : Type) (l : list A) : option A :=
  match rev l with
  | x :: _ => Some x
  | [] => None
  end.

Definition combined (msg_content msg_reasoning : option jsstring) : jsstring :=
  trim (or_str msg_content []) ++ lit " " ++ trim (or_str msg_reasoning []).

(** The parse of a succeeding response, lines 374 to 382. *)
Definition parse_answer (msg_content msg_reasoning : option jsstring)
           (numChoices : nat) : option Z :=
  let matches := matchAll answer_re (combined msg_content msg_reasoning) in
  let valid := filter (in_choices numChoices) (map parseInt10 matches) in
  match last_opt valid with
  | Some (Some n) => Some n
  | _ => None
  end.

Definition api_error (r : response) : jsstring :=
  match err_message r with
  | Some m => if truthy m then m else lit "API error: " ++ of_Z (status r)
  | None => lit "API error: " ++ of_Z (status r)
  end.

(** An answered request with the given message. *)
Definition ok_response (c r : option jsstring) : response :=
  {| ok := true; status := 200; err_message := None;
     content := c; reasoning := r |}.

Definition make_request (apiKey model question : jsstring)
           (answers : list jsstring) : request :=
  {| req_key := apiKey;
     req_model := if truthy model then model else DEFAULT_MODEL;
     req_user := userContent question answers;
     req_max_tokens := 256 |}.

(** [callGroqAPI], lines 347 to 383, over the responses that have been
    parsed; [Transport.callGroqAPI] starts from what [fetch] gives. *)
Definition callGroqAPI (fetch : request -> response)
           (apiKey model question : jsstring) (answers : list jsstring)
  : outcome (option Z) :=
  let resp := fetch (make_request apiKey model question answers) in
  if negb (ok resp) then Throw (api_error resp)
  else Return (parse_answer (content resp) (reasoning resp) (length answers)).

(** *** The tokens of a string, for the statement of the parse

    A token is a maximal run of word characters. *)
Fixpoint word_runs (s : jsstring) : list jsstring :=
  match s with
  | [] => []
  | c :: s' =>
      if is_word c then
        match s' with
        | d :: _ =>
            if is_word d then
              match word_runs s' with
              | r :: rs => (c :: r) :: rs
              | [] => [[c]]
              end
            else [c] :: word_runs s'
        | [] => [[c]]
        end
      else word_runs s'
  end.

(** One or two decimal digits, the first one not 0. *)
Definition small_numeral (t : jsstring) : bool :=
  match t with
  | [a] => nonzero_digit a
  | [a; b] => nonzero_digit a && is_digit b
  | _ => false
  end.

Definition within (N : nat) (z : Z) : bool :=
  (1 <=? z)%Z && (z <=? Z.of_nat N)%Z.

(** The last token of one or two digits, in the content and then in the
    reasoning, whose value lies in [1, N]. *)
Definition last_small_numeral (c r : jsstring) (N : nat) : option Z :=
  last_opt (filter (within N)
                   (map (digits_val 0)
                        (filter small_numeral (word_runs c ++ word_runs r)))).

(** The tokens that a search resumed behind [prev] still has to meet. *)
Definition tokens_after (prev : option ascii) (s : jsstring) : list jsstring :=
  filter small_numeral
         (word_runs (if word_opt prev then dropWhile is_word s else s)).

(** The parse as the specification words it, to compare with the one of
    the code: an integer token is a token made of decimal digits only,
    and the answer is the last one whose value lies in [1, N]. *)
Definition integer_token (t : jsstring) : bool :=
  truthy t && forallb is_digit t.

Definition spec_last_integer_token (s : jsstring) (N : nat) : option Z :=
  last_opt (filter (within N)
                   (map (digits_val 0) (filter integer_token (word_runs s)))).

End Oracle.


(** ** The DOM

    A document is a forest of nodes.  Tag and attribute names are in
    lower case, as the HTML parser leaves them.  An element carries its tag, its
    attributes, an optional shadow root and its child nodes.  A handle is
    the position of an element: the steps from the document down to it,
    through child lists and through shadow roots. *)

Module Dom.
Import JsString.

#[local] Unset Elimination Schemes.
Inductive node : Type :=
| Text (data : jsstring)
| Elem (tag : jsstring) (attrs : list (jsstring * jsstring))
       (shadowRoot : option (list node)) (childNodes : list node).
#[local] Set Elimination Schemes.

Definition document := list node.

Inductive step : Type :=
| Child (i : nat)
| Shadow (i : nat).

Definition handle := list step.

Definition step_eqb (a b : step) : bool :=
  match a, b with
  | Child i, Child j => i =? j
  | Shadow i, Shadow j => i =? j
  | _, _ => false
  end.

Fixpoint handle_eqb (a b : handle) : bool :=
  match a, b with
  | [], [] => true
  | x :: a', y :: b' => step_eqb x y && handle_eqb a' b'
  | _, _ => false
  end.

(** An element as a script holds it: where it is, its parent element (none
    under the document or under a shadow root), its preceding element
    siblings from the nearest one, and the subtree. *)
Record element := {
  loc : handle;
  parent : option node;
  prevs : list node;
  self : node
}.

Definition is_elem (n : node) : bool :=
  match n with Elem _ _ _ _ => true | Text _ => false end.

Definition tagName (n : node) : jsstring :=
  match n with Elem t _ _ _ => t | Text _ => [] end.

Definition attributes (n : node) : list (jsstring * jsstring) :=
  match n with Elem _ a _ _ => a | Text _ => [] end.

Definition shadow_of (n : node) : option (list node) :=
  match n with Elem _ _ s _ => s | Text _ => None end.

Definition children_of (n : node) : list node :=
  match n with Elem _ _ _ c => c | Text _ => [] end.

Fixpoint lookup_attr (a : jsstring) (l : list (jsstring * jsstring))
  : option jsstring :=
  match l with
  | [] => None
  | (k, v) :: l' => if str_eqb k a then Some v else lookup_attr a l'
  end.

Definition getAttribute (n : node) (a : jsstring) : option jsstring :=
  lookup_attr a (attributes n).

Definition hasAttribute (n : node) (a : jsstring) : bool :=
  match getAttribute n a with Some _ => true | None => false end.

(** The [disabled] property of a button reflects the attribute. *)
Definition disabled (n : node) : bool := hasAttribute n (lit "disabled").

Fixpoint textContent (n : node) : jsstring :=
  match n with
  | Text s => s
  | Elem _ _ _ ch =>
      (fix go (l : list node) : jsstring :=
         match l with
         | [] => []
         | x :: xs => textContent x ++ go xs
         end) ch
  end.

Definition before_next (x : node) (before : list node) : list node :=
  if is_elem x then x :: before else before.

(** The elements of a subtree in document order, the root first.  Shadow
    trees are not part of it. *)
Fixpoint elems (p : handle) (par : option node) (before : list node)
         (n : node) {struct n} : list element :=
  match n with
  | Text _ => []
  | Elem _ _ _ ch =>
      {| loc := p; parent := par; prevs := before; self := n |} ::
      (fix go (i : nat) (bef : list node) (l : list node) : list element :=
         match l with
         | [] => []
         | x :: xs =>
             elems (p ++ [Child i]) (Some n) bef x
             ++ go (S i) (before_next x bef) xs
         end) 0 [] ch
  end.

(** The elements under a list of sibling nodes: the children of an
    element, of the document or of a shadow root. *)
Fixpoint elems_of (mk : nat -> step) (p : handle) (par : option node)
         (i : nat) (bef : list node) (l : list node) : list element :=
  match l with
  | [] => []
  | x :: xs =>
      elems (p ++ [mk i]) par bef x
      ++ elems_of mk p par (S i) (before_next x bef) xs
  end.

(** The three kinds of node a script calls [querySelector] on. *)
Inductive root : Type :=
| RDoc (d : document)
| RElem (e : element)
| RShadow (host : element) (sr : list node).

Definition descendants (r : root) : list element :=
  match r with
  | RDoc d => elems_of Child [] None 0 [] d
  | RElem e => elems_of Child (loc e) (Some (self e)) 0 [] (children_of (self e))
  | RShadow h sr => elems_of Shadow (loc h) None 0 [] sr
  end.

(** *** Selectors *)

Inductive simple : Type :=
| Tag (t : jsstring)
| HasAttr (a : jsstring)
| AttrEqCi (a v : jsstring)
| AttrHas (a v : jsstring).

Definition compound := list simple.

Inductive selector : Type :=
| Sel (c : compound)
| ChildOf (p c : compound).

Definition matches_simple (s : simple) (n : node) : bool :=
  match s with
  | Tag t => str_eqb (tagName n) t
  | HasAttr a => hasAttribute n a
  | AttrEqCi a v =>
      match getAttribute n a with
      | Some x => str_eqb (toLowerCase x) (toLowerCase v)
      | None => false
      end
  | AttrHas a v =>
      match getAttribute n a with
      | Some x => truthy v && includes x v
      | None => false
      end
  end.

Definition matches_compound (c : compound) (n : node) : bool :=
  is_elem n && forallb (fun s => matches_simple s n) c.

Definition matches (s : selector) (e : element) : bool :=
  match s with
  | Sel c => matches_compound c (self e)
  | ChildOf pc c =>
      matches_compound c (self e) &&
      match parent e with
      | Some pn => matches_compound pc pn
      | None => false
      end
  end.

Definition querySelectorAll (r : root) (s : selector) : list element :=
  filter (matches s) (descendants r).

Definition querySelector (r : root) (s : selector) : option element :=
  hd_error (querySelectorAll r s).

(** [Array.from(...).find(f)] *)
Definition find_first (A : Type) (f : A -> bool) (l : list A) : option A :=
  List.find f l.

(** [a || b] on values that may be [null] *)
Definition or_else (A : Type) (a b : option A) : option A :=
  match a with Some _ => a | None => b end.

(** The first result of [f] over a list, as a [for ... of] loop that
    returns from its body. *)
Fixpoint first_some (A B : Type) (f : A -> option B) (l : list A) : option B :=
  match l with
  | [] => None
  | x :: xs => match f x with Some y => Some y | None => first_some f xs end
  end.

(** [findInDocument(root, selector)], lines 36 to 46.  The recursion goes
    down one shadow root per call; [fuel] bounds the nesting of shadow
    roots. *)
Fixpoint findInDocument (fuel : nat) (r : root) (s : selector)
  : option element :=
  match fuel with
  | O => None
  | S fuel' =>
      match querySelector r s with
      | Some el => Some el
      | None =>
          first_some
            (fun nd =>
               match shadow_of (self nd) with
               | Some sr => findInDocument fuel' (RShadow nd sr) s
               | None => None
               end)
            (querySelectorAll r (Sel []))
      end
  end.

(** The document with one attribute taken off every element. *)
Fixpoint strip_attr (a : jsstring) (n : node) : node :=
  match n with
  | Text s => Text s
  | Elem t attrs sh ch =>
      Elem t (filter (fun kv => negb (str_eqb (fst kv) a)) attrs)
           (option_map (map (strip_attr a)) sh)
           (map (strip_attr a) ch)
  end.

Definition strip_element (a : jsstring) (e : element) : element :=
  {| loc := loc e;
     parent := option_map (strip_attr a) (parent e);
     prevs := map (strip_attr a) (prevs e);
     self := strip_attr a (self e) |}.

Definition strip_document (a : jsstring) (d : document) : document :=
  map (strip_attr a) d.

Fixpoint text_of_list (l : list node) : jsstring :=
  match l with
  | [] => []
  | x :: xs => textContent x ++ text_of_list xs
  end.

(** The handles of a subtree are pairwise different and lie under the
    handle of its root. *)
Definition well_placed (n : node) : Prop :=
  forall p par bef,
    NoDup (map loc (elems p par bef n))
    /\ forall e, In e (elems p par bef n) -> exists q, loc e = p ++ q.

(** An element is reachable from a root when it lies under it, in the
    tree of the root or in the shadow tree of a reachable host. *)
Inductive reachable : root -> element -> Prop :=
| reach_light r e : In e (descendants r) -> reachable r e
| reach_shadow r h sr e :
    In h (descendants r) -> shadow_of (self h) = Some sr ->
    reachable (RShadow h sr) e -> reachable r e.

(** Induction over a tree: the property holds of the nodes of the shadow
    root and of the child nodes. *)
Fixpoint node_ind' (P : node -> Prop)
         (HT : forall s, P (Text s))
         (HE : forall t a sh ch,
             (forall sr, sh = Some sr -> Forall P sr) ->
             Forall P ch -> P (Elem t a sh ch))
         (n : node) {struct n} : P n :=
  match n with
  | Text s => HT s
  | Elem t a sh ch =>
      let all := fix all (l : list node) : Forall P l :=
                   match l with
                   | [] => Forall_nil P
                   | x :: xs => Forall_cons x (@node_ind' P HT HE x) (all xs)
                   end in
      HE t a sh ch
         (match sh as o return (forall sr, o = Some sr -> Forall P sr) with
          | Some l => fun sr E =>
              match E in (_ = o') return
                    (match o' with Some sr' => Forall P sr' | None => True end)
              with eq_refl => all l end
          | None => fun sr E =>
              match E in (_ = o') return
                    (match o' with Some sr' => Forall P sr' | None => True end)
              with eq_refl => I end
          end)
         (all ch)
  end.

End Dom.

(** ** The quiz: classifier, extractor and actuator *)

Module Quiz.
Import JsString Regex Dom Oracle.

(** [QUIZ_SELECTORS], lines 23 to 34 *)
Definition sel_article : selector := Sel [Tag (lit "article")].
Definition sel_answerList : selector :=
  Sel [Tag (lit "ul"); HasAttr (lit "aria-labelledby")].
Definition sel_answerItems : selector :=
  ChildOf [Tag (lit "ul"); HasAttr (lit "aria-labelledby")] [Tag (lit "li")].
Definition sel_answerButton : selector :=
  Sel [Tag (lit "button"); AttrEqCi (lit "type") (lit "button")].
Definition sel_button : selector := Sel [Tag (lit "button")].
Definition sel_markdown : selector := Sel [AttrHas (lit "class") (lit "Markdown")].
Definition sel_div : selector := Sel [Tag (lit "div")].

Definition text_of (e : element) : jsstring := textContent (self e).

Definition checkAnswerBtn (doc : document) : option element :=
  find_first (fun b => includes (text_of b) (lit "Check Answer"))
             (querySelectorAll (RDoc doc) sel_button).

Definition nextButton (doc : document) : option element :=
  find_first
    (fun b =>
       let t := toLowerCase (trim (text_of b)) in
       (* the third alternative, [t === '\u2192'], compares with a code
          unit outside the modelled range and is false on every
          modelled string *)
       (includes t (lit "next") || includes t (lit "continue") || false)
       && negb (includes t (lit "check")))
    (querySelectorAll (RDoc doc) sel_button).

(** [.filter(Boolean)] on a list of elements or [null] *)
Definition somes (A : Type) (l : list (option A)) : list A :=
  flat_map (fun o => match o with Some x => [x] | None => [] end) l.

Definition item_button (li : element) : option element :=
  querySelector (RElem li) sel_answerButton.

(** The list items that [getAnswers], [getAnswerButtons] and [isQuizPage]
    go through. *)
Definition answer_items (doc : document) : option (list element) :=
  match querySelector (RDoc doc) sel_answerList with
  | None => None
  | Some answerList => Some (querySelectorAll (RElem answerList) sel_answerItems)
  end.

(** [isQuizPage], lines 289 to 302 *)
Definition isQuizPage (doc : document) : bool :=
  match answer_items doc with
  | None => false
  | Some answerItems =>
      if length answerItems <? 2 then false
      else
        let buttons := somes (map item_button answerItems) in
        if length buttons <? 2 then false else true
  end.

(** [/Choice [A-Z]\s*/i] *)
Definition choice_re : re :=
  Cat (lit_ci "Choice ") (Cat (Chr is_alpha) (Star is_space)).

(** [/Atomi Question\s*/i] *)
Definition atomi_re : re := Cat (lit_ci "Atomi Question") (Star is_space).

(** The label of one list item, the body of the [map] in [getAnswers]. *)
Definition item_label (li : element) : jsstring :=
  match item_button li with
  | None => []
  | Some btn =>
      let textEl := or_else (querySelector (RElem btn) sel_markdown)
                            (querySelector (RElem btn) sel_div) in
      let raw := or_str (option_map text_of textEl)
                        (or_str (Some (text_of btn)) []) in
      trim (remove_first choice_re raw)
  end.

(** [getAnswers], lines 325 to 337 *)
Definition getAnswers (doc : document) : list jsstring :=
  match answer_items doc with
  | None => []
  | Some items => filter truthy (map item_label items)
  end.

(** [getAnswerButtons], lines 339 to 345 *)
Definition getAnswerButtons (doc : document) : list element :=
  match answer_items doc with
  | None => []
  | Some items => somes (map item_button items)
  end.

(** The items of a list as the specification counts them: the [li]
    children of the list element. *)
Definition list_items (ul : node) : list node :=
  filter (fun n => is_elem n && str_eqb (tagName n) (lit "li"))
         (children_of ul).

(** An [li] element that is the child of a labelled list. *)
Definition labelled_item (li : element) : Prop :=
  tagName (self li) = lit "li"
  /\ exists ul, parent li = Some ul
                /\ tagName ul = lit "ul"
                /\ hasAttribute ul (lit "aria-labelledby") = true.

(** A button of type button. *)
Definition plain_button (b : element) : Prop :=
  tagName (self b) = lit "button"
  /\ exists v, getAttribute (self b) (lit "type") = Some v
               /\ toLowerCase v = lit "button".

(** [/(?=Choice [A-Z]|50\.|53\.|56\.)/i], the look-ahead of the split *)
Definition split_re : re :=
  Alt (Cat (lit_ci "Choice ") (Chr is_alpha))
      (Alt (lit_ci "50.") (Alt (lit_ci "53.") (lit_ci "56."))).

Definition looks_ahead (r : re) (prev : option ascii) (s : jsstring) : bool :=
  match mre r (fun _ _ => Some tt) prev s with
  | Some _ => true
  | None => false
  end.

(** [s.split(/(?=r)/)[0]]: the input up to the first position after the
    start at which the look-ahead holds. *)
Fixpoint split_head_from (r : re) (first : bool) (prev : option ascii)
         (s : jsstring) : jsstring :=
  match s with
  | [] => []
  | c :: s' =>
      if negb first && looks_ahead r prev s then []
      else c :: split_head_from r false (Some c) s'
  end.

Definition split_head (r : re) (s : jsstring) : jsstring :=
  split_head_from r true None s.

Section Extraction.
(** [innerText] depends on the rendering of the page; it is what the
    browser reports for an element. *)
Variable innerText : node -> jsstring.

(** The walk over the preceding siblings of the answer list. *)
Fixpoint question_from_siblings (sibs : list node) : option jsstring :=
  match sibs with
  | [] => None
  | q :: rest =>
      let text := trim (textContent q) in
      if truthy text && negb (includes text (lit "Atomi Question"))
         && (5 <? length text)
      then Some (trim (remove_first atomi_re text))
      else question_from_siblings rest
  end.

(** [getQuestionText], lines 304 to 323 *)
Definition getQuestionText (doc : document) : jsstring :=
  match querySelector (RDoc doc) sel_article with
  | None => []
  | Some article =>
      let answerList := querySelector (RElem article) sel_answerList in
      let sibs := match answerList with
                  | Some al => prevs al
                  | None => []
                  end in
      match question_from_siblings sibs with
      | Some q => q
      | None =>
          let allText := or_str (Some (innerText (self article)))
                                (or_str (Some (text_of article)) []) in
          let part0 := split_head split_re allText in
          trim (remove_first atomi_re
                  (if truthy part0 then part0 else allText))
      end
  end.

(** What a solve attempt reports. *)
Inductive result : Type :=
| Success (index : Z)
| Failure (error : jsstring).

Definition show_index (i : option Z) : jsstring :=
  match i with
  | Some z => of_Z z
  | None => lit "null"
  end.

Definition could_not_extract : jsstring :=
  lit "Could not extract question or answers".

Definition invalid_response (i : option Z) : jsstring :=
  lit "Invalid API response (got " ++ show_index i ++ lit ")".

(** The three stretches of [solveCurrentQuestion], lines 524 to 543,
    between its two [await]s. *)
Record extraction := {
  ex_question : jsstring;
  ex_answers : list jsstring;
  ex_buttons : list element
}.

Definition solve_extract (doc : document) : extraction + result :=
  let question := getQuestionText doc in
  let answers := getAnswers doc in
  let buttons := getAnswerButtons doc in
  if negb (truthy question) || (length answers =? 0) || (length buttons =? 0)
  then inr (Failure could_not_extract)
  else inl {| ex_question := question; ex_answers := answers;
              ex_buttons := buttons |}.

Definition model_or_default (m : option jsstring) : jsstring :=
  or_str m DEFAULT_MODEL.

(** After the oracle has answered: the handles clicked, and the result. *)
Definition solve_finish (buttons : list element) (answerIndex : option Z)
  : list handle * result :=
  match answerIndex with
  | None => ([], Failure (invalid_response None))
  | Some k =>
      if (k <? 1)%Z || (Z.of_nat (length buttons) <? k)%Z
      then ([], Failure (invalid_response (Some k)))
      else
        match nth_error buttons (Z.to_nat (k - 1)) with
        | Some button => ([loc button], Success k)
        | None => ([], Failure (invalid_response (Some k)))
        end
  end.

Definition oracle_fn :=
  jsstring -> jsstring -> jsstring -> list jsstring -> outcome (option Z).

(** [solveCurrentQuestion]: the clicks it makes, and what it returns or
    throws.  [stored] is the [model] entry of the extension storage. *)
Definition solveCurrentQuestion (oracle : oracle_fn) (doc : document)
           (stored : option jsstring) (apiKey : jsstring)
  : list handle * outcome result :=
  match solve_extract doc with
  | inr r => ([], Return r)
  | inl ex =>
      match oracle apiKey (model_or_default stored)
                   (ex_question ex) (ex_answers ex) with
      | Throw msg => ([], Throw msg)
      | Return answerIndex =>
          let '(clicks, r) := solve_finish (ex_buttons ex) answerIndex in
          (clicks, Return r)
      end
  end.
End Extraction.

End Quiz.

(** ** The Run-All loop *)

Module RunAll.
Import JsString Regex Dom Oracle Quiz.

Definition aria_disabled : jsstring := lit "aria-disabled".

(** The two conditions the polls wait for, lines 553 and 563. *)
Definition check_ready (doc : document) : option element :=
  match checkAnswerBtn doc with
  | Some btn => if negb (hasAttribute (self btn) aria_disabled)
                then Some btn else None
  | None => None
  end.

Definition next_ready (doc : document) : option element :=
  match nextButton doc with
  | Some btn => if negb (disabled (self btn)) then Some btn else None
  | None => None
  end.

(** What the loop sees of the world when it resumes at tick [t]: the
    page, the clock, the stored model and the answer of the oracle. *)
Record env := {
  page : nat -> document;
  now : nat -> Z;
  stored_model : nat -> outcome (option jsstring);
  oracle : nat -> oracle_fn
}.

(** A poll, lines 549 to 567: [waitFor(200)] between two looks; each
    wait ends at the next tick.  [None] is fuel exhausted, [Some None]
    the time-out. *)
Fixpoint poll (ready : document -> option element) (w : env)
         (timeout start : Z) (fuel t : nat) : option (option element) :=
  match fuel with
  | O => None
  | S fuel' =>
      if (now w t - start <? timeout)%Z then
        match ready (page w t) with
        | Some btn => Some (Some btn)
        | None => poll ready w timeout start fuel' (S t)
        end
      else Some None
  end.

Definition waitForCheckAnswerEnabled (w : env) (timeout : Z) (fuel t : nat) :=
  poll check_ready w timeout (now w t) fuel t.

Definition waitForNextButton (w : env) (timeout : Z) (fuel t : nat) :=
  poll next_ready w timeout (now w t) fuel t.

Inductive target : Type := AnswerButton | CheckButton | NextButton.

(** What the loop does to the page and to the panel. *)
Inductive action : Type :=
| Extract
| AskOracle
| Click (what : target) (h : handle)
| SetStatus (msg : jsstring).

(** Where the loop is suspended: each constructor is an [await] that
    gives the control back to the event queue. *)
Inductive pc : Type :=
| Boundary                                     (* about to test the loop condition *)
| AwaitStorage (ex : extraction)               (* line 533 *)
| AwaitOracle (ex : extraction) (model : jsstring)   (* line 534 *)
| Wait500                                      (* line 605 *)
| PollCheck (start : Z)                        (* line 554 *)
| Wait1200                                     (* line 611 *)
| PollNext (start : Z)                         (* line 564 *)
| Wait2000                                     (* line 619 *)
| Done.

Record state := {
  at_pc : pc;
  isAutoRunning : bool;
  tick : nat;
  log : list action
}.

Definition emit (a : list action) (s : state) : state :=
  {| at_pc := at_pc s; isAutoRunning := isAutoRunning s; tick := tick s;
     log := log s ++ a |}.

Definition goto (p : pc) (s : state) : state :=
  {| at_pc := p; isAutoRunning := isAutoRunning s; tick := tick s;
     log := log s |}.

(** The [finally] block, lines 626 to 629. *)
Definition finally (s : state) : state :=
  {| at_pc := Done; isAutoRunning := false; tick := tick s;
     log := log s ++ [SetStatus (lit "Ready")] |}.

(** The handler of the Stop button, lines 799 to 804. *)
Definition stop (s : state) : state :=
  {| at_pc := at_pc s; isAutoRunning := false; tick := tick s;
     log := log s ++ [SetStatus (lit "Stopping...")] |}.

(** What a click on Run All does to a loop that is under way, line 586
    and line 587: nothing while the flag is up; with the flag down it
    raises the flag again (and enters a loop of its own, which is another
    instance of this machine). *)
Definition raise (s : state) : state :=
  {| at_pc := at_pc s; isAutoRunning := true; tick := tick s; log := log s |}.

(** What the user does to the panel between two turns of the loop. *)
Inductive click : Type :=
| NoClick
| StopClick
| RunAllClick.

Definition handle_click (c : click) (s : state) : state :=
  match c with
  | NoClick => s
  | StopClick => stop s
  | RunAllClick => if isAutoRunning s then s else raise s
  end.

(** The loop is at an iteration boundary when what it does next is to
    test the condition of the [while]. *)
Definition at_boundary (s : state) : bool :=
  match at_pc s with
  | Boundary | Wait2000 => true
  | _ => false
  end.

Definition is_status (a : action) : bool :=
  match a with SetStatus _ => true | _ => false end.

Section Loop.
Variable innerText : node -> jsstring.
Variable apiKey : jsstring.
Variable w : env.

(** The look of [waitForNextButton(8000)] at the current tick. *)
Definition poll_next (start : Z) (s : state) : state :=
  if (now w (tick s) - start <? 8000)%Z then
    match next_ready (page w (tick s)) with
    | Some btn =>
        goto Wait2000
             (emit [SetStatus (lit "Moving to next question...");
                    Click NextButton (loc btn)] s)
    | None => goto (PollNext start) s
    end
  else finally (emit [SetStatus (lit "Quiz complete!")] s).

(** The look of [waitForCheckAnswerEnabled()] at the current tick. *)
Definition poll_check (start : Z) (s : state) : state :=
  if (now w (tick s) - start <? 5000)%Z then
    match check_ready (page w (tick s)) with
    | Some btn => goto Wait1200 (emit [Click CheckButton (loc btn)] s)
    | None => goto (PollCheck start) s
    end
  else poll_next (now w (tick s)) s.

(** The test of the [while], line 591, and the run up to the first
    [await] of the body. *)
Definition loop_head (s : state) : state :=
  if isAutoRunning s && isQuizPage (page w (tick s)) then
    let s1 := emit [SetStatus (lit "Solving current question..."); Extract] s in
    match solve_extract innerText (page w (tick s)) with
    | inr (Failure e) => finally (emit [SetStatus (lit "Stopped: " ++ e)] s1)
    | inr (Success _) => finally s1
    | inl ex => goto (AwaitStorage ex) s1
    end
  else finally s.

(** The loop resumes from the [await] it is suspended at and runs to
    the next one. *)
Definition resume (s : state) : state :=
  match at_pc s with
  | Boundary => loop_head s
  | AwaitStorage ex =>
      match stored_model w (tick s) with
      | Throw msg => finally (emit [SetStatus (lit "Error: " ++ msg)] s)
      | Return m =>
          goto (AwaitOracle ex (model_or_default m)) (emit [AskOracle] s)
      end
  | AwaitOracle ex model =>
      match oracle w (tick s) apiKey model
                   (ex_question ex) (ex_answers ex) with
      | Throw msg => finally (emit [SetStatus (lit "Error: " ++ msg)] s)
      | Return answerIndex =>
          match solve_finish (ex_buttons ex) answerIndex with
          | (clicks, Success _) =>
              goto Wait500 (emit (map (Click AnswerButton) clicks) s)
          | (_, Failure e) =>
              finally (emit [SetStatus (lit "Stopped: " ++ e)] s)
          end
      end
  | Wait500 => poll_check (now w (tick s)) s
  | PollCheck start => poll_check start s
  | Wait1200 => poll_next (now w (tick s)) s
  | PollNext start => poll_next start s
  | Wait2000 => loop_head s
  | Done => s
  end.

Definition next_tick (s : state) : state :=
  {| at_pc := at_pc s; isAutoRunning := isAutoRunning s;
     tick := S (tick s); log := log s |}.

(** One turn of the event queue: a click on the panel, if there is one
    waiting, is handled before the loop resumes. *)
Definition turn (c : click) (s : state) : state :=
  next_tick (resume (handle_click c s)).

(** [runAllQuestions], lines 585 to 633: nothing if a loop is running,
    else the flag is raised and the loop runs to its first [await]. *)
Definition runAllQuestions (running : bool) (t : nat) : option state :=
  if running then None
  else Some (next_tick (loop_head {| at_pc := Boundary; isAutoRunning := true;
                                     tick := t; log := [] |})).

(** The state after [n] turns, [clicks k] being what was clicked before
    turn [k]. *)
Fixpoint run (clicks : nat -> click) (n : nat) (s : state) : state :=
  match n with
  | O => s
  | S n' => turn (clicks n') (run clicks n' s)
  end.
End Loop.

End RunAll.

(** ** The video watchdog *)

Module Video.
Import JsString.

(** A JavaScript number as [video.duration] reports it. *)
Inductive jsnum : Type :=
| NaN
| Infinity
| Fin (q : Q).

(** What the media element reports when a handler reads it. *)
Record reading := {
  duration : jsnum;
  currentTime : Q;
  ended : bool
}.

(** The control [getVideoNextButton] finds on the page, as
    [clickNextLink] treats it: a same-origin link, followed by a change
    of location, or any other control, clicked. *)
Inductive control : Type :=
| Link (href : jsstring)
| Button.

Inductive vaction : Type :=
| Status (msg : jsstring)
| Navigate (href : jsstring)
| ClickNext
| Rearm.                      (* the [setTimeout] of line 159; [Watchdog] runs it *)

(** [videoAutoAdvanceEnabled] and [videoEndedListener.interval] of the
    module, [advanced] of the closure of [attachNativeListener]. *)
Record vstate := {
  enabled : bool;
  advanced : bool;
  interval : bool;
  vlog : list vaction
}.

Definition ADVANCE_SECONDS_BEFORE_END : Q := 10.

Definition clickNextLink (c : control) : list vaction :=
  match c with
  | Link href => [Navigate href]
  | Button => [ClickNext]
  end.

(** [advanceToNext], lines 149 to 165 *)
Definition advanceToNext (nextBtn : option control) (s : vstate) : vstate :=
  match nextBtn with
  | Some c =>
      {| enabled := enabled s; advanced := advanced s; interval := false;
         vlog := vlog s ++ [Status (lit "Advancing to next...")]
                 ++ clickNextLink c ++ [Rearm] |}
  | None =>
      {| enabled := enabled s; advanced := advanced s; interval := false;
         vlog := vlog s ++ [Status (lit "No Next button found")] |}
  end.

Definition set_advanced (s : vstate) : vstate :=
  {| enabled := enabled s; advanced := true; interval := interval s;
     vlog := vlog s |}.

Definition Qmax (a b : Q) : Q := if Qle_bool a b then b else a.

(** The test of line 203. *)
Definition near_end (r : reading) : bool :=
  match duration r with
  | NaN => false
  | Infinity => false
  | Fin d =>
      negb (Qle_bool d 0)
      && Qle_bool (Qmax 0 (d - ADVANCE_SECONDS_BEFORE_END)) (currentTime r)
  end.

(** [checkTime], lines 199 to 211 *)
Definition checkTime (nextBtn : option control) (r : reading) (s : vstate)
  : vstate :=
  if negb (enabled s) || advanced s then s
  else
    let s1 := if near_end r
              then advanceToNext nextBtn (set_advanced s) else s in
    if ended r then advanceToNext nextBtn (set_advanced s1) else s1.

(** [onEnded], lines 213 to 217 *)
Definition onEnded (nextBtn : option control) (s : vstate) : vstate :=
  if negb (enabled s) || advanced s then s
  else advanceToNext nextBtn (set_advanced s).

(** What the event queue delivers to the listeners of one video. *)
Inductive event : Type :=
| TimeUpdate (r : reading)
| Poll (r : reading)
| Ended.

(** The 500 ms poll only runs while its interval is live. *)
Definition handle_event (nextBtn : option control) (e : event) (s : vstate)
  : vstate :=
  match e with
  | TimeUpdate r => checkTime nextBtn r s
  | Poll r => if interval s then checkTime nextBtn r s else s
  | Ended => onEnded nextBtn s
  end.

Definition handle_events (nextBtn : option control) (es : list event)
           (s : vstate) : vstate :=
  fold_left (fun st e => handle_event nextBtn e st) es s.

(** The state [attachNativeListener] leaves, lines 198 and 225. *)
Definition attached : vstate :=
  {| enabled := true; advanced := false; interval := true; vlog := [] |}.

(** [attachNativeListener], lines 188 to 229: nothing without a video or
    with the auto-advance off; else the guard is fresh, the poll is
    started and the two listeners are added. *)
Definition attachNativeListener (video : bool) (videoAutoAdvanceEnabled : bool)
  : option vstate :=
  if negb video || negb videoAutoAdvanceEnabled then None else Some attached.

Definition is_navigation (a : vaction) : bool :=
  match a with
  | Navigate _ | ClickNext => true
  | _ => false
  end.

Definition navigations (s : vstate) : nat :=
  length (filter is_navigation (vlog s)).

End Video.

(** ** The math-field actuator *)

Module MathField.
Import JsString.

(** What the script can see of the field and of the page. *)
Record field := {
  id : jsstring;
  has_focus : bool;
  has_scrollIntoView : bool;
  has_setValue : bool;
  has_insert : bool;
  has_executeCommand : bool;
  has_value_setter : bool
}.

Record page := {
  has_body : bool;
  dataTransfer_ok : bool
}.

Inductive op : Type :=
| Focus
| ScrollIntoView
| InjectScript (fieldId latex : jsstring)
| Paste (latex : jsstring)
| Delay (ms : Z)
| SetValue (latex : jsstring)
| Insert (latex : jsstring)
| SelectAll
| CommandInsert (latex : jsstring)
| SetterCall (latex : jsstring)
| AssignValue (latex : jsstring)
| InputEvent
| ChangeEvent.

Definition when (b : bool) (l : list op) : list op := if b then l else [].

(** [dispatchPasteWithData], lines 413 to 429 *)
Definition dispatchPasteWithData (pg : page) (f : field) (latex : jsstring)
  : list op :=
  if dataTransfer_ok pg then when (has_focus f) [Focus] ++ [Paste latex]
  else [].

(** [forceSetValue], lines 431 to 443 *)
Definition forceSetValue (f : field) (value : jsstring) : list op :=
  if has_value_setter f then [SetterCall value] else [AssignValue value].

(** [setMathFieldValueInPage], lines 445 to 453 *)
Definition setMathFieldValueInPage (pg : page) (mathFieldId latex : jsstring)
  : list op :=
  if negb (truthy mathFieldId) || negb (has_body pg) then []
  else [InjectScript mathFieldId latex].

(** [setMathFieldValue], lines 455 to 488: the operations in the order
    they are performed. *)
Definition setMathFieldValue (pg : page) (f : field) (latex : jsstring)
  : list op :=
  when (has_focus f) [Focus]
  ++ when (has_scrollIntoView f) [ScrollIntoView]
  ++ (if truthy (id f) then setMathFieldValueInPage pg (id f) latex else [])
  ++ dispatchPasteWithData pg f latex
  ++ [Delay 80]
  ++ (if has_setValue f then [SetValue latex]
      else if has_insert f then [Insert latex]
      else if has_executeCommand f then [SelectAll; CommandInsert latex]
      else forceSetValue f latex)
  ++ [InputEvent; ChangeEvent]
  ++ [Delay 120]
  ++ (if has_setValue f then [SetValue latex] else forceSetValue f latex)
  ++ [InputEvent].

Definition is_inject (o : op) : bool :=
  match o with InjectScript _ _ => true | _ => false end.
Definition is_paste (o : op) : bool :=
  match o with Paste _ => true | _ => false end.
(** A write through the field's own interface, step (b) of the
    specification. *)
Definition is_direct (o : op) : bool :=
  match o with
  | SetValue _ | Insert _ | CommandInsert _ | SetterCall _ | AssignValue _ => true
  | _ => false
  end.

Definition count (p : op -> bool) (l : list op) : nat := length (filter p l).

(** The position of the first operation that satisfies [p]. *)
Fixpoint index_of (p : op -> bool) (l : list op) : option nat :=
  match l with
  | [] => None
  | o :: l' => if p o then Some 0
               else option_map S (index_of p l')
  end.

End MathField.

(** ** The popup: the model listing *)

Module Popup.
Import JsString Oracle.

Definition exclude : list jsstring :=
  [lit "whisper"; lit "orpheus"; lit "prompt-guard"; lit "safeguard"].

(** [isChatModel], lines 5 to 9; [None] is a missing identifier. *)
Definition isChatModel (id : option jsstring) : bool :=
  let lower := toLowerCase (or_str id []) in
  negb (existsb (fun k => includes lower k) exclude).

(** A record of the listing; the other fields are carried along. *)
Record model := {
  model_id : option jsstring;
  owned_by : jsstring
}.

Section Sorting.
(** [a.localeCompare(b)]: negative, zero or positive.  The collation is
    the one of the browser. *)
Variable localeCompare : jsstring -> jsstring -> comparison.

Definition cmp (a b : model) : comparison :=
  localeCompare (or_str (model_id a) []) (or_str (model_id b) []).

(** [Array.prototype.sort] is stable, and with a consistent comparison
    its result is the stable sorted arrangement.  A record goes in
    front of the first record it does not come after, so that it stays
    ahead of the later records that compare equal to it. *)
Fixpoint insert (x : model) (l : list model) : list model :=
  match l with
  | [] => [x]
  | y :: l' =>
      match cmp x y with
      | Gt => y :: insert x l'
      | _ => x :: l
      end
  end.

Definition sort (l : list model) : list model :=
  fold_right insert [] l.

Record listing := {
  res_ok : bool;
  res_status : Z;
  res_error : option jsstring;
  data : option (list model)
}.

(** [fetchModels], lines 11 to 22, over the listings that have been
    parsed; [Transport.fetchModels] starts from what [fetch] gives. *)
Definition fetchModels (res : listing) : outcome (list model) :=
  if negb (res_ok res) then
    Throw (match res_error res with
           | Some m => if truthy m then m
                       else lit "API error: " ++ of_Z (res_status res)
           | None => lit "API error: " ++ of_Z (res_status res)
           end)
  else
    let models := filter (fun m => isChatModel (model_id m))
                         (match data res with Some d => d | None => [] end) in
    Return (sort models).
End Sorting.

(** The comparison of two strings unit by unit, a collation that puts
    the strings in the order of their code units. *)
Fixpoint compare_units (a b : jsstring) : comparison :=
  match a, b with
  | [], [] => Eq
  | [], _ :: _ => Lt
  | _ :: _, [] => Gt
  | x :: a', y :: b' =>
      match Nat.compare (code x) (code y) with
      | Eq => compare_units a' b'
      | c => c
      end
  end.

(** [a] does not come after [b]. *)
Definition le (localeCompare : jsstring -> jsstring -> comparison)
           (a b : model) : Prop :=
  cmp localeCompare a b <> Gt.

(** The identifier, in lower case, holds one of the excluded words. *)
Definition excluded (m : model) : Prop :=
  exists k, In k exclude
            /\ exists pre post,
              toLowerCase (or_str (model_id m) []) = pre ++ k ++ post.

(** *** The listing as the specification words it

    The identifier of a record, the empty string for a record without
    one. *)
Definition identifier (m : model) : jsstring :=
  match model_id m with
  | Some s => s
  | None => []
  end.

(** A part of [s] is the word [k] but for the case of its letters. *)
Definition holds_word (k s : jsstring) : Prop :=
  exists pre mid post, s = pre ++ mid ++ post /\ toLowerCase mid = k.

(** The identifier names one of the families that do not converse. *)
Definition non_conversational (m : model) : Prop :=
  holds_word (lit "whisper") (identifier m)
  \/ holds_word (lit "orpheus") (identifier m)
  \/ holds_word (lit "prompt-guard") (identifier m)
  \/ holds_word (lit "safeguard") (identifier m).

(** The identifier of [a] does not come after the one of [b]. *)
Definition in_order (localeCompare : jsstring -> jsstring -> comparison)
           (a b : model) : Prop :=
  localeCompare (identifier a) (identifier b) <> Gt.

Definition named (s : string) : model :=
  {| model_id := Some (lit s); owned_by := lit "groq" |}.

Definition sample_listing : listing :=
  {| res_ok := true; res_status := 200; res_error := None;
     data := Some [named "qwen-32b"; named "Whisper-large-v3";
                   named "llama-3.3-70b-versatile";
                   named "meta-llama/Llama-Prompt-Guard-2";
                   named "gemma2-9b-it"] |}.

End Popup.

(** ** Sample pages *)

Module Samples.
Import JsString Dom.
#[local] Open Scope string_scope.

Definition el (t : string) (a : list (string * string)) (c : list node) : node :=
  Elem (lit t) (map (fun kv => (lit (fst kv), lit (snd kv))) a) None c.

Definition txt (s : string) : node := Text (lit s).

(** An answer button as the site renders it: the letter of the choice and
    the label. *)
Definition choice (letter label : string) : node :=
  el "li" []
     [el "button" [("type", "button")]
         [el "span" [] [txt ("Choice " ++ letter)];
          el "div" [("class", "Markdown_root")] [txt label]]].

(** The same with a picture and no text for a label. *)
Definition picture_choice (letter : string) : node :=
  el "li" []
     [el "button" [("type", "button")]
         [el "span" [] [txt ("Choice " ++ letter)];
          el "div" [("class", "Markdown_root")] [el "img" [("src", "a.png")] []]]].

Definition article (items : list node) : node :=
  el "article" []
     [el "div" [] [txt "Atomi Question 1"];
      el "div" [] [txt "What is the capital of France?"];
      el "ul" [("aria-labelledby", "q1")] items;
      el "button" [] [txt "Check Answer"];
      el "button" [] [txt "Next question"]].

Definition page_of (body : list node) : document :=
  [el "html" [] [el "head" [] []; el "body" [] body]].

Definition quiz : document :=
  page_of [article [choice "A" "Rome"; choice "B" "Paris"; choice "C" "Oslo"]].

(** The first answer is a picture. *)
Definition picture_quiz : document :=
  page_of [article [picture_choice "A"; choice "B" "Paris"]].

(** The quiz of [quiz] inside the shadow root of a custom element. *)
Definition shadow_quiz : document :=
  page_of [Elem (lit "quiz-host") [] (Some quiz) []].

(** Two labelled lists of one item each, the second inside the item of
    the first, around a single button. *)
Definition nested_quiz : document :=
  page_of [el "ul" [("aria-labelledby", "q1")]
              [el "li" []
                  [el "ul" [("aria-labelledby", "q2")]
                      [el "li" []
                          [el "button" [("type", "button")] [txt "Rome"]]]]]].

(** A question whose marks are a paragraph of the Markdown root. *)
Definition marks_in_root : document :=
  page_of [el "div" [("class", "Markdown_root")]
              [el "p" [] [txt "Differentiate x^3"];
               el "p" [] [txt "3 marks"]]].

(** A quiz whose list has a single answer. *)
Definition single_quiz : document := page_of [article [choice "A" "Rome"]].

Definition no_innerText (n : node) : jsstring := [].

(** A world in which the quiz stays on the page, a second passes between
    two turns, and the oracle answers 2. *)
Definition steady : RunAll.env :=
  {| RunAll.page := fun _ => quiz;
     RunAll.now := fun t => (1000 * Z.of_nat t)%Z;
     RunAll.stored_model := fun _ => Oracle.Return None;
     RunAll.oracle := fun _ _ _ _ _ => Oracle.Return (Some 2%Z) |}.

(** The loop as [runAllQuestions] enters it, the flag just raised. *)
Definition raised : RunAll.state :=
  {| RunAll.at_pc := RunAll.Boundary; RunAll.isAutoRunning := true;
     RunAll.tick := 0; RunAll.log := [] |}.

(** A video of 100 seconds that has played to its end. *)
Definition at_the_end : Video.reading :=
  {| Video.duration := Video.Fin 100; Video.currentTime := 100;
     Video.ended := true |}.

(** A math field with an identifier and the [setValue] method. *)
Definition math_field : MathField.field :=
  {| MathField.id := lit "answer-1";
     MathField.has_focus := true;
     MathField.has_scrollIntoView := true;
     MathField.has_setValue := true;
     MathField.has_insert := true;
     MathField.has_executeCommand := true;
     MathField.has_value_setter := true |}.

Definition math_page : MathField.page :=
  {| MathField.has_body := true; MathField.dataTransfer_ok := true |}.

(** Stop is clicked once, before the third turn, while the oracle is
    being asked. *)
Definition stop_at_2 (k : nat) : RunAll.click :=
  if Nat.eqb k 2 then RunAll.StopClick else RunAll.NoClick.

(** Stop before the third turn and Run All before the fourth, within the
    same iteration. *)
Definition stop_then_run (k : nat) : RunAll.click :=
  if Nat.eqb k 2 then RunAll.StopClick
  else if Nat.eqb k 3 then RunAll.RunAllClick else RunAll.NoClick.

(** A page whose Check Answer button says [aria-disabled="false"] and
    whose Next button says [aria-disabled="true"]. *)
Definition aria_page : document :=
  page_of [el "button" [("aria-disabled", "false")] [txt "Check Answer"];
           el "button" [("aria-disabled", "true")] [txt "Next"]].

End Samples.

(** ** Notions for the statements about strings and trees *)

Module Notions.
Import JsString Dom.

(** A string with no white space at either end. *)
Definition trimmed (s : jsstring) : Prop :=
  (forall c, hd_error s = Some c -> is_space c = false)
  /\ (forall c, hd_error (rev s) = Some c -> is_space c = false).

(** The nesting of shadow roots under a node. *)
Fixpoint shadow_depth (n : node) : nat :=
  match n with
  | Text _ => 0
  | Elem _ _ sh ch =>
      Nat.max
        (match sh with
         | Some sr =>
             S ((fix go (l : list node) : nat :=
                   match l with
                   | [] => 0
                   | x :: xs => Nat.max (shadow_depth x) (go xs)
                   end) sr)
         | None => 0
         end)
        ((fix go (l : list node) : nat :=
            match l with
            | [] => 0
            | x :: xs => Nat.max (shadow_depth x) (go xs)
            end) ch)
  end.

Fixpoint shadow_depth_list (l : list node) : nat :=
  match l with
  | [] => 0
  | x :: xs => Nat.max (shadow_depth x) (shadow_depth_list xs)
  end.

Definition root_depth (r : root) : nat :=
  match r with
  | RDoc d => shadow_depth_list d
  | RElem e => shadow_depth_list (children_of (self e))
  | RShadow _ sr => shadow_depth_list sr
  end.

(** [findInDocument] as the script runs it: the recursion ends by itself,
    one call per level of shadow roots. *)
Definition findInDocument_js (r : root) (s : selector) : option element :=
  findInDocument (S (root_depth r)) r s.

End Notions.

(** ** Counting what the Run-All loop has done *)

Module LoopCounts.
Import JsString Dom Quiz RunAll.

Definition is_extract (a : action) : bool :=
  match a with Extract => true | _ => false end.
Definition is_ask (a : action) : bool :=
  match a with AskOracle => true | _ => false end.
Definition is_click (t : target) (a : action) : bool :=
  match a, t with
  | Click AnswerButton _, AnswerButton => true
  | Click CheckButton _, CheckButton => true
  | Click NextButton _, NextButton => true
  | _, _ => false
  end.

Definition times (p : action -> bool) (s : state) : nat :=
  length (filter p (log s)).

(** How the counts stand at each place of the loop: an extraction comes
    before its oracle call, the call before its answer click, the answer
    click before the clicks on Check Answer and on Next. *)
Definition in_step (s : state) : Prop :=
  let E := times is_extract s in
  let A := times is_ask s in
  let C := times (is_click AnswerButton) s in
  let K := times (is_click CheckButton) s in
  let N := times (is_click NextButton) s in
  match at_pc s with
  | AwaitStorage _ => N <= C /\ K <= C /\ C <= A /\ A + 1 <= E
  | AwaitOracle _ _ => N <= C /\ K <= C /\ C + 1 <= A /\ A <= E
  | Wait500 | PollCheck _ => N + 1 <= C /\ K + 1 <= C /\ C <= A /\ A <= E
  | Wait1200 | PollNext _ => N + 1 <= C /\ K <= C /\ C <= A /\ A <= E
  | Boundary | Wait2000 | Done => N <= C /\ K <= C /\ C <= A /\ A <= E
  end.

End LoopCounts.

(** ** How far the loop is from its next iteration boundary *)

Module Latency.
Import JsString Dom Quiz RunAll LoopCounts.

(** The answer click of the iteration under way is still to come. *)
Definition answer_due (s : state) : nat :=
  match at_pc s with
  | AwaitStorage _ | AwaitOracle _ _ => 1
  | _ => 0
  end.

(** What the loop adds to the log with the flag down: no extraction, and
    no answer click but the one that is due. *)
Definition quiet (l : list action) (before after : state) : Prop :=
  filter is_extract l = []
  /\ length (filter (is_click AnswerButton) l) + answer_due after
     <= answer_due before.

(** The looks that a poll of [timeout] ms begun at [start] can still
    take at the time [n], two looks being 200 ms apart or more. *)
Definition looks_left (timeout start n : Z) : nat :=
  Z.to_nat ((start + timeout - n + 199) / 200).

(** A bound on the turns of the event queue from a place of the loop to
    its next iteration boundary, or to its end. *)
Definition turns_left (w : env) (s : state) : nat :=
  match at_pc s with
  | Boundary | Wait2000 | Done => 0
  | PollNext start => 1 + looks_left 8000 start (now w (tick s))
  | Wait1200 => 42
  | PollCheck start => 43 + looks_left 5000 start (now w (tick s))
  | Wait500 => 69
  | AwaitOracle _ _ => 70
  | AwaitStorage _ => 71
  end.

End Latency.

(** ** The identifier inside the injected script *)

Module Escape.
Import JsString.

Definition backslash : ascii := "\"%char.
Definition dquote : ascii := ascii_of_nat 34.
Definition less_than : ascii := "<"%char.

(** [s.replace(/c/g, r)] for a pattern of one character and a
    replacement free of [$]. *)
Definition replace_all (c : ascii) (r : jsstring) (s : jsstring) : jsstring :=
  flat_map (fun x => if ascii_eqb x c then r else [x]) s.

(** [safeId], line 447 of [setMathFieldValueInPage] *)
Definition safeId (mathFieldId : jsstring) : jsstring :=
  replace_all less_than (backslash :: lit "u003c")
    (replace_all dquote [backslash; dquote]
       (replace_all backslash [backslash; backslash] mathFieldId)).

(** The script text around the identifier, line 450: the identifier sits
    between the double quotes of a string literal. *)
Definition script_call (mathFieldId : jsstring) : jsstring :=
  lit "document.getElementById(" ++ [dquote] ++ safeId mathFieldId
  ++ [dquote] ++ lit ")".

Definition hex_val (c : ascii) : option nat :=
  if is_digit c then Some (code c - 48)
  else if between 97 102 c then Some (code c - 87)
  else if between 65 70 c then Some (code c - 55)
  else None.

(** The code unit of the escape [\uXXXX], when it is below 256. *)
Definition unit_of_hex (a b c d : ascii) : option ascii :=
  match hex_val a, hex_val b, hex_val c, hex_val d with
  | Some 0, Some 0, Some x, Some y => Some (ascii_of_nat (16 * x + y))
  | _, _, _, _ => None
  end.

(** The value of the body of a string literal in double quotes, as the
    page reads it, for the escapes the script writes: a backslash before
    a backslash or a double quote, and [\u00XX].  A double quote or a
    line break that is not escaped ends or breaks the literal, and so
    does, here, any other escape: [None]. *)
Fixpoint literal_value (s : jsstring) : option jsstring :=
  match s with
  | [] => Some []
  | c :: s' =>
      if ascii_eqb c backslash then
        match s' with
        | e :: s'' =>
            if ascii_eqb e backslash || ascii_eqb e dquote then
              option_map (cons e) (literal_value s'')
            else if ascii_eqb e "u"%char then
              match s'' with
              | h1 :: h2 :: h3 :: h4 :: s5 =>
                  match unit_of_hex h1 h2 h3 h4 with
                  | Some u => option_map (cons u) (literal_value s5)
                  | None => None
                  end
              | _ => None
              end
            else None
        | [] => None
        end
      else if ascii_eqb c dquote || (code c =? 10) || (code c =? 13) then None
      else option_map (cons c) (literal_value s')
  end.

(** The characters of the identifier one by one, as the three passes
    leave them. *)
Definition escape_unit (c : ascii) : jsstring :=
  if ascii_eqb c backslash then [backslash; backslash]
  else if ascii_eqb c dquote then [backslash; dquote]
  else if ascii_eqb c less_than then backslash :: lit "u003c"
  else [c].

Definition no_line_break (s : jsstring) : Prop :=
  forall c, In c s -> code c <> 10 /\ code c <> 13.

End Escape.

(** ** Working-out pages *)

Module WorkingOut.
Import JsString Regex Dom Oracle Quiz Notions MathField.

Definition sel_mathField : selector := Sel [Tag (lit "math-field")].

Definition selfMarkBtn (doc : document) : option element :=
  find_first (fun b => includes (or_str (Some (text_of b)) []) (lit "Self-mark"))
             (querySelectorAll (RDoc doc) sel_button).

(** [isWorkingOutPage], lines 48 to 54 *)
Definition isWorkingOutPage (doc : document) : bool :=
  match or_else (findInDocument_js (RDoc doc) sel_mathField)
                (querySelector (RDoc doc) sel_mathField) with
  | None => false
  | Some _ =>
      match selfMarkBtn doc with
      | Some _ => true
      | None => false
      end
  end.

(** [querySelectorAll] with a list of selectors: the elements that match
    one of them, in document order. *)
Definition querySelectorAll_any (r : root) (ss : list selector)
  : list element :=
  filter (fun e => existsb (fun s => matches s e) ss) (descendants r).

Definition sel_markdown_root : selector :=
  Sel [AttrHas (lit "class") (lit "Markdown_root")].
Definition sel_paragraphs : list selector :=
  [Sel [AttrHas (lit "class") (lit "Markdown_paragraph")]; Sel [Tag (lit "p")]].
Definition sel_img_alt : selector := Sel [Tag (lit "img"); HasAttr (lit "alt")].
Definition sel_marks : selector := Sel [AttrHas (lit "class") (lit "marks")].
Definition sel_p : selector := Sel [Tag (lit "p")].

(** [parts.includes(t)] *)
Definition has_part (parts : list jsstring) (t : jsstring) : bool :=
  existsb (str_eqb t) parts.

(** The body of the loop over the paragraphs, line 94. *)
Definition push_paragraph (parts : list jsstring) (p : element)
  : list jsstring :=
  let t := trim (text_of p) in
  if truthy t && negb (has_part parts t) then parts ++ [t] else parts.

(** The body of the loop over the images, lines 98 and 99. *)
Definition push_image (parts : list jsstring) (img : element)
  : list jsstring :=
  match getAttribute (self img) (lit "alt") with
  | Some a =>
      let alt := trim a in
      if truthy alt then parts ++ [lit "[Image: " ++ alt ++ lit "]"]
      else parts
  | None => parts
  end.

(** The body of the loop over the roots, lines 91 to 100. *)
Definition push_root (parts : list jsstring) (root : element)
  : list jsstring :=
  let paras := querySelectorAll_any (RElem root) sel_paragraphs in
  let parts1 := fold_left push_paragraph paras parts in
  let imgs := querySelectorAll (RElem root) sel_img_alt in
  fold_left push_image imgs parts1.

(** [parts] after the loop of lines 90 to 101. *)
Definition question_parts (doc : document) : list jsstring :=
  fold_left push_root (querySelectorAll (RDoc doc) sel_markdown_root) [].

(** [/^\d+\s*marks?$/i] on the whole of a string: the match starts at the
    start and the continuation asks for the end. *)
Definition marks_re : re :=
  Cat (Chr is_digit)
      (Cat (Star is_digit)
           (Cat (Star is_space) (Cat (lit_ci "mark") (Opt (chr_ci "s"%char))))).

Definition test_whole (r : re) (s : jsstring) : bool :=
  match mre r (fun _ rest => match rest with [] => Some tt | _ => None end)
            None s with
  | Some _ => true
  | None => false
  end.

Definition marksEl (doc : document) : option element :=
  or_else (querySelector (RDoc doc) sel_marks)
          (find_first (fun p => test_whole marks_re (trim (text_of p)))
                      (querySelectorAll (RDoc doc) sel_p)).

(** The parts that line 104 joins: the parts of the roots, then the
    line of the marks when there is one, the empty ones left out. *)
Definition returned_parts (doc : document) : list jsstring :=
  filter truthy (match marksEl doc with
                 | Some m => question_parts doc ++ [trim (text_of m)]
                 | None => question_parts doc
                 end).

(** [getWorkingOutQuestionText], lines 87 to 105 *)
Definition getWorkingOutQuestionText (doc : document) : jsstring :=
  let parts := question_parts doc in
  let parts' := match marksEl doc with
                | Some m => parts ++ [trim (text_of m)]
                | None => parts
                end in
  trim (join ["010"%char] (filter truthy parts')).

(** [callGroqAPIForWorkingOut], lines 385 to 411 *)
Definition callGroqAPIForWorkingOut (fetch : request -> response)
           (apiKey model question : jsstring) : outcome jsstring :=
  let resp :=
    fetch {| req_key := apiKey;
             req_model := if truthy model then model else DEFAULT_MODEL;
             req_user := lit "Question:" ++ ["010"%char] ++ question
                         ++ ["010"%char; "010"%char]
                         ++ lit "Output only the raw working out (LaTeX, no explanation):";
             req_max_tokens := 2048 |} in
  if negb (ok resp) then Throw (api_error resp)
  else Return (trim (or_str (content resp) [])).

Inductive wresult : Type :=
| Filled
| NotFilled (error : jsstring).

(** What a run of [runWorkingOutAutofill] has done: the status lines, the
    questions sent to the oracle, the operations on the field, and what
    it returns. *)
Record autofill := {
  statuses : list jsstring;
  asked : list jsstring;
  written : list op;
  returned : wresult
}.

Definition working_out_oracle := jsstring -> jsstring -> jsstring -> outcome jsstring.

(** [runWorkingOutAutofill], lines 490 to 522.  [mathField] is what
    [getMathField] returns, [bodyText] the [innerText] of the body (empty
    without a body), [stored] the reading of the stored model. *)
Definition runWorkingOutAutofill (oracle : working_out_oracle)
           (pg : page) (mathField : option field) (doc : document)
           (bodyText : jsstring) (stored : outcome (option jsstring))
           (apiKey : jsstring) : autofill :=
  let question0 := getWorkingOutQuestionText doc in
  match mathField with
  | None =>
      {| statuses := [lit "No math input found"]; asked := []; written := [];
         returned := NotFilled (lit "No math field found") |}
  | Some f =>
      let fallback := firstn 3000 bodyText in
      if negb (truthy question0) && negb (truthy fallback) then
        {| statuses := [lit "No question text found"]; asked := [];
           written := [];
           returned := NotFilled (lit "Could not extract question") |}
      else
        let question := if truthy question0 then question0 else fallback in
        let st0 := if truthy question0 then [] else [lit "Using page text..."] in
        let st1 := st0 ++ [lit "Solving working out..."] in
        match stored with
        | Throw msg =>
            {| statuses := st1 ++ [lit "Error: " ++ msg]; asked := [];
               written := []; returned := NotFilled msg |}
        | Return m =>
            match oracle apiKey (model_or_default m) question with
            | Throw msg =>
                {| statuses := st1 ++ [lit "Error: " ++ msg];
                   asked := [question]; written := [];
                   returned := NotFilled msg |}
            | Return workingOut =>
                if negb (truthy workingOut) then
                  {| statuses := st1 ++ [lit "Empty response from API"];
                     asked := [question]; written := [];
                     returned := NotFilled (lit "Empty API response") |}
                else
                  {| statuses := st1 ++ [lit "Working out filled"];
                     asked := [question];
                     written := setMathFieldValue pg f workingOut;
                     returned := Filled |}
            end
        end
  end.

(** [runSingleAutofill], lines 569 to 583: the clicks, the status lines
    and the boolean it returns; what [solveCurrentQuestion] throws is
    caught. *)
Definition runSingleAutofill (innerText : node -> jsstring)
           (oracle : oracle_fn) (doc : document)
           (stored : option jsstring) (apiKey : jsstring)
  : list handle * list jsstring * bool :=
  match solveCurrentQuestion innerText oracle doc stored apiKey with
  | (clicks, Return (Success index)) =>
      (clicks, [lit "Solving..."; lit "Selected answer " ++ of_Z index], true)
  | (clicks, Return (Failure error)) =>
      (clicks, [lit "Solving..."; lit "Error: " ++ error], false)
  | (clicks, Throw msg) =>
      (clicks, [lit "Solving..."; lit "Error: " ++ msg], false)
  end.

(** A paragraph of a Markdown root with a text. *)
Definition paragraph_text (doc : document) (t : jsstring) : Prop :=
  exists root p,
    In root (querySelectorAll (RDoc doc) sel_markdown_root)
    /\ In p (querySelectorAll_any (RElem root) sel_paragraphs)
    /\ t = trim (text_of p) /\ t <> [].

(** No Markdown root holds a picture with a description. *)
Definition no_pictures (doc : document) : Prop :=
  forall root, In root (querySelectorAll (RDoc doc) sel_markdown_root) ->
               forall img, In img (querySelectorAll (RElem root) sel_img_alt) ->
                           match getAttribute (self img) (lit "alt") with
                           | Some a => trim a = []
                           | None => True
                           end.

End WorkingOut.

(** ** The next control of a video page *)

Module VideoPage.
Import JsString Dom Quiz Video.

Definition is_tag (t : jsstring) (n : node) : bool :=
  is_elem n && str_eqb (tagName n) t.

(** [[a="v"]] on an attribute whose values are compared as they are *)
Definition attr_is (a v : jsstring) (n : node) : bool :=
  match getAttribute n a with
  | Some x => str_eqb x v
  | None => false
  end.

(** [a[data-test="post-pagination-link"]] *)
Definition is_pagination_link (e : element) : bool :=
  is_tag (lit "a") (self e)
  && attr_is (lit "data-test") (lit "post-pagination-link") (self e).

Definition pagination_links (doc : document) : list element :=
  filter is_pagination_link (descendants (RDoc doc)).

(** [el.className] *)
Definition className (n : node) : jsstring :=
  match getAttribute n (lit "class") with
  | Some c => c
  | None => []
  end.

(** The two tests of the first loop, lines 125 and 126. *)
Definition preferred (el : element) : bool :=
  (truthy (className (self el))
   && includes (className (self el)) (lit "isDirectionSwitched"))
  || includes (toLowerCase (or_str (Some (text_of el)) [])) (lit "up next").

(** The test of the second loop, lines 129 to 132. *)
Definition next_like (el : element) : bool :=
  let text := toLowerCase (trim (or_str (Some (text_of el)) [])) in
  let ariaLabel :=
    toLowerCase (or_str (getAttribute (self el) (lit "aria-label")) []) in
  (includes text (lit "next") || includes ariaLabel (lit "next"))
  && negb (includes text (lit "check"))
  && negb (includes text (lit "prev")).

(** [a[href], button] *)
Definition is_link_or_button (e : element) : bool :=
  (is_tag (lit "a") (self e) && hasAttribute (self e) (lit "href"))
  || is_tag (lit "button") (self e).

Definition links_and_buttons (doc : document) : list element :=
  filter is_link_or_button (descendants (RDoc doc)).

(** [getVideoNextButton], lines 122 to 135 *)
Definition getVideoNextButton (doc : document) : option element :=
  or_else (find_first preferred (pagination_links doc))
          (find_first next_like (links_and_buttons doc)).

(** What [clickNextLink], lines 137 to 146, does with an element:
    [resolve] is [new URL(href, origin).href]. *)
Definition control_of (origin : jsstring)
           (resolve : jsstring -> jsstring -> jsstring) (el : element)
  : control :=
  match getAttribute (self el) (lit "href") with
  | Some href =>
      if truthy href && str_eqb (tagName (self el)) (lit "a")
         && startsWith origin (lit "http")
      then Link (resolve href origin) else Button
  | None => Button
  end.

End VideoPage.

(** ** The video watchdog as a whole: listeners, timers and re-arming *)

Module Watchdog.
Import JsString.

(** The closure that navigates: the one made by the i-th call of
    [attachNativeListener], or by the j-th call of [onReady]. *)
Inductive closure_id : Type :=
| Listener (i : nat)
| Player (j : nat).

Definition closure_eqb (a b : closure_id) : bool :=
  match a, b with
  | Listener i, Listener j => i =? j
  | Player i, Player j => i =? j
  | _, _ => false
  end.

Inductive wact : Type :=
| Say (msg : jsstring)                    (* statusCallback *)
| Go (who : closure_id) (c : Video.control)   (* clickNextLink(nextBtn) *)
| SetTimer.                               (* the setTimeout of line 159 *)

(** A closure of [attachNativeListener]: the element its two handlers
    were added to, its [advanced], whether the handlers are still on the
    element, and whether its interval is live. *)
Record listener := {
  on_video : nat;
  guard : bool;
  bound : bool;
  polling : bool
}.

(** [videoAutoAdvanceEnabled], [videoEndedListener] (the place of the
    closure it holds), the closures made so far, the [advanced] of each
    closure of [onReady], the configurations pushed to [_wq], the
    time-outs of line 159 that are pending, the calls of
    [getVideoNextButton] made so far, and what was done. *)
Record wstate := {
  auto_on : bool;
  current : option nat;
  listeners : list listener;
  players : list bool;
  configs : nat;
  timers : nat;
  asked : nat;
  wlog : list wact
}.

Definition init : wstate :=
  {| auto_on := false; current := None; listeners := []; players := [];
     configs := 0; timers := 0; asked := 0; wlog := [] |}.

Fixpoint alter (A : Type) (f : A -> A) (i : nat) (l : list A) : list A :=
  match l, i with
  | [], _ => []
  | x :: r, O => f x :: r
  | x :: r, S i' => x :: alter f i' r
  end.

Definition stop_poll (l : listener) : listener :=
  {| on_video := on_video l; guard := guard l; bound := bound l;
     polling := false |}.

Definition raise (l : listener) : listener :=
  {| on_video := on_video l; guard := true; bound := bound l;
     polling := polling l |}.

(** Lines 218 to 224 on the closure that [videoEndedListener] holds: its
    interval is cleared, and its handlers are taken off the new element,
    which removes them if that is the element they are on. *)
Definition release (v : nat) (l : listener) : listener :=
  {| on_video := on_video l; guard := guard l;
     bound := bound l && negb (on_video l =? v); polling := false |}.

Definition on_current (f : listener -> listener) (s : wstate)
  : list listener :=
  match current s with
  | Some c => alter f c (listeners s)
  | None => listeners s
  end.

Definition with_listeners (ls : list listener) (s : wstate) : wstate :=
  {| auto_on := auto_on s; current := current s; listeners := ls;
     players := players s; configs := configs s; timers := timers s;
     asked := asked s; wlog := wlog s |}.

Definition with_players (ps : list bool) (s : wstate) : wstate :=
  {| auto_on := auto_on s; current := current s; listeners := listeners s;
     players := ps; configs := configs s; timers := timers s;
     asked := asked s; wlog := wlog s |}.

Definition say (msg : jsstring) (s : wstate) : wstate :=
  {| auto_on := auto_on s; current := current s; listeners := listeners s;
     players := players s; configs := configs s; timers := timers s;
     asked := asked s; wlog := wlog s ++ [Say msg] |}.

(** The test of line 248: no floor at zero and no test for NaN, a
    comparison with NaN or with infinity being false. *)
Definition near_end_at (dur : Video.jsnum) (t : Q) : bool :=
  match dur with
  | Video.NaN => false
  | Video.Infinity => false
  | Video.Fin d => negb (Qle_bool d 0)
                   && Qle_bool (d - Video.ADVANCE_SECONDS_BEFORE_END) t
  end.

(** What the event queue brings to the watchdog.  The listeners of an
    element hear its events; the poll of a closure ticks while its
    interval is live; a time-out of line 159 runs, [isVideoPage] and
    [findVideoElement] giving what they give then; [setupVideoAutoAdvance]
    is called from the panel; the mutation observer of line 278 finds a
    video; the flag is written; the player library calls [onReady] and
    the handlers bound there. *)
Inductive wevent : Type :=
| TimeUpdate (v : nat) (r : Video.reading)
| Ended (v : nat)
| Tick (i : nat) (r : Video.reading)
| TimerFires (isVideoPage : bool) (found : option nat) (hasWistia : bool)
| Setup (found : option nat) (hasWistia : bool)
| Observed (v : nat)
| SetEnabled (b : bool)
| PlayerReady
| Timechange (j : nat) (dur : Video.jsnum) (t : Q)
| PlayerEnd (j : nat).

(** [advanced = true] in the closure [who]. *)
Definition raised (who : closure_id) (s : wstate) : wstate :=
  match who with
  | Listener i => with_listeners (alter raise i (listeners s)) s
  | Player j => with_players (alter (fun _ => true) j (players s)) s
  end.

Section Page.
(** What [getVideoNextButton] finds at its k-th call, as [clickNextLink]
    treats it. *)
Variable nextBtn : nat -> option Video.control.

(** [advanceToNext], lines 149 to 165, called from the closure [who]. *)
Definition advanceToNext (who : closure_id) (s : wstate) : wstate :=
  let ls := on_current stop_poll s in
  match nextBtn (asked s) with
  | Some c =>
      {| auto_on := auto_on s; current := None; listeners := ls;
         players := players s; configs := configs s;
         timers := S (timers s); asked := S (asked s);
         wlog := wlog s ++ [Say (lit "Advancing to next..."); Go who c;
                            SetTimer] |}
  | None =>
      {| auto_on := auto_on s; current := current s; listeners := ls;
         players := players s; configs := configs s;
         timers := timers s; asked := S (asked s);
         wlog := wlog s ++ [Say (lit "No Next button found")] |}
  end.

(** [advanced = true; advanceToNext();] in the closure [who]. *)
Definition fire (who : closure_id) (s : wstate) : wstate :=
  advanceToNext who (raised who s).

(** One navigation if a control is found at the next call, none if
    not. *)
Definition found (s : wstate) : nat :=
  match nextBtn (asked s) with
  | Some _ => 1
  | None => 0
  end.

(** [checkTime] of the i-th listener, lines 199 to 211 *)
Definition checkTime (i : nat) (r : Video.reading) (s : wstate) : wstate :=
  match nth_error (listeners s) i with
  | None => s
  | Some l =>
      if negb (auto_on s) || guard l then s
      else
        let s1 := if Video.near_end r then fire (Listener i) s else s in
        if Video.ended r then fire (Listener i) s1 else s1
  end.

(** [onEnded] of the i-th listener, lines 213 to 217 *)
Definition onEnded (i : nat) (s : wstate) : wstate :=
  match nth_error (listeners s) i with
  | None => s
  | Some l =>
      if negb (auto_on s) || guard l then s
      else fire (Listener i) s
  end.

(** The handlers that an event of the element [v] runs, in the order in
    which they were added. *)
Definition hearing (v : nat) (s : wstate) : list nat :=
  filter (fun i => match nth_error (listeners s) i with
                   | Some l => bound l && (on_video l =? v)
                   | None => false
                   end)
         (seq 0 (length (listeners s))).

Definition dispatch (h : nat -> wstate -> wstate) (v : nat) (s : wstate)
  : wstate :=
  fold_left (fun st i => h i st) (hearing v s) s.

(** [attachNativeListener(video)], lines 188 to 229 *)
Definition attachNativeListener (v : nat) (s : wstate) : wstate :=
  if negb (auto_on s) then s
  else
    {| auto_on := auto_on s;
       current := Some (length (listeners s));
       listeners := on_current (release v) s
                    ++ [{| on_video := v; guard := false; bound := true;
                           polling := true |}];
       players := players s; configs := configs s; timers := timers s;
       asked := asked s; wlog := wlog s |}.

(** [tryWistiaApi], lines 231 to 263: the configuration is pushed. *)
Definition tryWistiaApi (s : wstate) : wstate :=
  {| auto_on := auto_on s; current := current s; listeners := listeners s;
     players := players s; configs := S (configs s); timers := timers s;
     asked := asked s; wlog := wlog s |}.

(** [setupVideoAutoAdvance], lines 265 to 286; without a video and
    without a player the observer is started, whose finds come as
    [Observed]. *)
Definition setupVideoAutoAdvance (found : option nat) (hasWistia : bool)
           (s : wstate) : wstate :=
  match found with
  | Some v => say (lit "Listening for video end") (attachNativeListener v s)
  | None => if hasWistia then say (lit "Using Wistia API") (tryWistiaApi s)
            else s
  end.

(** [onReady], lines 240 to 258: a closure with a guard of its own. *)
Definition onReady (s : wstate) : wstate :=
  if negb (auto_on s) then s
  else with_players (players s ++ [false]) s.

(** The handler bound to [timechange], lines 245 to 252 *)
Definition onTimechange (j : nat) (dur : Video.jsnum) (t : Q) (s : wstate)
  : wstate :=
  match nth_error (players s) j with
  | None => s
  | Some advanced =>
      if negb (auto_on s) || advanced then s
      else if near_end_at dur t then fire (Player j) s else s
  end.

(** The handler bound to [end], lines 253 to 257 *)
Definition onEnd (j : nat) (s : wstate) : wstate :=
  match nth_error (players s) j with
  | None => s
  | Some advanced =>
      if negb (auto_on s) || advanced then s
      else fire (Player j) s
  end.

Definition is_polling (i : nat) (s : wstate) : bool :=
  match nth_error (listeners s) i with
  | Some l => polling l
  | None => false
  end.

Definition step (e : wevent) (s : wstate) : wstate :=
  match e with
  | TimeUpdate v r => dispatch (fun i => checkTime i r) v s
  | Ended v => dispatch onEnded v s
  | Tick i r => if is_polling i s then checkTime i r s else s
  | TimerFires isVideoPage found hasWistia =>
      match timers s with
      | O => s
      | S n =>
          let s' := {| auto_on := auto_on s; current := current s;
                       listeners := listeners s; players := players s;
                       configs := configs s; timers := n;
                       asked := asked s; wlog := wlog s |} in
          if auto_on s && isVideoPage
          then setupVideoAutoAdvance found hasWistia s' else s'
      end
  | Setup found hasWistia => setupVideoAutoAdvance found hasWistia s
  | Observed v => attachNativeListener v s
  | SetEnabled b =>
      {| auto_on := b; current := current s; listeners := listeners s;
         players := players s; configs := configs s; timers := timers s;
         asked := asked s; wlog := wlog s |}
  | PlayerReady => match configs s with
                   | O => s
                   | S _ => onReady s
                   end
  | Timechange j dur t => onTimechange j dur t s
  | PlayerEnd j => onEnd j s
  end.

Definition run (es : list wevent) (s : wstate) : wstate :=
  fold_left (fun st e => step e st) es s.
End Page.

Definition is_go (a : wact) : bool :=
  match a with Go _ _ => true | _ => false end.

Definition is_go_by (who : closure_id) (a : wact) : bool :=
  match a with
  | Go w _ => closure_eqb w who
  | _ => false
  end.

Definition is_timer (a : wact) : bool :=
  match a with SetTimer => true | _ => false end.

Definition goes (s : wstate) : nat := length (filter is_go (wlog s)).
Definition goes_by (who : closure_id) (s : wstate) : nat :=
  length (filter (is_go_by who) (wlog s)).
Definition timers_set (s : wstate) : nat := length (filter is_timer (wlog s)).

(** The [advanced] of a closure, if the closure has been made. *)
Definition guard_of (s : wstate) (who : closure_id) : option bool :=
  match who with
  | Listener i => option_map guard (nth_error (listeners s) i)
  | Player j => nth_error (players s) j
  end.

(** What a handler can do

    A handler of the closure [who] leaves the flag, the other closures
    and their navigations as they are; it navigates at most [k] times,
    and only if the guard of [who] was down, which it then raises. *)
Definition handled (who : closure_id) (k : nat) (s s' : wstate) : Prop :=
  auto_on s' = auto_on s
  /\ configs s' = configs s
  /\ length (listeners s') = length (listeners s)
  /\ length (players s') = length (players s)
  /\ timers_set s' + goes s = timers_set s + goes s'
  /\ goes s <= goes s'
  /\ (forall who', who' <> who ->
                   guard_of s' who' = guard_of s who'
                   /\ goes_by who' s' = goes_by who' s)
  /\ goes_by who s <= goes_by who s'
  /\ ((s' = s)
      \/ (auto_on s = true /\ guard_of s who = Some false
          /\ guard_of s' who = Some true
          /\ goes_by who s' <= goes_by who s + k)).

(** The invariant: a closure has navigated only with its guard up,
    and no more often than its handlers can in one call. *)
Definition cap (b : nat) (who : closure_id) (g : option bool) : nat :=
  match g with
  | Some true => match who with Listener _ => b | Player _ => 1 end
  | _ => 0
  end.

Definition capped (b : nat) (s : wstate) : Prop :=
  forall who, goes_by who s <= cap b who (guard_of s who).

(** Each navigation sets one time-out, and the listeners are no more
    than the events that can attach one. *)
Definition counted (s0 s : wstate) (extra : nat) : Prop :=
  timers_set s + goes s0 = timers_set s0 + goes s
  /\ goes s0 <= goes s
  /\ length (listeners s) <= length (listeners s0) + extra.

(** An event whose reading meets both tests of [checkTime]. *)
Definition meets_both (e : wevent) : bool :=
  match e with
  | TimeUpdate _ r | Tick _ r => Video.near_end r && Video.ended r
  | _ => false
  end.

(** The events that can attach a listener. *)
Definition attaches (e : wevent) : bool :=
  match e with
  | TimerFires _ (Some _) _ | Setup (Some _) _ | Observed _ => true
  | _ => false
  end.

End Watchdog.

(** ** What the network gives back *)

Module Transport.
Import JsString Oracle Popup.

(** A value as [response.json()] resolves to it, and [undefined], which a
    read of a property can give.  A number is the value of its double. *)
#[local] Unset Elimination Schemes.
Inductive value : Type :=
| Undefined
| Null
| Boolean (b : bool)
| Number (q : Q)
| Str (s : jsstring)
| Arr (items : list value)
| Obj (fields : list (jsstring * value)).
#[local] Set Elimination Schemes.

Definition truthy_value (v : value) : bool :=
  match v with
  | Undefined | Null => false
  | Boolean b => b
  | Number q => negb (Qeq_bool q 0)
  | Str s => truthy s
  | Arr _ | Obj _ => true
  end.

Fixpoint field (name : jsstring) (fields : list (jsstring * value)) : value :=
  match fields with
  | [] => Undefined
  | (k, v) :: rest => if str_eqb k name then v else field name rest
  end.

(** [v.name] for a name that no prototype defines (choices, message,
    content, reasoning, error, data, id, owned_by): [None] is the
    TypeError of a read on [null] or [undefined]. *)
Definition prop (name : jsstring) (v : value) : option value :=
  match v with
  | Undefined | Null => None
  | Obj fields => Some (field name fields)
  | _ => Some Undefined
  end.

(** [v[0]] *)
Definition first (v : value) : option value :=
  match v with
  | Undefined | Null => None
  | Arr (x :: _) => Some x
  | Str (c :: _) => Some (Str [c])
  | Obj fields => Some (field (lit "0") fields)
  | _ => Some Undefined
  end.

(** [v?.name] and [v?.[0]] *)
Definition chain (read : value -> option value) (v : value) : value :=
  match read v with
  | Some x => x
  | None => Undefined
  end.

(** What [await fetch(...)] gives: the promise rejects, or it resolves
    to a response, whose body is JSON ([Some]) or not ([None]). *)
Inductive reply : Type :=
| Rejected
| Responded (ok : bool) (status : Z) (body : option value).

(** What an [async] function rejects with.  [Error m] is [new Error(m)],
    whose message is [String(m)]. *)
Inductive thrown : Type :=
| NetworkError
| SyntaxError
| TypeError
| Error (message : value).

Inductive settled (A : Type) : Type :=
| Rejects (e : thrown)
| Resolves (a : A).
Arguments Rejects {A} e.
Arguments Resolves {A} a.

(** The error of a response that is not ok, lines 368 to 371 of the
    content script and 15 to 18 of the popup: a body that is not JSON
    counts as [{}]. *)
Definition api_failure (status : Z) (body : option value) : thrown :=
  let err := match body with Some v => v | None => Obj [] end in
  match prop (lit "error") err with
  | None => TypeError
  | Some e =>
      let m := chain (prop (lit "message")) e in
      Error (if truthy_value m then m
             else Str (lit "API error: " ++ of_Z status))
  end.

(** [x || ''] where a method of strings is called on the result: [None]
    is the TypeError of the call on a value that has no such method. *)
Definition text_or_empty (x : value) : option jsstring :=
  if truthy_value x then
    match x with
    | Str s => Some s
    | _ => None
    end
  else Some [].

(** [choices?.[0]?.message || {}], line 374 *)
Definition message_of (choices : value) : value :=
  let m := chain (prop (lit "message")) (chain first choices) in
  if truthy_value m then m else Obj [].

(** [callGroqAPI], lines 347 to 383, from what [fetch] gives. *)
Definition callGroqAPI (fetch : request -> reply)
           (apiKey model question : jsstring) (answers : list jsstring)
  : settled (option Z) :=
  match fetch (make_request apiKey model question answers) with
  | Rejected => Rejects NetworkError
  | Responded ok status body =>
      if negb ok then Rejects (api_failure status body)
      else
        match body with
        | None => Rejects SyntaxError
        | Some data =>
            match prop (lit "choices") data with
            | None => Rejects TypeError
            | Some choices =>
                let msg := message_of choices in
                match text_or_empty (chain (prop (lit "content")) msg) with
                | None => Rejects TypeError
                | Some content =>
                    match text_or_empty
                            (chain (prop (lit "reasoning")) msg) with
                    | None => Rejects TypeError
                    | Some reasoning =>
                        Resolves (parse_answer (Some content) (Some reasoning)
                                               (length answers))
                    end
                end
            end
        end
  end.

Definition owner (m : value) : jsstring :=
  match chain (prop (lit "owned_by")) m with
  | Str s => s
  | _ => []
  end.

(** The callback of the filter on one element of the listing,
    [isChatModel(m.id)], line 20 of the popup: it reads [m.id] and calls
    [toLowerCase] on [id || ''].  [None] is its TypeError; otherwise the
    element is the record with its identifier. *)
Definition record_of (m : value) : option model :=
  match prop (lit "id") m with
  | None => None
  | Some i =>
      match i with
      | Str s => Some {| model_id := Some s; owned_by := owner m |}
      | _ => if truthy_value i then None
             else Some {| model_id := None; owned_by := owner m |}
      end
  end.

Fixpoint records (items : list value) : option (list model) :=
  match items with
  | [] => Some []
  | m :: rest =>
      match record_of m, records rest with
      | Some r, Some rs => Some (r :: rs)
      | _, _ => None
      end
  end.

(** [fetchModels], lines 11 to 22 of the popup, from what [fetch]
    gives. *)
Definition fetchModels
           (localeCompare : jsstring -> jsstring -> comparison) (r : reply)
  : settled (list model) :=
  match r with
  | Rejected => Rejects NetworkError
  | Responded ok status body =>
      if negb ok then Rejects (api_failure status body)
      else
        match body with
        | None => Rejects SyntaxError
        | Some data =>
            match prop (lit "data") data with
            | None => Rejects TypeError
            | Some d =>
                match (if truthy_value d then d else Arr []) with
                | Arr items =>
                    match records items with
                    | None => Rejects TypeError
                    | Some ms =>
                        Resolves
                          (Popup.sort localeCompare
                             (filter (fun m => isChatModel (model_id m)) ms))
                    end
                | _ => Rejects TypeError
                end
            end
        end
  end.

(** *** The replies that the records [response] and [listing] stand for *)

Definition text_value (s : option jsstring) : value :=
  match s with
  | Some x => Str x
  | None => Null
  end.

Definition reply_of (resp : response) : reply :=
  Responded (ok resp) (status resp)
    (Some (Obj [(lit "error",
                 Obj [(lit "message", text_value (err_message resp))]);
                (lit "choices",
                 Arr [Obj [(lit "message",
                            Obj [(lit "content", text_value (content resp));
                                 (lit "reasoning",
                                  text_value (reasoning resp))])]])])).

Definition model_value (m : model) : value :=
  Obj [(lit "id", text_value (model_id m)); (lit "owned_by", Str (owned_by m))].

Definition listing_value (ms : list model) : value :=
  Obj [(lit "data", Arr (map model_value ms))].

Definition reply_of_listing (res : listing) : reply :=
  Responded (res_ok res) (res_status res)
    (Some (Obj [(lit "error",
                 Obj [(lit "message", text_value (res_error res))]);
                (lit "data",
                 match data res with
                 | Some ms => Arr (map model_value ms)
                 | None => Null
                 end)])).

Definition lift (A : Type) (o : outcome A) : settled A :=
  match o with
  | Throw m => Rejects (Error (Str m))
  | Return a => Resolves a
  end.

(** A value on which a method of strings can be called after [|| '']. *)
Definition text_like (v : value) : Prop :=
  truthy_value v = false \/ exists s, v = Str s.

End Transport.

(* ================================================================== *)
(** * Part II: the theorems                                            *)
(* ================================================================== *)

Unset Implicit Arguments.

(** ** Characters and strings *)

Module JsStringFacts.
Import JsString.

Ltac bools :=
  repeat match goal with
         | H : _ && _ = true |- _ => apply andb_true_iff in H; destruct H
         | H : _ || _ = true |- _ => apply orb_true_iff in H; destruct H
         | H : _ && _ = false |- _ => apply andb_false_iff in H; destruct H
         | H : _ || _ = false |- _ => apply orb_false_iff in H; destruct H
         | H : (_ <=? _) = true |- _ => apply Nat.leb_le in H
         | H : (_ <=? _) = false |- _ => apply Nat.leb_gt in H
         | H : (_ =? _) = true |- _ => apply Nat.eqb_eq in H
         | H : (_ =? _) = false |- _ => apply Nat.eqb_neq in H
         end.

Lemma digit_is_word c : is_digit c = true -> is_word c = true.
Proof. unfold is_word. intros ->. reflexivity. Qed.

Lemma nonword_not_digit c : is_word c = false -> is_digit c = false.
Proof.
  intros H. destruct (is_digit c) eqn:E; [|reflexivity].
  apply digit_is_word in E. congruence.
Qed.

Lemma space_not_word c : is_space c = true -> is_word c = false.
Proof.
  unfold is_space, is_word, is_digit, is_upper, is_lower, between.
  intros H.
  destruct (48 <=? code c) eqn:E1, (code c <=? 57) eqn:E2,
           (65 <=? code c) eqn:E3, (code c <=? 90) eqn:E4,
           (97 <=? code c) eqn:E5, (code c <=? 122) eqn:E6,
           (code c =? 95) eqn:E7; simpl; try reflexivity;
    exfalso; bools; lia.
Qed.

Lemma takeWhile_dropWhile p s : takeWhile p s ++ dropWhile p s = s.
Proof.
  induction s as [|c s IH]; simpl; [reflexivity|].
  destruct (p c); simpl; [now rewrite IH|reflexivity].
Qed.

Lemma takeWhile_all p s : Forall (fun c => p c = true) (takeWhile p s).
Proof.
  induction s as [|c s IH]; simpl; [constructor|].
  destruct (p c) eqn:E; [constructor; assumption|constructor].
Qed.

(** What [trim] removes: white space in front and behind. *)
Lemma trim_decompose s :
  exists a b, s = a ++ trim s ++ b
              /\ Forall (fun c => is_space c = true) a
              /\ Forall (fun c => is_space c = true) b.
Proof.
  exists (takeWhile is_space s).
  exists (rev (takeWhile is_space (rev (trimStart s)))).
  split; [|split].
  - unfold trim, trimEnd.
    rewrite <- rev_app_distr, takeWhile_dropWhile, rev_involutive.
    unfold trimStart. now rewrite takeWhile_dropWhile.
  - apply takeWhile_all.
  - apply Forall_rev, takeWhile_all.
Qed.

Lemma startsWith_iff s k : startsWith s k = true <-> exists t, s = k ++ t.
Proof.
  revert s. induction k as [|a k IH]; intros s; simpl.
  - split; [exists s; reflexivity|reflexivity].
  - destruct s as [|c s]; simpl.
    + split; [discriminate|intros [t H]; discriminate].
    + rewrite andb_true_iff, IH. unfold ascii_eqb. rewrite Ascii.eqb_eq.
      split.
      * intros [-> [t ->]]. now exists t.
      * intros [t H]. injection H as -> ->. split; [reflexivity|now exists t].
Qed.

(** [includes] finds exactly the substrings. *)
Lemma includes_iff s k :
  includes s k = true <-> exists pre post, s = pre ++ k ++ post.
Proof.
  induction s as [|c s IH]; simpl.
  - rewrite orb_false_r. rewrite startsWith_iff. split.
    + intros [t H]. now exists [], t.
    + intros [pre [post H]]. destruct pre; simpl in H.
      * now exists post.
      * discriminate.
  - rewrite orb_true_iff, startsWith_iff, IH. split.
    + intros [[t H]|[pre [post H]]].
      * now exists [], t.
      * exists (c :: pre), post. simpl. now rewrite H.
    + intros [pre [post H]]. destruct pre as [|c' pre]; simpl in H.
      * left. now exists post.
      * right. injection H as _ H. now exists pre, post.
Qed.

End JsStringFacts.

(** ** The oracle parse *)

Module OracleFacts.
Import JsString Regex Oracle JsStringFacts.

Lemma nonzero_is_digit c : nonzero_digit c = true -> is_digit c = true.
Proof.
  unfold nonzero_digit, is_digit, between. intros H. bools.
  apply andb_true_iff; split; apply Nat.leb_le; lia.
Qed.

Lemma nonword_not_nonzero c : is_word c = false -> nonzero_digit c = false.
Proof.
  intros H. destruct (nonzero_digit c) eqn:E; [|reflexivity].
  apply nonzero_is_digit, digit_is_word in E. congruence.
Qed.

Lemma word_runs_nonword c s :
  is_word c = false -> word_runs (c :: s) = word_runs s.
Proof. intros H. simpl. now rewrite H. Qed.

(** A run starts at a word character and takes the word characters that
    follow. *)
Lemma word_runs_word c s :
  is_word c = true ->
  word_runs (c :: s)
  = (c :: takeWhile is_word s) :: word_runs (dropWhile is_word s).
Proof.
  revert c. induction s as [|d s IH]; intros c Hc.
  - simpl. now rewrite Hc.
  - change (word_runs (c :: d :: s))
      with (if is_word c then
              if is_word d then
                match word_runs (d :: s) with
                | r :: rs => (c :: r) :: rs
                | [] => [[c]]
                end
              else [c] :: word_runs (d :: s)
            else word_runs (d :: s)).
    rewrite Hc. simpl takeWhile. simpl dropWhile.
    destruct (is_word d) eqn:Hd.
    + now rewrite (IH d Hd).
    + reflexivity.
Qed.

Lemma word_runs_app c a b :
  is_word c = false ->
  word_runs (a ++ c :: b) = word_runs a ++ word_runs b.
Proof.
  intros Hc. induction a as [|x a IH].
  - simpl. now rewrite Hc.
  - destruct (is_word x) eqn:Hx.
    + destruct a as [|d a].
      * simpl. rewrite Hx, Hc. reflexivity.
      * change (word_runs ((x :: d :: a) ++ c :: b))
          with (if is_word x then
                  if is_word d then
                    match word_runs ((d :: a) ++ c :: b) with
                    | r :: rs => (x :: r) :: rs
                    | [] => [[x]]
                    end
                  else [x] :: word_runs ((d :: a) ++ c :: b)
                else word_runs ((d :: a) ++ c :: b)).
        change (word_runs (x :: d :: a))
          with (if is_word x then
                  if is_word d then
                    match word_runs (d :: a) with
                    | r :: rs => (x :: r) :: rs
                    | [] => [[x]]
                    end
                  else [x] :: word_runs (d :: a)
                else word_runs (d :: a)).
        rewrite Hx, IH. destruct (is_word d) eqn:Hd.
        -- rewrite (word_runs_word d a Hd). reflexivity.
        -- reflexivity.
    + rewrite <- app_comm_cons, !word_runs_nonword by assumption. exact IH.
Qed.

Lemma word_runs_spaces_l a s :
  Forall (fun c => is_space c = true) a -> word_runs (a ++ s) = word_runs s.
Proof.
  induction 1 as [|c a Hc _ IH]; [reflexivity|].
  rewrite <- app_comm_cons, word_runs_nonword; [exact IH|].
  now apply space_not_word.
Qed.

Lemma word_runs_spaces_r s b :
  Forall (fun c => is_space c = true) b -> word_runs (s ++ b) = word_runs s.
Proof.
  intros H. revert s. induction H as [|c b Hc _ IH]; intros s.
  - now rewrite app_nil_r.
  - rewrite word_runs_app by now apply space_not_word.
    specialize (IH []). simpl in IH. rewrite IH. apply app_nil_r.
Qed.

(** Trimming loses no token. *)
Lemma word_runs_trim s : word_runs (trim s) = word_runs s.
Proof.
  destruct (trim_decompose s) as [a [b [E [Ha Hb]]]].
  rewrite E at 2.
  rewrite word_runs_spaces_l by assumption.
  now rewrite word_runs_spaces_r by assumption.
Qed.

(** The tokens of the string that is searched are the tokens of the
    content followed by the tokens of the reasoning. *)
Lemma word_runs_combined c r :
  word_runs (combined c r)
  = word_runs (or_str c []) ++ word_runs (or_str r []).
Proof.
  unfold combined. change (lit " ") with [" "%char].
  change ([" "%char] ++ trim (or_str r [])) with (" "%char :: trim (or_str r [])).
  rewrite word_runs_app by reflexivity.
  now rewrite !word_runs_trim.
Qed.

Lemma matched_1 c s : matched (c :: s) s = [c].
Proof.
  unfold matched. replace (length (c :: s) - length s) with 1 by (cbn [length]; lia).
  reflexivity.
Qed.

Lemma matched_2 c d s : matched (c :: d :: s) s = [c; d].
Proof.
  unfold matched.
  replace (length (c :: d :: s) - length s) with 2 by (cbn [length]; lia).
  reflexivity.
Qed.

(** One attempt of [/\b([1-9]\d?)\b/] at a position, by cases: the
    two-digit match is tried first, then the one-digit match. *)
Lemma answer_here prev s :
  match_here answer_re prev s =
  match s with
  | c :: s' =>
      if xorb (word_opt prev) (is_word c) && nonzero_digit c then
        match s' with
        | d :: s'' =>
            if is_digit d && negb (word_opt (hd_error s'')) then Some s''
            else if negb (is_word d) then Some s' else None
        | [] => Some []
        end
      else None
  | [] => None
  end.
Proof.
  unfold match_here, answer_re. cbn [mre].
  destruct s as [|c s']; cbn [hd_error word_opt].
  - destruct (xorb (word_opt prev) false); reflexivity.
  - destruct (xorb (word_opt prev) (is_word c)); [|reflexivity].
    destruct (nonzero_digit c) eqn:Hc; [|reflexivity].
    cbn [andb].
    assert (Wc : is_word c = true) by now apply digit_is_word, nonzero_is_digit.
    destruct s' as [|d s'']; cbn [hd_error word_opt].
    + rewrite Wc. reflexivity.
    + rewrite Wc. destruct (is_digit d) eqn:Hd; cbn [andb].
      * rewrite (digit_is_word d Hd). cbn [xorb negb].
        destruct (word_opt (hd_error s'')); reflexivity.
      * destruct (is_word d); reflexivity.
Qed.

Lemma matchAll_from_nil fuel prev : matchAll_from fuel answer_re prev [] = [].
Proof. destruct fuel; [reflexivity|]. cbn [matchAll_from]. now rewrite answer_here. Qed.

Lemma dropWhile_head_nonword s :
  word_opt (hd_error s) = false -> dropWhile is_word s = s.
Proof. destruct s as [|c s]; simpl; [reflexivity|]. now intros ->. Qed.

Lemma takeWhile_head_nonword s :
  word_opt (hd_error s) = false -> takeWhile is_word s = [].
Proof. destruct s as [|c s]; simpl; [reflexivity|]. now intros ->. Qed.

(** The matches of the regular expression are the tokens of one or two
    digits that do not start with 0, from left to right. *)
Lemma matchAll_from_tokens fuel :
  forall s prev, length s < fuel ->
  matchAll_from fuel answer_re prev s = tokens_after prev s.
Proof.
  induction fuel as [|fuel IH]; intros s prev Hlen; [lia|].
  cbn [matchAll_from]. rewrite answer_here. unfold tokens_after.
  destruct s as [|c s']; [destruct (word_opt prev); reflexivity|].
  simpl in Hlen.
  assert (Hadv : matchAll_from fuel answer_re (Some c) s' = tokens_after (Some c) s')
    by (apply IH; lia).
  unfold tokens_after in Hadv. cbn [word_opt] in Hadv.
  destruct (word_opt prev) eqn:Wp; destruct (is_word c) eqn:Wc;
    cbn [xorb andb dropWhile]; rewrite ?Wc.
  - (* inside a token *) exact Hadv.
  - (* the token before has ended *)
    rewrite (nonword_not_nonzero c Wc). cbn [andb].
    rewrite Hadv. now rewrite word_runs_nonword.
  - (* a token starts here *)
    rewrite (word_runs_word c s' Wc). cbn [filter].
    destruct (nonzero_digit c) eqn:Nc.
    + destruct s' as [|d s''].
      * cbn [takeWhile dropWhile word_runs filter small_numeral].
        rewrite Nc, matched_1. cbn [last_unit rev app].
        now rewrite matchAll_from_nil.
      * simpl in Hlen.
        destruct (is_digit d) eqn:Dd.
        -- pose proof (digit_is_word d Dd) as Wd.
           cbn [takeWhile dropWhile]. rewrite Wd.
           destruct (word_opt (hd_error s'')) eqn:Wn; cbn [andb negb].
           ++ (* three word characters or more: no match *)
              rewrite Hadv. cbn [dropWhile]. rewrite Wd.
              destruct s'' as [|e s3]; [discriminate|].
              cbn [hd_error word_opt] in Wn. cbn [takeWhile]. rewrite Wn.
              cbn [small_numeral]. reflexivity.
           ++ (* two digits *)
              rewrite matched_2. cbn [last_unit rev app].
              rewrite (takeWhile_head_nonword s'' Wn).
              cbn [small_numeral]. rewrite Nc, Dd. cbn [andb].
              rewrite (IH s'' (Some d)) by lia.
              unfold tokens_after. cbn [word_opt]. rewrite Wd. reflexivity.
        -- cbn [andb]. destruct (is_word d) eqn:Wd; cbn [negb].
           ++ (* a letter follows the digit: no match *)
              rewrite Hadv. cbn [takeWhile dropWhile]. rewrite Wd.
              destruct (takeWhile is_word s'');
                cbn [small_numeral]; rewrite ?Dd, ?andb_false_r; reflexivity.
           ++ (* one digit *)
              rewrite matched_1. cbn [last_unit rev app].
              cbn [takeWhile dropWhile]. rewrite Wd.
              cbn [small_numeral]. rewrite Nc.
              rewrite (IH (d :: s'') (Some c)) by (simpl; lia).
              unfold tokens_after. cbn [word_opt]. rewrite Wc.
              cbn [dropWhile]. rewrite Wd. reflexivity.
    + cbn [andb]. rewrite Hadv.
      destruct (takeWhile is_word s') as [|x [|y l]];
        cbn [small_numeral]; rewrite ?Nc; reflexivity.
  - (* between tokens *)
    rewrite Hadv. now rewrite word_runs_nonword.
Qed.

Lemma matchAll_answer s :
  matchAll answer_re s = filter small_numeral (word_runs s).
Proof.
  unfold matchAll. rewrite matchAll_from_tokens by lia. reflexivity.
Qed.

Lemma small_numeral_parseInt t :
  small_numeral t = true -> parseInt10 t = Some (digits_val 0 t).
Proof.
  assert (F : forall a, nonzero_digit a = true ->
                        is_space a = false /\ (code a =? 45) = false
                        /\ (code a =? 43) = false /\ is_digit a = true).
  { intros a H. pose proof (nonzero_is_digit a H) as D.
    unfold nonzero_digit, between in H. bools.
    unfold is_space, between.
    repeat split; try assumption;
      repeat (apply orb_false_iff; split); try apply andb_false_iff;
      try (apply Nat.eqb_neq; lia).
    right. apply Nat.leb_gt. lia. }
  destruct t as [|a [|b [|x t]]]; cbn [small_numeral]; try discriminate.
  - intros H. destruct (F a H) as [S [M [P D]]].
    unfold parseInt10, trimStart. cbn [dropWhile]. rewrite S, M, P.
    cbn [takeWhile]. rewrite D. reflexivity.
  - intros H. apply andb_true_iff in H. destruct H as [H Hb].
    destruct (F a H) as [S [M [P D]]].
    unfold parseInt10, trimStart. cbn [dropWhile]. rewrite S, M, P.
    cbn [takeWhile]. rewrite D, Hb. reflexivity.
Qed.

Lemma map_parseInt_small l :
  map parseInt10 (filter small_numeral l)
  = map (fun t => Some (digits_val 0 t)) (filter small_numeral l).
Proof.
  apply map_ext_in. intros t Ht. apply filter_In in Ht.
  now apply small_numeral_parseInt.
Qed.

Lemma filter_in_choices N l :
  filter (in_choices N) (map (@Some Z) l) = map (@Some Z) (filter (within N) l).
Proof.
  induction l as [|z l IH]; [reflexivity|].
  cbn [map filter in_choices]. fold (within N z).
  destruct (within N z); cbn [map]; now rewrite IH.
Qed.

Lemma last_opt_map_Some (l : list Z) :
  match last_opt (map (@Some Z) l) with
  | Some (Some n) => Some n
  | _ => None
  end = last_opt l.
Proof.
  unfold last_opt. rewrite <- map_rev. destruct (rev l); reflexivity.
Qed.

Lemma last_opt_None (A : Type) (l : list A) : last_opt l = None <-> l = [].
Proof.
  unfold last_opt. split.
  - intros H. destruct (rev l) eqn:E; [|discriminate].
    apply (f_equal (@rev A)) in E. now rewrite rev_involutive in E.
  - intros ->. reflexivity.
Qed.

Lemma filter_nil_iff (A : Type) (f : A -> bool) (l : list A) :
  filter f l = [] <-> forall x, In x l -> f x = false.
Proof.
  induction l as [|a l IH]; cbn [filter].
  - split; [intros _ x []|reflexivity].
  - destruct (f a) eqn:E.
    + split; [discriminate|]. intros H. specialize (H a (or_introl eq_refl)).
      congruence.
    + rewrite IH. split.
      * intros H x [<-|Hx]; [assumption|now apply H].
      * intros H x Hx. apply H. now right.
Qed.

(** The parse, in terms of tokens. *)
Lemma parse_answer_tokens c r N :
  parse_answer c r N = last_small_numeral (or_str c []) (or_str r []) N.
Proof.
  unfold parse_answer, last_small_numeral.
  rewrite matchAll_answer, map_parseInt_small, word_runs_combined.
  rewrite <- (map_map (digits_val 0) (@Some Z)), filter_in_choices.
  apply last_opt_map_Some.
Qed.

(** C1 (as amended).  For every answered request, [callGroqAPI] returns
    the last token of one or two decimal digits with a first digit other
    than 0 (a maximal run of word characters of that shape) whose value
    lies in [1, N], looking through the content and then the reasoning,
    and it returns null exactly when neither holds such a token.  Content
    "1 or maybe 2" with three choices gives 2, and an empty content with
    the reasoning "...final answer is 2..." gives 2. *)
Theorem callGroqAPI_last_small_numeral :
  forall fetch apiKey model question answers,
    ok (fetch (make_request apiKey model question answers)) = true ->
    let resp := fetch (make_request apiKey model question answers) in
    let c := or_str (content resp) [] in
    let r := or_str (reasoning resp) [] in
    let N := length answers in
    callGroqAPI fetch apiKey model question answers
    = Return (last_small_numeral c r N)
    /\ (last_small_numeral c r N = None <->
        forall t, In t (word_runs c ++ word_runs r) ->
                  small_numeral t = true -> within N (digits_val 0 t) = false)
    /\ callGroqAPI (fun _ => ok_response (Some (lit "1 or maybe 2")) None)
                   apiKey model question [lit "a"; lit "b"; lit "c"]
       = Return (Some 2%Z)
    /\ callGroqAPI (fun _ => ok_response (Some [])
                               (Some (lit "...final answer is 2...")))
                   apiKey model question [lit "a"; lit "b"; lit "c"]
       = Return (Some 2%Z).
Proof.
  intros fetch apiKey model question answers Hok resp c r N.
  split; [|split; [|split]].
  - unfold callGroqAPI. fold resp. subst resp. rewrite Hok. cbn [negb].
    now rewrite parse_answer_tokens.
  - unfold last_small_numeral. rewrite last_opt_None, filter_nil_iff. split.
    + intros H t Ht Hs. apply H. apply in_map. apply filter_In. now split.
    + intros H z Hz. apply in_map_iff in Hz. destruct Hz as [t [<- Ht]].
      apply filter_In in Ht. destruct Ht as [Ht Hs]. now apply H.
  - unfold callGroqAPI. cbn [ok ok_response negb content reasoning].
    f_equal.
  - unfold callGroqAPI. cbn [ok ok_response negb content reasoning].
    f_equal.
Qed.

Lemma callGroqAPI_last_small_numeral_witness :
  callGroqAPI (fun _ => ok_response (Some (lit "3 no, 2")) None)
              (lit "key") [] (lit "Q") [lit "a"; lit "b"]
  = Return (Some 2%Z).
Proof.
  pose proof (callGroqAPI_last_small_numeral
                (fun _ => ok_response (Some (lit "3 no, 2")) None)
                (lit "key") [] (lit "Q") [lit "a"; lit "b"] eq_refl) as H.
  cbv zeta in H. destruct H as [H _]. rewrite H. vm_compute. reflexivity.
Defined.

(** C1 as the specification words it fails: with 100 choices and the
    content "100", the integer token 100 lies in [1, 100], and the parse
    returns null, a token of three digits never being matched. *)
Lemma callGroqAPI_integer_token_counterexample :
  let resp := ok_response (Some (lit "100")) None in
  let answers := repeat (lit "x") 100 in
  callGroqAPI (fun _ => resp) (lit "key") [] (lit "Q") answers = Return None
  /\ spec_last_integer_token (combined (content resp) (reasoning resp))
                             (length answers) = Some 100%Z.
Proof. split; vm_compute; reflexivity. Qed.

End OracleFacts.

(** ** The DOM *)

Module DomFacts.
Import JsString Dom JsStringFacts.

Lemma elems_Elem p par bef t a sh ch :
  elems p par bef (Elem t a sh ch)
  = {| loc := p; parent := par; prevs := bef; self := Elem t a sh ch |}
    :: elems_of Child p (Some (Elem t a sh ch)) 0 [] ch.
Proof.
  cbn [elems]. f_equal.
  match goal with
  | |- ?f 0 [] ch = _ =>
      assert (G : forall l i b,
                 f i b l = elems_of Child p (Some (Elem t a sh ch)) i b l)
  end.
  { induction l as [|x xs IH]; intros i b; [reflexivity|].
    cbn [elems_of]. now rewrite <- IH. }
  apply G.
Qed.

Lemma textContent_Elem t a sh ch :
  textContent (Elem t a sh ch) = text_of_list ch.
Proof.
  cbn [textContent]. induction ch as [|x xs IH]; [reflexivity|].
  cbn [text_of_list]. now rewrite <- IH.
Qed.

Lemma str_eqb_eq a b : str_eqb a b = true <-> a = b.
Proof.
  unfold str_eqb. rewrite andb_true_iff, Nat.eqb_eq, startsWith_iff. split.
  - intros [L [t E]]. subst a. rewrite length_app in L.
    destruct t; [now rewrite app_nil_r|simpl in L; lia].
  - intros ->. split; [reflexivity|]. exists []. now rewrite app_nil_r.
Qed.

Lemma str_eqb_neq a b : str_eqb a b = false <-> a <> b.
Proof.
  rewrite <- str_eqb_eq. destruct (str_eqb a b); split; congruence.
Qed.

(** Taking an attribute off leaves the other attributes as they are. *)
Lemma lookup_attr_strip a b l :
  a <> b ->
  lookup_attr b (filter (fun kv => negb (str_eqb (fst kv) a)) l)
  = lookup_attr b l.
Proof.
  intros Hab. induction l as [|[k v] l IH]; [reflexivity|].
  cbn [filter fst lookup_attr].
  destruct (str_eqb k a) eqn:Ea; cbn [negb lookup_attr].
  - apply str_eqb_eq in Ea. subst k.
    destruct (str_eqb a b) eqn:Eb; [apply str_eqb_eq in Eb; contradiction|].
    exact IH.
  - destruct (str_eqb k b); [reflexivity|exact IH].
Qed.

Lemma getAttribute_strip a b n :
  a <> b -> getAttribute (strip_attr a n) b = getAttribute n b.
Proof.
  intros H. destruct n; [reflexivity|].
  unfold getAttribute. cbn [strip_attr attributes]. now apply lookup_attr_strip.
Qed.

Lemma hasAttribute_strip a b n :
  a <> b -> hasAttribute (strip_attr a n) b = hasAttribute n b.
Proof. intros H. unfold hasAttribute. now rewrite getAttribute_strip. Qed.

Lemma tagName_strip a n : tagName (strip_attr a n) = tagName n.
Proof. destruct n; reflexivity. Qed.

Lemma is_elem_strip a n : is_elem (strip_attr a n) = is_elem n.
Proof. destruct n; reflexivity. Qed.

Lemma textContent_strip a n : textContent (strip_attr a n) = textContent n.
Proof.
  induction n as [s|t at' sh ch _ IH] using node_ind'; [reflexivity|].
  cbn [strip_attr]. rewrite !textContent_Elem.
  induction IH as [|x xs Hx _ IHxs]; [reflexivity|].
  cbn [map text_of_list]. now rewrite Hx, IHxs.
Qed.

Lemma before_next_strip a x bef :
  before_next (strip_attr a x) (map (strip_attr a) bef)
  = map (strip_attr a) (before_next x bef).
Proof. unfold before_next. rewrite is_elem_strip. now destruct (is_elem x). Qed.

Lemma elems_of_strip a mk l :
  Forall (fun x => forall p par bef,
              elems p (option_map (strip_attr a) par)
                    (map (strip_attr a) bef) (strip_attr a x)
              = map (strip_element a) (elems p par bef x)) l ->
  forall p par i bef,
    elems_of mk p (option_map (strip_attr a) par) i
             (map (strip_attr a) bef) (map (strip_attr a) l)
    = map (strip_element a) (elems_of mk p par i bef l).
Proof.
  induction 1 as [|x xs Hx _ IH]; intros p par i bef; [reflexivity|].
  cbn [map elems_of]. rewrite map_app, Hx, before_next_strip, IH. reflexivity.
Qed.

Lemma elems_strip a n :
  forall p par bef,
    elems p (option_map (strip_attr a) par)
          (map (strip_attr a) bef) (strip_attr a n)
    = map (strip_element a) (elems p par bef n).
Proof.
  induction n as [s|t at' sh ch _ IH] using node_ind'; intros p par bef;
    [reflexivity|].
  cbn [strip_attr]. rewrite !elems_Elem. cbn [map]. f_equal.
  apply (elems_of_strip a Child ch IH p (Some (Elem t at' sh ch)) 0 []).
Qed.

Lemma descendants_strip a d :
  descendants (RDoc (strip_document a d))
  = map (strip_element a) (descendants (RDoc d)).
Proof.
  unfold descendants, strip_document.
  apply (elems_of_strip a Child d) with (par := None) (bef := []).
  apply Forall_forall. intros x _. apply elems_strip.
Qed.

Lemma filter_map_comm (A B : Type) (f : B -> bool) (g : A -> B) l :
  filter f (map g l) = map g (filter (fun x => f (g x)) l).
Proof.
  induction l as [|x l IH]; [reflexivity|].
  cbn [map filter]. destruct (f (g x)); cbn [map]; now rewrite IH.
Qed.

Lemma find_map_comm (A B : Type) (f : B -> bool) (g : A -> B) l :
  find f (map g l) = option_map g (find (fun x => f (g x)) l).
Proof.
  induction l as [|x l IH]; [reflexivity|].
  cbn [map find]. destruct (f (g x)); [reflexivity|exact IH].
Qed.

(** *** Handles are positions: no two elements share one *)

Lemma elems_of_placed mk l :
  (forall i j, mk i = mk j -> i = j) ->
  Forall well_placed l ->
  forall p par i bef,
    NoDup (map loc (elems_of mk p par i bef l))
    /\ forall e, In e (elems_of mk p par i bef l) ->
                 exists j q, i <= j /\ loc e = p ++ mk j :: q.
Proof.
  intros Hinj. induction 1 as [|x xs Hx _ IH]; intros p par i bef.
  - split; [constructor|intros e []].
  - cbn [elems_of].
    destruct (Hx (p ++ [mk i]) par bef) as [N1 P1].
    destruct (IH p par (S i) (before_next x bef)) as [N2 P2].
    split.
    + rewrite map_app. apply NoDup_app; [assumption|assumption|].
      intros h H1 H2.
      apply in_map_iff in H1. destruct H1 as [e1 [<- H1]].
      apply in_map_iff in H2. destruct H2 as [e2 [E H2]].
      destruct (P1 e1 H1) as [q1 E1]. destruct (P2 e2 H2) as [j [q2 [Hj E2]]].
      rewrite E1, E2, <- app_assoc in E. apply app_inv_head in E.
      cbn [app] in E. injection E as E _. apply Hinj in E. lia.
    + intros e He. apply in_app_or in He. destruct He as [He|He].
      * destruct (P1 e He) as [q E]. exists i, q. split; [lia|].
        now rewrite E, <- app_assoc.
      * destruct (P2 e He) as [j [q [Hj E]]]. exists j, q. split; [lia|exact E].
Qed.

Lemma child_inj i j : Child i = Child j -> i = j.
Proof. now injection 1. Qed.

Lemma shadow_inj i j : Shadow i = Shadow j -> i = j.
Proof. now injection 1. Qed.

Lemma all_well_placed n : well_placed n.
Proof.
  induction n as [s|t a sh ch _ IH] using node_ind'; intros p par bef.
  - split; [constructor|intros e []].
  - rewrite elems_Elem.
    destruct (elems_of_placed Child ch child_inj IH p
                              (Some (Elem t a sh ch)) 0 []) as [N P].
    split.
    + cbn [map loc]. constructor; [|exact N].
      intros H. apply in_map_iff in H. destruct H as [e [E He]].
      destruct (P e He) as [j [q [_ E']]]. rewrite E' in E.
      rewrite <- (app_nil_r p) in E at 2. apply app_inv_head in E. discriminate.
    + intros e [<-|He].
      * exists []. cbn [loc]. now rewrite app_nil_r.
      * destruct (P e He) as [j [q [_ E]]]. now exists (Child j :: q).
Qed.

Lemma descendants_NoDup r : NoDup (map loc (descendants r)).
Proof.
  destruct r as [d|e|h sr]; cbn [descendants].
  - apply (elems_of_placed Child d child_inj); apply Forall_forall;
      intros; apply all_well_placed.
  - apply (elems_of_placed Child (children_of (self e)) child_inj);
      apply Forall_forall; intros; apply all_well_placed.
  - apply (elems_of_placed Shadow sr shadow_inj); apply Forall_forall;
      intros; apply all_well_placed.
Qed.

Lemma NoDup_map_filter (A B : Type) (g : A -> B) (f : A -> bool) l :
  NoDup (map g l) -> NoDup (map g (filter f l)).
Proof.
  induction l as [|x l IH]; cbn [map filter]; [constructor|].
  intros H. apply NoDup_cons_iff in H. destruct H as [Hx Hl].
  destruct (f x); [|now apply IH].
  cbn [map]. constructor; [|now apply IH].
  intros Hin. apply Hx. apply in_map_iff in Hin. destruct Hin as [y [E Hy]].
  apply filter_In in Hy. apply in_map_iff. exists y. tauto.
Qed.

Lemma querySelectorAll_NoDup r s : NoDup (map loc (querySelectorAll r s)).
Proof. apply NoDup_map_filter, descendants_NoDup. Qed.

(** Two places of a [querySelectorAll] hold two different elements. *)
Lemma querySelectorAll_distinct r s i j x y :
  nth_error (querySelectorAll r s) i = Some x ->
  nth_error (querySelectorAll r s) j = Some y ->
  i <> j -> loc x <> loc y.
Proof.
  intros Hi Hj Hij E. apply Hij.
  pose proof (querySelectorAll_NoDup r s) as N.
  rewrite NoDup_nth_error in N. apply N.
  - rewrite length_map. apply nth_error_Some. congruence.
  - rewrite !nth_error_map, Hi, Hj. cbn [option_map]. now rewrite E.
Qed.

(** *** [findInDocument] *)

Lemma elems_of_is_elem mk l :
  Forall (fun x => forall p par bef e,
              In e (elems p par bef x) -> is_elem (self e) = true) l ->
  forall p par i bef e,
    In e (elems_of mk p par i bef l) -> is_elem (self e) = true.
Proof.
  induction 1 as [|x xs Hx _ IH]; intros p par i bef e He; [destruct He|].
  cbn [elems_of] in He. apply in_app_or in He. destruct He as [He|He].
  - eapply Hx. exact He.
  - eapply IH. exact He.
Qed.

Lemma elems_is_elem n :
  forall p par bef e, In e (elems p par bef n) -> is_elem (self e) = true.
Proof.
  induction n as [s|t a sh ch _ IH] using node_ind'; intros p par bef e He;
    [destruct He|].
  rewrite elems_Elem in He. destruct He as [<-|He]; [reflexivity|].
  eapply (elems_of_is_elem Child ch IH). exact He.
Qed.

Lemma descendants_is_elem r e :
  In e (descendants r) -> is_elem (self e) = true.
Proof.
  destruct r as [d|x|h sr]; cbn [descendants];
    apply elems_of_is_elem; apply Forall_forall; intros; eapply elems_is_elem;
    eassumption.
Qed.

Lemma querySelector_Some r s e :
  querySelector r s = Some e -> In e (descendants r) /\ matches s e = true.
Proof.
  unfold querySelector, querySelectorAll. intros H.
  apply filter_In. destruct (filter (matches s) (descendants r)) as [|x l] eqn:E;
    [discriminate|].
  injection H as ->. now left.
Qed.

Lemma querySelector_finds r s e :
  In e (descendants r) -> matches s e = true ->
  exists e', querySelector r s = Some e'.
Proof.
  intros He Hm. unfold querySelector, querySelectorAll.
  assert (I : In e (filter (matches s) (descendants r)))
    by (apply filter_In; now split).
  destruct (filter (matches s) (descendants r)); [destruct I|now eexists].
Qed.

Lemma first_some_Some (A B : Type) (f : A -> option B) l y :
  first_some f l = Some y -> exists x, In x l /\ f x = Some y.
Proof.
  induction l as [|x l IH]; [discriminate|]. cbn [first_some].
  destruct (f x) as [z|] eqn:E.
  - intros H. injection H as ->. exists x. split; [now left|exact E].
  - intros H. destruct (IH H) as [x' [I F]]. exists x'. split; [now right|exact F].
Qed.

Lemma first_some_finds (A B : Type) (f : A -> option B) l x z :
  In x l -> f x = Some z -> exists y, first_some f l = Some y.
Proof.
  induction l as [|a l IH]; intros I F; [destruct I|]. cbn [first_some].
  destruct (f a) as [y|] eqn:E; [now exists y|].
  destruct I as [->|I]; [congruence|now apply IH].
Qed.

(** What [findInDocument] returns matches the selector and is reachable
    from the root. *)
Lemma findInDocument_sound fuel :
  forall r s e,
    findInDocument fuel r s = Some e -> matches s e = true /\ reachable r e.
Proof.
  induction fuel as [|fuel IH]; intros r s e H; [discriminate|].
  cbn [findInDocument] in H.
  destruct (querySelector r s) as [el|] eqn:Q.
  - injection H as ->. apply querySelector_Some in Q.
    split; [tauto|apply reach_light; tauto].
  - apply first_some_Some in H. destruct H as [h [Hh F]].
    destruct (shadow_of (self h)) as [sr|] eqn:S; [|discriminate].
    destruct (IH _ _ _ F) as [M R]. split; [exact M|].
    apply (@reach_shadow r h sr e); [|exact S|exact R].
    unfold querySelectorAll in Hh. apply filter_In in Hh. tauto.
Qed.

(** Whatever matches somewhere under the root, in however deep a shadow
    tree, makes [findInDocument] return an element once its fuel covers
    the nesting. *)
Lemma findInDocument_complete r s e :
  reachable r e -> matches s e = true ->
  exists fuel0, forall fuel, fuel0 <= fuel ->
    exists e', findInDocument fuel r s = Some e'.
Proof.
  induction 1 as [r e He|r h sr e Hh Hsr _ IH]; intros M.
  - exists 1. intros fuel L. destruct fuel as [|fuel]; [lia|].
    cbn [findInDocument].
    destruct (querySelector_finds r s e He M) as [e' ->]. now exists e'.
  - destruct (IH M) as [fuel0 F]. exists (S fuel0). intros fuel L.
    destruct fuel as [|fuel]; [lia|]. cbn [findInDocument].
    destruct (querySelector r s) as [el|]; [now exists el|].
    destruct (F fuel ltac:(lia)) as [e' E'].
    apply (first_some_finds _ _ _ _ h e').
    + unfold querySelectorAll. apply filter_In. split; [exact Hh|].
      unfold matches, matches_compound. cbn [forallb].
      now rewrite (descendants_is_elem r h Hh).
    + now rewrite Hsr.
Qed.

End DomFacts.

(** ** The quiz *)

Module QuizFacts.
Import JsString Dom Oracle Quiz JsStringFacts DomFacts.

Lemma somes_one (A B : Type) (f : A -> option B) l :
  1 <= length (somes (map f l)) ->
  exists i x b, nth_error l i = Some x /\ f x = Some b.
Proof.
  induction l as [|x l IH]; cbn [map somes flat_map length]; [lia|].
  destruct (f x) as [b|] eqn:E.
  - intros _. now exists 0, x, b.
  - cbn [app]. intros H. destruct (IH H) as [i [y [b [Hi Hb]]]].
    now exists (S i), y, b.
Qed.

Lemma somes_two (A B : Type) (f : A -> option B) l :
  2 <= length (somes (map f l)) ->
  exists i j x y a b,
    i < j /\ nth_error l i = Some x /\ nth_error l j = Some y
    /\ f x = Some a /\ f y = Some b.
Proof.
  induction l as [|x l IH]; cbn [map somes flat_map length]; [lia|].
  destruct (f x) as [a|] eqn:E.
  - cbn [app length]. intros H.
    destruct (somes_one A B f l) as [j [y [b [Hj Hb]]]];
      [unfold somes; lia|].
    exists 0, (S j), x, y, a, b. repeat split; try assumption; lia.
  - cbn [app]. intros H.
    destruct (IH H) as [i [j [u [v [a [b [Hij [Hi [Hj [Ha Hb]]]]]]]]]].
    exists (S i), (S j), u, v, a, b. repeat split; try assumption; lia.
Qed.

Lemma matches_answerItems li :
  matches sel_answerItems li = true -> labelled_item li.
Proof.
  unfold matches, sel_answerItems, matches_compound, labelled_item.
  cbn [forallb matches_simple]. intros H.
  apply andb_true_iff in H. destruct H as [H1 H2].
  apply andb_true_iff in H1. destruct H1 as [_ H1].
  rewrite andb_true_r in H1. apply str_eqb_eq in H1. split; [exact H1|].
  destruct (parent li) as [ul|]; [|discriminate]. exists ul.
  apply andb_true_iff in H2. destruct H2 as [_ H2].
  apply andb_true_iff in H2. destruct H2 as [T H2].
  rewrite andb_true_r in H2. apply str_eqb_eq in T. now repeat split.
Qed.

Lemma item_button_below li b :
  item_button li = Some b ->
  In b (descendants (RElem li)) /\ plain_button b.
Proof.
  unfold item_button. intros H. apply querySelector_Some in H.
  destruct H as [Hin H]. split; [exact Hin|].
  unfold matches, sel_answerButton, matches_compound in H.
  cbn [forallb matches_simple] in H.
  apply andb_true_iff in H. destruct H as [_ H].
  apply andb_true_iff in H. destruct H as [T H].
  rewrite andb_true_r in H. apply str_eqb_eq in T. split; [exact T|].
  destruct (getAttribute (self b) (lit "type")) as [v|]; [|discriminate].
  exists v. split; [reflexivity|]. now apply str_eqb_eq in H.
Qed.




(** An answer comes from an item with a button, so there are at least as
    many buttons as answers. *)
Lemma item_label_button li : truthy (item_label li) = true ->
                             exists b, item_button li = Some b.
Proof.
  unfold item_label. destruct (item_button li) as [b|]; [now exists b|].
  discriminate.
Qed.

Lemma labels_le_buttons items :
  length (filter truthy (map item_label items))
  <= length (somes (map item_button items)).
Proof.
  induction items as [|li items IH]; [reflexivity|].
  cbn [map filter somes flat_map].
  destruct (truthy (item_label li)) eqn:T.
  - destruct (item_label_button li T) as [b ->].
    cbn [app length]. unfold somes in IH. lia.
  - rewrite length_app. unfold somes in IH. lia.
Qed.

Lemma answers_le_buttons doc :
  length (getAnswers doc) <= length (getAnswerButtons doc).
Proof.
  unfold getAnswers, getAnswerButtons.
  destruct (answer_items doc); [apply labels_le_buttons|reflexivity].
Qed.

(** Where every item with a button has a label, answers and buttons go
    together place by place. *)
Lemma answers_buttons_aligned items :
  (forall li b, In li items -> item_button li = Some b ->
                truthy (item_label li) = true) ->
  filter truthy (map item_label items)
  = map item_label (filter (fun li => truthy (item_label li)) items)
  /\ somes (map item_button items)
     = somes (map item_button (filter (fun li => truthy (item_label li)) items))
  /\ length (filter truthy (map item_label items))
     = length (somes (map item_button items)).
Proof.
  induction items as [|li items IH]; intros H; [repeat split|].
  destruct IH as [IH1 [IH2 IH3]];
    [intros x b Hx; apply H; now right|].
  cbn [map filter somes flat_map].
  destruct (truthy (item_label li)) eqn:T.
  - destruct (item_label_button li T) as [b Hb].
    cbn [map somes flat_map]. rewrite Hb. cbn [app length].
    unfold somes in *. rewrite IH1, <- IH2, <- IH3, <- IH1. repeat split.
  - destruct (item_button li) as [b|] eqn:Hb.
    + rewrite (H li b (or_introl eq_refl) Hb) in T. discriminate.
    + cbn [app]. unfold somes in *. now rewrite IH1, <- IH2, <- IH3, <- IH1.
Qed.

(** C8, the code at a failing input.  On the page whose first answer is
    a picture, [getAnswers] returns the one label "Paris" and
    [getAnswerButtons] the two buttons: the sequences differ in length,
    the first button belongs to the item without a label and the label
    "Paris" to the item of the second button, and an oracle that answers
    1, for "Paris", has the button of the picture clicked. *)
Theorem getAnswers_getAnswerButtons_misaligned :
  let doc := Samples.picture_quiz in
  let first := [Child 0; Child 1; Child 0; Child 2; Child 0] in
  let second := [Child 0; Child 1; Child 0; Child 2; Child 1] in
  getAnswers doc = [lit "Paris"]
  /\ map loc (getAnswerButtons doc) = [first ++ [Child 0]; second ++ [Child 0]]
  /\ option_map (map (fun li => (loc li, item_label li))) (answer_items doc)
     = Some [(first, []); (second, lit "Paris")]
  /\ solveCurrentQuestion Samples.no_innerText
                          (fun _ _ _ _ => Return (Some 1%Z)) doc None (lit "key")
     = ([first ++ [Child 0]], Return (Success 1)).
Proof. repeat split; vm_compute; reflexivity. Qed.

Lemma nth_error_in_range (A : Type) (l : list A) (k : Z) :
  (1 <= k <= Z.of_nat (length l))%Z ->
  exists x, nth_error l (Z.to_nat (k - 1)) = Some x.
Proof.
  intros H. destruct (nth_error l (Z.to_nat (k - 1))) eqn:E; [now eexists|].
  apply nth_error_None in E. lia.
Qed.

(** C2.  On a page with a question, answers and M answer buttons, when
    the oracle returns an index k with 1 <= k <= M, [solveCurrentQuestion]
    clicks the k-th button, and nothing else, and reports success with
    the index k; when the oracle returns null or an index outside
    [1, M], it clicks nothing and reports the failure "Invalid API
    response". *)
Theorem solveCurrentQuestion_clicks_kth :
  forall innerText oracle doc stored apiKey r,
    let question := getQuestionText innerText doc in
    let answers := getAnswers doc in
    let buttons := getAnswerButtons doc in
    let M := Z.of_nat (length buttons) in
    let solved := solveCurrentQuestion innerText oracle doc stored apiKey in
    question <> [] -> answers <> [] ->
    oracle apiKey (model_or_default stored) question answers = Return r ->
    (forall k, r = Some k -> (1 <= k <= M)%Z ->
               exists b, nth_error buttons (Z.to_nat (k - 1)) = Some b
                         /\ solved = ([loc b], Return (Success k)))
    /\ (r = None \/ (exists k, r = Some k /\ (k < 1 \/ M < k)%Z) ->
        solved = ([], Return (Failure (invalid_response r)))).
Proof.
  intros innerText oracle doc stored apiKey r question answers buttons M solved
         Hq Ha Hr.
  assert (Hb : length buttons <> 0).
  { pose proof (answers_le_buttons doc) as L. fold answers buttons in L.
    destruct answers; [contradiction|]. cbn [length] in L. lia. }
  assert (Hex : solve_extract innerText doc
                = inl {| ex_question := question; ex_answers := answers;
                         ex_buttons := buttons |}).
  { unfold solve_extract. fold question answers buttons.
    destruct question; [contradiction|]. destruct answers; [contradiction|].
    destruct buttons; [contradiction|]. reflexivity. }
  subst solved. unfold solveCurrentQuestion. rewrite Hex.
  cbn [ex_question ex_answers ex_buttons]. rewrite Hr. split.
  - intros k -> Hk.
    destruct (nth_error_in_range _ buttons k Hk) as [b Eb].
    exists b. split; [exact Eb|].
    unfold solve_finish. fold M.
    replace (k <? 1)%Z with false by (symmetry; apply Z.ltb_ge; lia).
    replace (M <? k)%Z with false by (symmetry; apply Z.ltb_ge; lia).
    cbn [orb]. now rewrite Eb.
  - intros [->|[k [-> Hk]]]; [reflexivity|].
    unfold solve_finish. fold M.
    destruct Hk as [Hk|Hk].
    + replace (k <? 1)%Z with true by (symmetry; apply Z.ltb_lt; lia).
      reflexivity.
    + replace (M <? k)%Z with true by (symmetry; apply Z.ltb_lt; lia).
      now rewrite orb_true_r.
Qed.

Lemma solveCurrentQuestion_clicks_kth_witness :
  solveCurrentQuestion Samples.no_innerText (fun _ _ _ _ => Return (Some 2%Z))
                       Samples.quiz None (lit "key")
  = ([[Child 0; Child 1; Child 0; Child 2; Child 1; Child 0]],
     Return (Success 2)).
Proof.
  destruct (solveCurrentQuestion_clicks_kth
              Samples.no_innerText (fun _ _ _ _ => Return (Some 2%Z))
              Samples.quiz None (lit "key") (Some 2%Z)) as [H _].
  - vm_compute. discriminate.
  - vm_compute. discriminate.
  - reflexivity.
  - destruct (H 2%Z eq_refl) as [b [Eb ->]].
    + vm_compute. split; discriminate.
    + vm_compute in Eb. injection Eb as <-. reflexivity.
Defined.

Lemma querySelector_None r s :
  (forall e, In e (descendants r) -> matches s e = false) ->
  querySelector r s = None.
Proof.
  intros H. unfold querySelector, querySelectorAll.
  replace (filter (matches s) (descendants r)) with (@nil element);
    [reflexivity|].
  symmetry. now apply OracleFacts.filter_nil_iff.
Qed.

(** C6 (as amended).  The quiz extraction searches the light DOM only.
    On a document in which no element outside the shadow trees is a
    labelled list, as when the answer list lives inside a shadow tree,
    [getAnswers] and [getAnswerButtons] return the empty sequence, the
    page is not classified as a quiz and a solve attempt fails with
    "Could not extract question or answers" without a click; where no
    [article] lies outside the shadow trees either, [getQuestionText]
    returns the empty string.  The recursive descent is the one of
    [findInDocument], which does return a labelled list when there is
    one in a shadow tree, and which the quiz operations do not call. *)
Theorem quiz_extraction_light_dom_only :
  forall innerText doc,
    (forall e, In e (descendants (RDoc doc)) ->
               matches sel_answerList e = false) ->
    getAnswers doc = []
    /\ getAnswerButtons doc = []
    /\ isQuizPage doc = false
    /\ (forall oracle stored apiKey,
           solveCurrentQuestion innerText oracle doc stored apiKey
           = ([], Return (Failure could_not_extract)))
    /\ ((forall e, In e (descendants (RDoc doc)) ->
                   matches sel_article e = false) ->
        getQuestionText innerText doc = [])
    /\ (forall e, reachable (RDoc doc) e -> matches sel_answerList e = true ->
                  exists fuel e',
                    findInDocument fuel (RDoc doc) sel_answerList = Some e'
                    /\ matches sel_answerList e' = true
                    /\ reachable (RDoc doc) e').
Proof.
  intros innerText doc H.
  apply querySelector_None in H.
  assert (A : getAnswers doc = []) by (unfold getAnswers, answer_items; now rewrite H).
  assert (B : getAnswerButtons doc = [])
    by (unfold getAnswerButtons, answer_items; now rewrite H).
  split; [exact A|]. split; [exact B|]. split; [|split; [|split]].
  - unfold isQuizPage, answer_items. now rewrite H.
  - intros oracle stored apiKey. unfold solveCurrentQuestion, solve_extract.
    rewrite A, B. cbn [length Nat.eqb]. now rewrite orb_true_r.
  - intros H'. apply querySelector_None in H'.
    unfold getQuestionText. now rewrite H'.
  - intros e R M.
    destruct (findInDocument_complete (RDoc doc) sel_answerList e R M)
      as [fuel0 F].
    destruct (F fuel0 (Nat.le_refl _)) as [e' E'].
    exists fuel0, e'. split; [exact E'|].
    now apply (findInDocument_sound fuel0).
Qed.

Lemma quiz_extraction_light_dom_only_witness :
  getAnswers Samples.shadow_quiz = []
  /\ getAnswerButtons Samples.shadow_quiz = []
  /\ isQuizPage Samples.shadow_quiz = false.
Proof.
  destruct (quiz_extraction_light_dom_only Samples.no_innerText
                                           Samples.shadow_quiz)
    as [A [B [C _]]]; [|now repeat split].
  intros e He. vm_compute in He.
  repeat (destruct He as [<-|He]; [reflexivity|]). destruct He.
Defined.

(** C6 as the specification words it fails: the quiz of [Samples.quiz],
    put inside a shadow root, is reached by [findInDocument], and the
    extraction returns no question, no answer and no button, where on
    the same quiz in the light DOM it returns all three. *)
Lemma quiz_extraction_shadow_counterexample :
  option_map loc (findInDocument 2 (RDoc Samples.shadow_quiz) sel_answerList)
  = Some [Child 0; Child 1; Child 0; Shadow 0; Child 1; Child 0; Child 2]
  /\ getQuestionText Samples.no_innerText Samples.shadow_quiz = []
  /\ getAnswers Samples.shadow_quiz = []
  /\ getAnswerButtons Samples.shadow_quiz = []
  /\ getQuestionText Samples.no_innerText Samples.quiz
     = lit "What is the capital of France?"
  /\ getAnswers Samples.quiz = [lit "Rome"; lit "Paris"; lit "Oslo"]
  /\ length (getAnswerButtons Samples.quiz) = 3.
Proof. repeat split; vm_compute; reflexivity. Qed.

End QuizFacts.

(** ** The polls and the Run-All loop *)

Module RunAllFacts.
Import JsString Dom Oracle Quiz RunAll LoopCounts Latency JsStringFacts DomFacts.

Lemma poll_found ready w timeout start fuel :
  forall t btn,
    poll ready w timeout start fuel t = Some (Some btn) ->
    exists t', t <= t' /\ ready (page w t') = Some btn.
Proof.
  induction fuel as [|fuel IH]; intros t btn H; [discriminate|].
  cbn [poll] in H.
  destruct (now w t - start <? timeout)%Z; [|discriminate].
  destruct (ready (page w t)) as [b|] eqn:E.
  - injection H as <-. exists t. split; [lia|exact E].
  - destruct (IH (S t) btn H) as [t' [L R]]. exists t'. split; [lia|exact R].
Qed.

Lemma find_ext (A : Type) (f g : A -> bool) l :
  (forall x, f x = g x) -> find f l = find g l.
Proof.
  intros H. induction l as [|x l IH]; [reflexivity|].
  cbn [find]. now rewrite H, IH.
Qed.

Lemma nextButton_strip a d :
  nextButton (strip_document a d)
  = option_map (strip_element a) (nextButton d).
Proof.
  unfold nextButton, find_first, querySelectorAll.
  rewrite descendants_strip, filter_map_comm, find_map_comm.
  f_equal.
  rewrite (filter_ext _ (matches sel_button)).
  - apply find_ext. intros e. unfold text_of. cbn [strip_element self].
    now rewrite textContent_strip.
  - intros e. unfold matches, sel_button, matches_compound.
    cbn [strip_element self forallb matches_simple].
    now rewrite is_elem_strip, tagName_strip.
Qed.

Lemma aria_disabled_not_disabled : aria_disabled <> lit "disabled".
Proof. discriminate. Qed.

(** The test of the Next poll does not see [aria-disabled]. *)
Lemma next_ready_strip d :
  option_map loc (next_ready (strip_document aria_disabled d))
  = option_map loc (next_ready d).
Proof.
  unfold next_ready. rewrite nextButton_strip.
  destruct (nextButton d) as [btn|]; [|reflexivity].
  cbn [option_map strip_element self]. unfold disabled.
  rewrite hasAttribute_strip by apply aria_disabled_not_disabled.
  destruct (hasAttribute (self btn) (lit "disabled")); reflexivity.
Qed.

Lemma poll_next_strip w w' timeout start fuel :
  (forall t, now w t = now w' t) ->
  (forall t, strip_document aria_disabled (page w t)
             = strip_document aria_disabled (page w' t)) ->
  forall t,
    option_map (option_map loc) (poll next_ready w timeout start fuel t)
    = option_map (option_map loc) (poll next_ready w' timeout start fuel t).
Proof.
  intros Hn Hp. induction fuel as [|fuel IH]; intros t; [reflexivity|].
  cbn [poll]. rewrite <- Hn.
  destruct (now w t - start <? timeout)%Z; [|reflexivity].
  pose proof (next_ready_strip (page w t)) as E1.
  pose proof (next_ready_strip (page w' t)) as E2.
  rewrite Hp, E2 in E1.
  destruct (next_ready (page w t)), (next_ready (page w' t));
    cbn [option_map] in *; try discriminate; [congruence|apply IH].
Qed.

(** C10.  The poll for the Check Answer control returns a button only if
    the button has no [aria-disabled] attribute at all, so that a button
    with [aria-disabled="false"] is never returned; the poll for the Next
    control returns a button only if its [disabled] property is false,
    and it returns the same button at the same time whatever the
    [aria-disabled] attributes of the page are. *)
Theorem polls_and_aria_disabled :
  (forall w timeout fuel t btn,
      waitForCheckAnswerEnabled w timeout fuel t = Some (Some btn) ->
      hasAttribute (self btn) aria_disabled = false
      /\ getAttribute (self btn) aria_disabled <> Some (lit "false")
      /\ exists t', checkAnswerBtn (page w t') = Some btn)
  /\ (forall w timeout fuel t btn,
         waitForNextButton w timeout fuel t = Some (Some btn) ->
         disabled (self btn) = false
         /\ exists t', nextButton (page w t') = Some btn)
  /\ (forall w w' timeout fuel t,
         (forall u, now w u = now w' u) ->
         (forall u, strip_document aria_disabled (page w u)
                    = strip_document aria_disabled (page w' u)) ->
         option_map (option_map loc) (waitForNextButton w timeout fuel t)
         = option_map (option_map loc) (waitForNextButton w' timeout fuel t))
  /\ check_ready Samples.aria_page = None
  /\ option_map loc (next_ready Samples.aria_page)
     = Some [Child 0; Child 1; Child 1].
Proof.
  split; [|split; [|split; [|split]]].
  - intros w timeout fuel t btn H.
    apply poll_found in H. destruct H as [t' [_ H]].
    unfold check_ready in H.
    destruct (checkAnswerBtn (page w t')) as [b|] eqn:E; [|discriminate].
    destruct (hasAttribute (self b) aria_disabled) eqn:A; [discriminate|].
    injection H as <-. split; [exact A|]. split; [|now exists t'].
    unfold hasAttribute in A.
    destruct (getAttribute (self b) aria_disabled); [discriminate|discriminate].
  - intros w timeout fuel t btn H.
    apply poll_found in H. destruct H as [t' [_ H]].
    unfold next_ready in H.
    destruct (nextButton (page w t')) as [b|] eqn:E; [|discriminate].
    destruct (disabled (self b)) eqn:A; [discriminate|].
    injection H as <-. split; [exact A|now exists t'].
  - intros w w' timeout fuel t Hn Hp. unfold waitForNextButton.
    rewrite <- Hn. now apply poll_next_strip.
  - reflexivity.
  - reflexivity.
Qed.

Section LoopFacts.
Variable innerText : node -> jsstring.
Variable apiKey : jsstring.
Variable w : env.

Abbreviation resume := (resume innerText apiKey w).
Abbreviation turn := (turn innerText apiKey w).
Abbreviation run := (run innerText apiKey w).

Ltac branches :=
  repeat match goal with
         | |- context [if ?c then _ else _] => destruct c
         | |- context [match ?x with _ => _ end] => destruct x
         end.

(** The flag is raised nowhere in the loop. *)
Lemma resume_flag s : isAutoRunning s = false -> isAutoRunning (resume s) = false.
Proof.
  intros H. unfold RunAll.resume, loop_head, poll_check, poll_next.
  rewrite H. cbn [andb].
  branches; cbn [finally goto emit isAutoRunning]; try reflexivity; exact H.
Qed.

Lemma handle_click_pc c s : at_pc (handle_click c s) = at_pc s.
Proof. destruct c; try reflexivity. cbn [handle_click]. now destruct (isAutoRunning s). Qed.

Lemma handle_click_flag c s :
  c = StopClick \/ (c <> RunAllClick /\ isAutoRunning s = false) ->
  isAutoRunning (handle_click c s) = false.
Proof.
  intros [->|[N F]]; [reflexivity|].
  destruct c; [exact F|reflexivity|contradiction].
Qed.

Lemma handle_click_log c s :
  exists l, log (handle_click c s) = log s ++ l /\ forallb is_status l = true.
Proof.
  destruct c; cbn [handle_click].
  - exists []. now rewrite app_nil_r.
  - now eexists.
  - exists []. rewrite app_nil_r. now destruct (isAutoRunning s).
Qed.

Lemma turn_flag c s :
  c = StopClick \/ (c <> RunAllClick /\ isAutoRunning s = false) ->
  isAutoRunning (turn c s) = false.
Proof.
  intros H. unfold RunAll.turn. cbn [next_tick isAutoRunning].
  now apply resume_flag, handle_click_flag.
Qed.

(** After a Stop the flag stays down for as long as Run All is not
    clicked. *)
Lemma run_flag clicks s0 i :
  clicks i = StopClick ->
  forall j, i < j ->
            (forall k, i < k < j -> clicks k <> RunAllClick) ->
            isAutoRunning (run clicks j s0) = false.
Proof.
  intros Hi j Hj. induction j as [|j IH]; [lia|]. intros Hk.
  cbn [RunAll.run]. apply turn_flag.
  destruct (Nat.eq_dec i j) as [<-|N]; [now left|right]. split.
  - apply Hk. lia.
  - apply IH; [lia|]. intros k K. apply Hk. lia.
Qed.

(** At a boundary with the flag down, the loop leaves through its
    [finally] block. *)
Lemma resume_boundary s :
  at_boundary s = true -> isAutoRunning s = false -> resume s = finally s.
Proof.
  unfold at_boundary, RunAll.resume, loop_head. intros B F.
  destruct (at_pc s); try discriminate; now rewrite F.
Qed.

Lemma turn_done c s :
  at_pc s = Done ->
  at_pc (turn c s) = Done
  /\ exists l, log (turn c s) = log s ++ l /\ forallb is_status l = true.
Proof.
  intros D. unfold RunAll.turn, RunAll.resume.
  rewrite handle_click_pc, D. cbn [next_tick at_pc log].
  split; [now rewrite handle_click_pc|apply handle_click_log].
Qed.

Lemma stopped_after_boundary clicks s0 i j :
  clicks i = StopClick -> i <= j ->
  (forall k, i < k <= j -> clicks k <> RunAllClick) ->
  at_boundary (run clicks j s0) = true ->
  forall m, j < m ->
    at_pc (run clicks m s0) = Done
    /\ exists l, log (run clicks m s0) = log (run clicks j s0) ++ l
                 /\ forallb is_status l = true.
Proof.
  intros Hi Hij Hk B m Hm. induction m as [|m IH]; [lia|].
  destruct (Nat.eq_dec j m) as [<-|N].
  - (* the turn at the boundary *)
    cbn [RunAll.run]. set (sj := run clicks j s0) in *.
    assert (F : isAutoRunning (handle_click (clicks j) sj) = false).
    { apply handle_click_flag.
      destruct (Nat.eq_dec i j) as [<-|N']; [now left|right]. split.
      - apply Hk. lia.
      - apply (run_flag clicks s0 i); [assumption|lia|].
        intros k K. apply Hk. lia. }
    assert (B' : at_boundary (handle_click (clicks j) sj) = true)
      by (unfold at_boundary; now rewrite handle_click_pc).
    unfold RunAll.turn. rewrite (resume_boundary _ B' F).
    cbn [next_tick finally at_pc log]. split; [reflexivity|].
    destruct (handle_click_log (clicks j) sj) as [l [-> Sl]].
    exists (l ++ [SetStatus (lit "Ready")]). split.
    + now rewrite app_assoc.
    + now rewrite forallb_app, Sl.
  - destruct IH as [D [l [El Sl]]]; [lia|].
    cbn [RunAll.run].
    destruct (turn_done (clicks m) (run clicks m s0) D) as [D' [l' [El' Sl']]].
    split; [exact D'|].
    exists (l ++ l'). split.
    + now rewrite El', El, app_assoc.
    + now rewrite forallb_app, Sl, Sl'.
Qed.

(** Away from a boundary the loop does not read the flag: the step in
    flight is the same with and without a Stop. *)
Lemma in_flight_completes s :
  at_boundary s = false ->
  exists acts,
    log (resume s) = log s ++ acts
    /\ log (resume (stop s)) = log (stop s) ++ acts
    /\ at_pc (resume (stop s)) = at_pc (resume s).
Proof.
  unfold at_boundary, RunAll.resume, poll_check, poll_next.
  cbn [stop at_pc tick log].
  destruct (at_pc s); try discriminate; intros _; branches;
    cbn [finally goto emit at_pc log tick isAutoRunning];
    rewrite <- ?app_assoc;
    try (eexists; repeat split; reflexivity);
    exists []; rewrite ?app_nil_r; repeat split; reflexivity.
Qed.

Lemma solve_finish_length buttons i :
  match solve_finish buttons i with
  | (clicks, Success _) => length clicks = 1
  | (clicks, Failure _) => clicks = []
  end.
Proof.
  unfold solve_finish. destruct i as [k|]; [|reflexivity].
  destruct ((k <? 1)%Z || (Z.of_nat (length buttons) <? k)%Z); [reflexivity|].
  destruct (nth_error buttons (Z.to_nat (k - 1))); reflexivity.
Qed.

Lemma resume_stopped s :
  isAutoRunning s = false ->
  exists l, log (resume s) = log s ++ l /\ quiet l s (resume s).
Proof.
  intros F. unfold RunAll.resume, loop_head, poll_check, poll_next.
  rewrite F. cbn [andb].
  assert (Q0 : forall s', at_pc s' = at_pc s -> log s' = log s ->
                          exists l, log s' = log s ++ l /\ quiet l s s').
  { intros s' Hp Hl. exists []. rewrite app_nil_r. split; [exact Hl|].
    unfold quiet, answer_due. rewrite Hp. cbn. split; [reflexivity|lia]. }
  destruct (at_pc s) eqn:P.
  - exists [SetStatus (lit "Ready")]. unfold quiet, answer_due. rewrite P.
    cbn. repeat split; lia.
  - destruct (stored_model w (tick s)) as [msg|m];
      cbn [finally goto emit log at_pc]; rewrite <- ?app_assoc;
      eexists; (split; [reflexivity|]); unfold quiet, answer_due; rewrite P;
      cbn; repeat split; lia.
  - destruct (oracle w (tick s) apiKey model (ex_question ex) (ex_answers ex))
      as [msg|answerIndex].
    + cbn [finally goto emit log at_pc]. rewrite <- ?app_assoc.
      eexists; (split; [reflexivity|]); unfold quiet, answer_due; rewrite P;
      cbn; repeat split; lia.
    + pose proof (solve_finish_length (ex_buttons ex) answerIndex) as L.
      destruct (solve_finish (ex_buttons ex) answerIndex) as [clicks [k|e]].
      * destruct clicks as [|h [|h' clicks]]; try discriminate.
        cbn [finally goto emit log at_pc map]. eexists.
        (split; [reflexivity|]); unfold quiet, answer_due; rewrite P;
        cbn; repeat split; lia.
      * subst clicks. cbn [finally goto emit log at_pc]. rewrite <- ?app_assoc.
        eexists; (split; [reflexivity|]); unfold quiet, answer_due; rewrite P;
        cbn; repeat split; lia.
  - branches; cbn [finally goto emit log at_pc]; rewrite <- ?app_assoc;
      try (eexists; (split; [reflexivity|]); unfold quiet, answer_due;
           rewrite P; cbn; repeat split; lia);
      exists []; rewrite app_nil_r; unfold quiet, answer_due; rewrite P; cbn;
      repeat split; lia.
  - branches; cbn [finally goto emit log at_pc]; rewrite <- ?app_assoc;
      try (eexists; (split; [reflexivity|]); unfold quiet, answer_due;
           rewrite P; cbn; repeat split; lia);
      exists []; rewrite app_nil_r; unfold quiet, answer_due; rewrite P; cbn;
      repeat split; lia.
  - branches; cbn [finally goto emit log at_pc]; rewrite <- ?app_assoc;
      try (eexists; (split; [reflexivity|]); unfold quiet, answer_due;
           rewrite P; cbn; repeat split; lia);
      exists []; rewrite app_nil_r; unfold quiet, answer_due; rewrite P; cbn;
      repeat split; lia.
  - branches; cbn [finally goto emit log at_pc]; rewrite <- ?app_assoc;
      try (eexists; (split; [reflexivity|]); unfold quiet, answer_due;
           rewrite P; cbn; repeat split; lia);
      exists []; rewrite app_nil_r; unfold quiet, answer_due; rewrite P; cbn;
      repeat split; lia.
  - exists [SetStatus (lit "Ready")]. unfold quiet, answer_due. rewrite P.
    cbn. repeat split; lia.
  - apply Q0; [exact P|reflexivity].
Qed.

Lemma status_quiet l :
  forallb is_status l = true ->
  filter is_extract l = [] /\ filter (is_click AnswerButton) l = [].
Proof.
  induction l as [|a l IH]; [now split|].
  cbn [forallb]. intros H. apply andb_true_iff in H. destruct H as [A H].
  destruct a; try discriminate. cbn [filter is_extract is_click]. now apply IH.
Qed.

Lemma turn_stopped c s :
  isAutoRunning (handle_click c s) = false ->
  exists l, log (turn c s) = log s ++ l /\ quiet l s (turn c s).
Proof.
  intros F. destruct (resume_stopped _ F) as [l [E [X A]]].
  destruct (handle_click_log c s) as [l0 [E0 S0]].
  destruct (status_quiet l0 S0) as [X0 A0].
  exists (l0 ++ l). unfold RunAll.turn, quiet.
  cbn [next_tick log]. rewrite E, E0, app_assoc. split; [reflexivity|].
  rewrite !filter_app, X0, X, A0. cbn [app]. split; [reflexivity|].
  unfold answer_due in *. cbn [next_tick at_pc].
  rewrite handle_click_pc in A. exact A.
Qed.

(** From a Stop on, for as long as Run All is not clicked, nothing is
    extracted and no answer is clicked but the one that was due. *)
Lemma run_stopped clicks s0 i :
  clicks i = StopClick ->
  forall m, i <= m ->
            (forall k, i < k < m -> clicks k <> RunAllClick) ->
            exists l, log (run clicks m s0) = log (run clicks i s0) ++ l
                      /\ quiet l (run clicks i s0) (run clicks m s0).
Proof.
  intros Hi m. induction m as [|m IH]; intros Hm Hk.
  - assert (i = 0) by lia. subst i. exists []. rewrite app_nil_r.
    unfold quiet. cbn. split; [reflexivity|]. split; [reflexivity|lia].
  - destruct (Nat.eq_dec i (S m)) as [->|N].
    + exists []. rewrite app_nil_r. unfold quiet. cbn [filter length].
      split; [reflexivity|]. split; [reflexivity|lia].
    + destruct IH as [l [E [X A]]]; [lia|intros k K; apply Hk; lia|].
      assert (F : isAutoRunning (handle_click (clicks m) (run clicks m s0))
                  = false).
      { apply handle_click_flag.
        destruct (Nat.eq_dec i m) as [<-|N']; [now left|right]. split.
        - apply Hk. lia.
        - apply (run_flag clicks s0 i); [assumption|lia|].
          intros k K. apply Hk. lia. }
      destruct (turn_stopped _ _ F) as [l' [E' [X' A']]].
      exists (l ++ l'). cbn [RunAll.run]. unfold quiet.
      rewrite E', E, app_assoc. split; [reflexivity|].
      rewrite !filter_app, X, X', length_app. split; [reflexivity|lia].
Qed.

(** *** The latency of a Stop *)

Hypothesis clock : forall t, (now w t + 200 <= now w (S t))%Z.

Lemma looks_left_step timeout start n n' :
  (n - start < timeout)%Z -> (n + 200 <= n')%Z ->
  looks_left timeout start n' < looks_left timeout start n.
Proof.
  unfold looks_left. intros H1 H2.
  Z.to_euclidean_division_equations. lia.
Qed.

Lemma looks_left_fresh timeout n n' :
  (n + 200 <= n')%Z ->
  looks_left timeout n n' <= Z.to_nat ((timeout - 1) / 200).
Proof.
  unfold looks_left. intros H.
  Z.to_euclidean_division_equations. lia.
Qed.

Lemma turns_left_click c s : turns_left w (handle_click c s) = turns_left w s.
Proof.
  unfold turns_left. rewrite handle_click_pc.
  destruct c; try reflexivity. cbn [handle_click].
  now destruct (isAutoRunning s).
Qed.

Lemma poll_next_left start s :
  (now w (tick s) - start <? 8000)%Z = true ->
  turns_left w (next_tick (poll_next w start s))
  <= looks_left 8000 start (now w (S (tick s))) + 1.
Proof.
  intros T. unfold poll_next. rewrite T.
  destruct (next_ready (page w (tick s))); unfold turns_left;
    cbn [next_tick goto emit at_pc tick]; lia.
Qed.

Lemma poll_next_fresh s :
  turns_left w (next_tick (poll_next w (now w (tick s)) s)) <= 40.
Proof.
  assert (T : (now w (tick s) - now w (tick s) <? 8000)%Z = true)
    by (apply Z.ltb_lt; lia).
  pose proof (poll_next_left _ s T) as L.
  pose proof (looks_left_fresh 8000 _ _ (clock (tick s))) as B.
  change (Z.to_nat ((8000 - 1) / 200)) with 39 in B. lia.
Qed.

Lemma resume_decreases s :
  turns_left w s <> 0 ->
  turns_left w (next_tick (resume s)) < turns_left w s.
Proof.
  unfold RunAll.resume. intros N.
  unfold turns_left at 2. unfold turns_left in N.
  destruct (at_pc s) eqn:P; try contradiction.
  - destruct (stored_model w (tick s)); unfold turns_left;
      cbn [next_tick goto emit finally at_pc tick]; lia.
  - destruct (oracle w (tick s) apiKey model (ex_question ex) (ex_answers ex));
      [|destruct (solve_finish (ex_buttons ex) a) as [clicks [k|e]]];
      unfold turns_left; cbn [next_tick goto emit finally at_pc tick]; lia.
  - unfold poll_check.
    replace (now w (tick s) - now w (tick s) <? 5000)%Z with true
      by (symmetry; apply Z.ltb_lt; lia).
    destruct (check_ready (page w (tick s))); unfold turns_left;
      cbn [next_tick goto emit at_pc tick]; [lia|].
    pose proof (looks_left_fresh 5000 _ _ (clock (tick s))) as B.
    change (Z.to_nat ((5000 - 1) / 200)) with 24 in B. lia.
  - unfold poll_check.
    destruct (now w (tick s) - start <? 5000)%Z eqn:T.
    + destruct (check_ready (page w (tick s))); unfold turns_left;
        cbn [next_tick goto emit at_pc tick]; [lia|].
      apply Z.ltb_lt in T.
      pose proof (looks_left_step 5000 start _ _ T (clock (tick s))). lia.
    + pose proof (poll_next_fresh s). lia.
  - pose proof (poll_next_fresh s). lia.
  - destruct (now w (tick s) - start <? 8000)%Z eqn:T.
    + pose proof (poll_next_left start s T) as L.
      apply Z.ltb_lt in T.
      pose proof (looks_left_step 8000 start _ _ T (clock (tick s))). lia.
    + unfold poll_next. rewrite T. unfold turns_left.
      cbn [next_tick goto emit finally at_pc tick]. lia.
Qed.

Lemma turn_decreases c s :
  turns_left w s <> 0 -> turns_left w (turn c s) < turns_left w s.
Proof.
  intros N. unfold RunAll.turn. rewrite <- (turns_left_click c s) in *.
  now apply resume_decreases.
Qed.

Lemma turn_bounded c s :
  turns_left w s <= 71 -> turns_left w (turn c s) <= 71.
Proof.
  intros B. destruct (Nat.eq_dec (turns_left w s) 0) as [Z0|N].
  - unfold RunAll.turn, RunAll.resume. unfold turns_left in Z0.
    rewrite handle_click_pc.
    destruct (at_pc s) eqn:P; try discriminate; unfold loop_head; branches;
      unfold turns_left;
      cbn [next_tick goto emit finally at_pc tick]; try lia.
    rewrite handle_click_pc, P. lia.
  - pose proof (turn_decreases c s N). lia.
Qed.

Lemma run_bounded clicks s0 n :
  turns_left w s0 <= 71 -> turns_left w (run clicks n s0) <= 71.
Proof.
  intros B. induction n as [|n IH]; [exact B|].
  cbn [RunAll.run]. now apply turn_bounded.
Qed.

(** The loop is at a boundary, or done, within the turns it has left. *)
Lemma reach_boundary clicks s0 d :
  forall n, turns_left w (run clicks n s0) <= d ->
            exists j, j <= d /\ turns_left w (run clicks (n + j) s0) = 0.
Proof.
  induction d as [|d IH]; intros n B.
  - exists 0. rewrite Nat.add_0_r. split; lia.
  - destruct (Nat.eq_dec (turns_left w (run clicks n s0)) 0) as [Z0|N].
    + exists 0. rewrite Nat.add_0_r. split; [lia|exact Z0].
    + pose proof (turn_decreases (clicks n) _ N) as D.
      destruct (IH (S n)) as [j [Hj Hz]]; [cbn [RunAll.run]; lia|].
      exists (S j). rewrite Nat.add_succ_r. split; [lia|exact Hz].
Qed.

Lemma turns_left_zero s :
  turns_left w s = 0 -> at_boundary s = true \/ at_pc s = Done.
Proof.
  unfold turns_left, at_boundary.
  destruct (at_pc s); try discriminate; auto.
Qed.

Lemma run_done clicks s0 n :
  at_pc (run clicks n s0) = Done ->
  forall m, n <= m -> at_pc (run clicks m s0) = Done.
Proof.
  intros D m. induction m as [|m IH]; intros L.
  - assert (n = 0) by lia. now subst n.
  - destruct (Nat.eq_dec n (S m)) as [->|N]; [exact D|].
    cbn [RunAll.run]. apply turn_done. apply IH. lia.
Qed.

(** A Stop ends the loop within 72 turns of the event queue. *)
Lemma stop_latency clicks s0 i :
  turns_left w s0 <= 71 ->
  clicks i = StopClick ->
  (forall k, i < k <= i + 71 -> clicks k <> RunAllClick) ->
  forall m, i + 71 < m -> at_pc (run clicks m s0) = Done.
Proof.
  intros B Hi Hk m Hm.
  destruct (reach_boundary clicks s0 71 i (run_bounded clicks s0 i B))
    as [j [Hj Z0]].
  apply turns_left_zero in Z0. destruct Z0 as [Bd|D].
  - apply (stopped_after_boundary clicks s0 i (i + j)); try assumption; try lia.
    intros k K. apply Hk. lia.
  - apply (run_done clicks s0 (i + j)); [exact D|lia].
Qed.
End LoopFacts.




(** The run of the sample, Stop arriving while the oracle is asked: the
    answer, Check Answer and Next are still clicked, and the loop ends at
    the boundary. *)
Example stop_during_oracle_call :
  log (run Samples.no_innerText (lit "key") Samples.steady Samples.stop_at_2
           9 Samples.raised)
  = [SetStatus (lit "Solving current question..."); Extract; AskOracle;
     SetStatus (lit "Stopping...");
     Click AnswerButton [Child 0; Child 1; Child 0; Child 2; Child 1; Child 0];
     Click CheckButton [Child 0; Child 1; Child 0; Child 3];
     SetStatus (lit "Moving to next question...");
     Click NextButton [Child 0; Child 1; Child 0; Child 4];
     SetStatus (lit "Ready")].
Proof. vm_compute. reflexivity. Qed.

(** With Run All clicked again before the boundary the flag is up when
    the loop tests it, and the loop goes on to the next question. *)
Example stop_then_run_goes_on :
  let s := run Samples.no_innerText (lit "key") Samples.steady
               Samples.stop_then_run 6 Samples.raised in
  isAutoRunning s = true
  /\ skipn 8 (log s) = [SetStatus (lit "Solving current question..."); Extract].
Proof. vm_compute. split; reflexivity. Qed.

End RunAllFacts.

(** ** The video watchdog *)

Module VideoFacts.
Import JsString Video.

(** Once [advanced] is set, no event has an effect. *)
Lemma guard_blocks_events nextBtn es :
  forall s, advanced s = true -> handle_events nextBtn es s = s.
Proof.
  induction es as [|e es IH]; intros s A; [reflexivity|].
  unfold handle_events in *. cbn [fold_left].
  assert (E : handle_event nextBtn e s = s).
  { destruct e; cbn [handle_event]; unfold checkTime, onEnded;
      rewrite A, ?orb_true_r; try reflexivity.
    now destruct (interval s). }
  rewrite E. now apply IH.
Qed.

Lemma advanceToNext_advanced nextBtn s :
  advanced (advanceToNext nextBtn s) = advanced s.
Proof. now destruct nextBtn. Qed.

Lemma advanceToNext_navigations c s :
  navigations (advanceToNext (Some c) s) = S (navigations s).
Proof.
  unfold navigations. cbn [advanceToNext vlog].
  rewrite !filter_app, !length_app. destruct c; cbn; lia.
Qed.

(** A reading that meets one of the two conditions, and not both, fires
    the navigation once. *)
Lemma checkTime_one_condition c r s :
  enabled s = true -> advanced s = false ->
  xorb (near_end r) (ended r) = true ->
  navigations (checkTime (Some c) r s) = S (navigations s)
  /\ advanced (checkTime (Some c) r s) = true.
Proof.
  intros E A X. unfold checkTime. rewrite E, A. cbn [negb orb].
  destruct (near_end r), (ended r); try discriminate;
    rewrite advanceToNext_navigations, advanceToNext_advanced;
    now split.
Qed.

(** C3, the code at a failing input.  One call of [checkTime] on a
    video of 100 seconds that has reached its end, where both tests of
    the function hold, calls [advanceToNext] twice: the Next control is
    clicked twice (or the location set twice), the second test not being
    under the guard that the first one has just set. *)
Theorem checkTime_fires_twice :
  attachNativeListener true true = Some attached
  /\ near_end Samples.at_the_end = true
  /\ ended Samples.at_the_end = true
  /\ vlog (checkTime (Some Button) Samples.at_the_end attached)
  = [Status (lit "Advancing to next..."); ClickNext; Rearm;
     Status (lit "Advancing to next..."); ClickNext; Rearm]
  /\ navigations (checkTime (Some Button) Samples.at_the_end attached) = 2
  /\ navigations (checkTime (Some (Link (lit "/next")))
                            Samples.at_the_end attached) = 2
  /\ navigations (handle_events (Some Button)
                                [Poll Samples.at_the_end] attached) = 2.
Proof. repeat split. Qed.

End VideoFacts.

(** ** The math-field actuator *)

Module MathFieldFacts.
Import JsString MathField.

(** C7 (as amended).  For every math field and LaTeX value the actuator
    injects the same-origin script at most once, and only before the
    paste and the direct writes (it is the first write, made when the
    field has an identifier and the document a body); it dispatches the
    paste at most once; then, after a delay of 80 ms, it writes once
    through the interface of the field: by [setValue], else by [insert],
    else by [executeCommand], else by the setter of the value, else by
    an assignment to the value; it dispatches input and change, and
    after a delay of 120 ms it writes a second time: by [setValue], else
    by the setter of the value, else by an assignment; and it dispatches
    input.  Only the direct write is made twice. *)
Theorem setMathFieldValue_sequence :
  forall pg f latex,
    let ops := setMathFieldValue pg f latex in
    count is_inject ops = (if truthy (id f) && has_body pg then 1 else 0)
    /\ count is_paste ops = (if dataTransfer_ok pg then 1 else 0)
    /\ count is_direct ops = 2
    /\ (exists pre mid post,
           ops = pre ++ Delay 80 :: mid ++ Delay 120 :: post
           /\ count is_direct pre = 0
           /\ count is_direct mid = 1
           /\ count is_direct post = 1
           /\ count is_inject (mid ++ post) = 0
           /\ count is_paste (mid ++ post) = 0)
    /\ (forall i j, index_of is_inject ops = Some i ->
                    index_of is_paste ops = Some j -> i < j)
    /\ (exists pre first second,
           ops = pre ++ Delay 80 :: first ++ [InputEvent; ChangeEvent]
                     ++ Delay 120 :: second ++ [InputEvent]
           /\ (forall o, In o pre ->
                         o = Focus \/ o = ScrollIntoView
                         \/ o = InjectScript (id f) latex \/ o = Paste latex)
           /\ (has_setValue f = true -> first = [SetValue latex])
           /\ (has_setValue f = false -> has_insert f = true ->
               first = [Insert latex])
           /\ (has_setValue f = false -> has_insert f = false ->
               has_executeCommand f = true ->
               first = [SelectAll; CommandInsert latex])
           /\ (has_setValue f = false -> has_insert f = false ->
               has_executeCommand f = false -> has_value_setter f = true ->
               first = [SetterCall latex])
           /\ (has_setValue f = false -> has_insert f = false ->
               has_executeCommand f = false -> has_value_setter f = false ->
               first = [AssignValue latex])
           /\ (has_setValue f = true -> second = [SetValue latex])
           /\ (has_setValue f = false -> has_value_setter f = true ->
               second = [SetterCall latex])
           /\ (has_setValue f = false -> has_value_setter f = false ->
               second = [AssignValue latex])).
Proof.
  intros pg f latex ops.
  assert (E : ops
              = (when (has_focus f) [Focus]
                 ++ when (has_scrollIntoView f) [ScrollIntoView]
                 ++ (if truthy (id f)
                     then setMathFieldValueInPage pg (id f) latex else [])
                 ++ dispatchPasteWithData pg f latex)
                ++ Delay 80
                :: ((if has_setValue f then [SetValue latex]
                     else if has_insert f then [Insert latex]
                     else if has_executeCommand f
                          then [SelectAll; CommandInsert latex]
                          else forceSetValue f latex)
                    ++ [InputEvent; ChangeEvent])
                ++ Delay 120
                :: ((if has_setValue f then [SetValue latex]
                     else forceSetValue f latex) ++ [InputEvent])).
  { subst ops. unfold setMathFieldValue.
    repeat rewrite <- app_assoc. reflexivity. }
  split; [|split; [|split; [|split; [|split]]]].
  4: { eexists _, _, _. split; [exact E|].
       destruct f as [i hf hs hv hi he hw], pg as [hb dt].
       destruct i as [|c i]; destruct hf, hs, hv, hi, he, hw, hb, dt;
         repeat split. }
  5: { eexists _, _, _. split.
       { rewrite E. now rewrite <- (app_assoc _ [InputEvent; ChangeEvent]). }
       split.
       { intros o H. clear E.
         destruct f as [i hf hs hv hi he hw], pg as [hb dt].
         destruct i as [|c i]; destruct hf, hs, hb, dt; cbn in H;
           repeat match goal with
                  | H : _ \/ _ |- _ => destruct H as [<-|H]
                  | H : False |- _ => destruct H
                  end; cbn [id]; auto 6. }
       unfold forceSetValue.
       destruct (has_setValue f), (has_insert f), (has_executeCommand f),
         (has_value_setter f); repeat split; intros; congruence. }
  all: subst ops; clear E;
    destruct f as [i hf hs hv hi he hw], pg as [hb dt];
    destruct i as [|c i]; destruct hf, hs, hv, hi, he, hw, hb, dt;
    cbv; try reflexivity; intros;
    repeat match goal with
           | H : Some _ = Some _ |- _ => injection H as <-
           | H : None = Some _ |- _ => discriminate H
           end; lia.
Qed.

(** C7 as the specification words it fails: on a field with an
    identifier and a [setValue] method, the injected script comes first
    and not last, and script and paste are each made once, not twice. *)
Lemma setMathFieldValue_counterexample :
  let ops := setMathFieldValue Samples.math_page Samples.math_field (lit "x^2") in
  ops = [Focus; ScrollIntoView;
         InjectScript (lit "answer-1") (lit "x^2");
         Focus; Paste (lit "x^2"); Delay 80;
         SetValue (lit "x^2"); InputEvent; ChangeEvent; Delay 120;
         SetValue (lit "x^2"); InputEvent]
  /\ count is_inject ops = 1
  /\ count is_paste ops = 1
  /\ index_of is_inject ops = Some 2
  /\ index_of is_paste ops = Some 4
  /\ index_of is_direct ops = Some 6.
Proof. repeat split. Qed.

End MathFieldFacts.

(** ** The model listing *)

Module PopupFacts.
Import JsString Oracle Popup JsStringFacts.

Lemma isChatModel_iff m : isChatModel (model_id m) = true <-> ~ excluded m.
Proof.
  unfold isChatModel, excluded. rewrite negb_true_iff.
  split.
  - intros H [k [Hk [pre [post E]]]].
    assert (X : existsb (fun k => includes (toLowerCase (or_str (model_id m) [])) k)
                        exclude = true).
    { apply existsb_exists. exists k. split; [exact Hk|].
      apply includes_iff. now exists pre, post. }
    congruence.
  - intros H.
    destruct (existsb _ exclude) eqn:X; [|reflexivity].
    exfalso. apply H. apply existsb_exists in X. destruct X as [k [Hk I]].
    exists k. split; [exact Hk|]. now apply includes_iff.
Qed.

Lemma or_str_identifier m : or_str (model_id m) [] = identifier m.
Proof.
  unfold or_str, identifier. destruct (model_id m) as [[|c s]|]; reflexivity.
Qed.

(** The word is held by the string when it occurs in the string put in
    lower case. *)
Lemma holds_word_iff k s :
  holds_word k s <-> exists pre post, toLowerCase s = pre ++ k ++ post.
Proof.
  unfold holds_word, toLowerCase. split.
  - intros [pre [mid [post [-> <-]]]].
    exists (map lower_char pre), (map lower_char post).
    now rewrite !map_app.
  - intros [pre [post E]].
    apply map_eq_app in E. destruct E as [p [r [-> [<- E]]]].
    apply map_eq_app in E. destruct E as [m [q [-> [<- <-]]]].
    now exists p, m, q.
Qed.

Lemma excluded_words m : excluded m <-> non_conversational m.
Proof.
  unfold excluded, non_conversational. rewrite or_str_identifier.
  rewrite !holds_word_iff. unfold exclude. split.
  - intros [k [Hk H]]. cbn [In] in Hk.
    destruct Hk as [<-|[<-|[<-|[<-|[]]]]]; tauto.
  - intros [H|[H|[H|H]]]; eexists; (split; [|exact H]); cbn [In]; tauto.
Qed.

Lemma isChatModel_words m :
  isChatModel (model_id m) = true <-> ~ non_conversational m.
Proof. rewrite isChatModel_iff. now rewrite excluded_words. Qed.

Lemma isChatModel_false m :
  isChatModel (model_id m) = false -> non_conversational m.
Proof.
  intros H. apply excluded_words. unfold isChatModel in H.
  apply negb_false_iff, existsb_exists in H. destruct H as [k [Hk I]].
  exists k. split; [exact Hk|]. now apply includes_iff.
Qed.

Lemma filter_both (A : Type) (f : A -> bool) l :
  Permutation l (filter f l ++ filter (fun x => negb (f x)) l).
Proof.
  induction l as [|x l IH]; [reflexivity|].
  cbn [filter]. destruct (f x); cbn [negb app].
  - now constructor.
  - now apply Permutation_cons_app.
Qed.

Lemma StronglySorted_weaken (A : Type) (R Q : A -> A -> Prop) l :
  (forall a b, R a b -> Q a b) -> StronglySorted R l -> StronglySorted Q l.
Proof.
  intros H. induction 1 as [|x l _ IH F]; constructor; [exact IH|].
  eapply Forall_impl; [|exact F]. intros b. apply H.
Qed.

Lemma le_in_order localeCompare a b :
  Popup.le localeCompare a b -> in_order localeCompare a b.
Proof. unfold Popup.le, cmp, in_order. now rewrite !or_str_identifier. Qed.

Section SortFacts.
Variable localeCompare : jsstring -> jsstring -> comparison.
(** The comparison is consistent: turning the arguments round turns
    the answer round, and the order is transitive. *)
Hypothesis compare_opp :
  forall a b, localeCompare b a = CompOpp (localeCompare a b).
Hypothesis compare_trans :
  forall a b c, localeCompare a b <> Gt -> localeCompare b c <> Gt ->
                localeCompare a c <> Gt.

Abbreviation le := (Popup.le localeCompare).
Abbreviation insert := (Popup.insert localeCompare).
Abbreviation sort := (Popup.sort localeCompare).

Lemma insert_perm x l : Permutation (insert x l) (x :: l).
Proof.
  induction l as [|y l IH]; [reflexivity|].
  cbn [Popup.insert]. destruct (cmp localeCompare x y); try reflexivity.
  rewrite IH. apply perm_swap.
Qed.

Lemma sort_perm l : Permutation (sort l) l.
Proof.
  induction l as [|x l IH]; [reflexivity|].
  cbn [Popup.sort fold_right]. rewrite insert_perm. now constructor.
Qed.

Lemma le_total x y : cmp localeCompare x y = Gt -> le y x.
Proof.
  unfold Popup.le, cmp. intros H. rewrite compare_opp, H. discriminate.
Qed.

Lemma le_trans x y z : le x y -> le y z -> le x z.
Proof. unfold Popup.le, cmp. apply compare_trans. Qed.

Lemma insert_sorted x l :
  StronglySorted le l -> StronglySorted le (insert x l).
Proof.
  induction 1 as [|y l Hl IH Hy]; [repeat constructor|].
  cbn [Popup.insert]. destruct (cmp localeCompare x y) eqn:E.
  - constructor; [now constructor|].
    assert (Hxy : le x y) by (unfold Popup.le; congruence).
    constructor; [exact Hxy|].
    eapply Forall_impl; [|exact Hy]. intros z. now apply le_trans.
  - constructor; [now constructor|].
    assert (Hxy : le x y) by (unfold Popup.le; congruence).
    constructor; [exact Hxy|].
    eapply Forall_impl; [|exact Hy]. intros z. now apply le_trans.
  - constructor; [exact IH|].
    rewrite (insert_perm x l).
    constructor; [now apply le_total|exact Hy].
Qed.

Lemma sort_sorted l : StronglySorted le (sort l).
Proof.
  induction l as [|x l IH]; [constructor|].
  cbn [Popup.sort fold_right]. now apply insert_sorted.
Qed.

Lemma fetchModels_returns res :
  res_ok res = true ->
  let listed := match data res with Some d => d | None => [] end in
  exists models,
    fetchModels localeCompare res = Return models
    /\ Permutation models (filter (fun m => isChatModel (model_id m)) listed)
    /\ (forall m, In m models <-> In m listed /\ ~ excluded m)
    /\ StronglySorted le models.
Proof.
  intros Hok listed. unfold fetchModels. rewrite Hok. cbn [negb].
  fold listed. eexists. split; [reflexivity|].
  split; [apply sort_perm|]. split; [|apply sort_sorted].
  intros m. split.
  - intros H. apply (Permutation_in _ (sort_perm _)) in H.
    apply filter_In in H. destruct H as [H1 H2].
    split; [exact H1|now apply isChatModel_iff].
  - intros [H1 H2].
    apply (Permutation_in _ (Permutation_sym (sort_perm _))).
    apply filter_In. split; [exact H1|now apply isChatModel_iff].
Qed.
End SortFacts.

Lemma compare_units_opp a :
  forall b, compare_units b a = CompOpp (compare_units a b).
Proof.
  induction a as [|x a IH]; intros [|y b]; try reflexivity.
  cbn [compare_units]. rewrite (Nat.compare_antisym (code x) (code y)).
  destruct (code x ?= code y); cbn [CompOpp]; [apply IH|reflexivity|reflexivity].
Qed.

Lemma compare_units_trans a :
  forall b c, compare_units a b <> Gt -> compare_units b c <> Gt ->
              compare_units a c <> Gt.
Proof.
  induction a as [|x a IH]; intros [|y b] [|z c]; cbn [compare_units];
    try congruence.
  destruct (code x ?= code y) eqn:Exy; destruct (code y ?= code z) eqn:Eyz;
    intros H1 H2; try congruence;
    try apply Nat.compare_eq_iff in Exy; try apply Nat.compare_eq_iff in Eyz;
    try apply Nat.compare_lt_iff in Exy; try apply Nat.compare_lt_iff in Eyz.
  - rewrite Exy, Eyz, Nat.compare_refl. now apply (IH b c).
  - rewrite Exy. apply Nat.compare_lt_iff in Eyz. now rewrite Eyz.
  - rewrite <- Eyz. apply Nat.compare_lt_iff in Exy. now rewrite Exy.
  - assert (L : code x < code z) by lia.
    apply Nat.compare_lt_iff in L. now rewrite L.
Qed.

(** C9.  With a consistent collation, a successful listing makes
    [fetchModels] return exactly the listed models whose identifier
    holds, whatever the case of its letters, none of the words whisper,
    orpheus, prompt-guard and safeguard: the listed models are the
    returned ones together with the dropped ones, each as often as it is
    listed, no returned one names such a family and every dropped one
    does; and the returned models are in the order of their identifiers
    under the collation. *)
Theorem fetchModels_filtered_sorted :
  forall localeCompare,
    (forall a b, localeCompare b a = CompOpp (localeCompare a b)) ->
    (forall a b c, localeCompare a b <> Gt -> localeCompare b c <> Gt ->
                   localeCompare a c <> Gt) ->
    forall res,
      res_ok res = true ->
      let listed := match data res with Some d => d | None => [] end in
      exists models dropped,
        fetchModels localeCompare res = Return models
        /\ Permutation listed (models ++ dropped)
        /\ Forall (fun m => ~ non_conversational m) models
        /\ Forall non_conversational dropped
        /\ (forall m, In m models <-> In m listed /\ ~ non_conversational m)
        /\ StronglySorted (in_order localeCompare) models.
Proof.
  intros localeCompare Hopp Htrans res Hok listed.
  destruct (fetchModels_returns localeCompare Hopp Htrans res Hok)
    as [models [E [P [_ S]]]].
  fold listed in P.
  exists models, (filter (fun m => negb (isChatModel (model_id m))) listed).
  split; [exact E|].
  assert (K : Forall (fun m => ~ non_conversational m) models).
  { apply Forall_forall. intros m H.
    apply (Permutation_in _ P), filter_In in H.
    now apply isChatModel_words. }
  split; [|split; [exact K|split; [|split]]].
  - rewrite P. apply filter_both.
  - apply Forall_forall. intros m H. apply filter_In in H.
    destruct H as [_ H]. apply negb_true_iff in H.
    now apply isChatModel_false.
  - intros m. split.
    + intros H. split.
      * apply (Permutation_in _ P), filter_In in H. tauto.
      * rewrite Forall_forall in K. now apply K.
    + intros [H N]. apply (Permutation_in _ (Permutation_sym P)).
      apply filter_In. split; [exact H|now apply isChatModel_words].
  - eapply StronglySorted_weaken; [|exact S].
    intros a b. apply le_in_order.
Qed.

Lemma fetchModels_filtered_sorted_witness :
  res_ok sample_listing = true
  /\ exists models dropped,
      fetchModels compare_units sample_listing = Return models
      /\ Permutation (match data sample_listing with
                      | Some d => d
                      | None => []
                      end) (models ++ dropped)
      /\ Forall (fun m => ~ non_conversational m) models
      /\ Forall non_conversational dropped
      /\ (forall m, In m models <->
                    In m (match data sample_listing with
                          | Some d => d
                          | None => []
                          end) /\ ~ non_conversational m)
      /\ StronglySorted (in_order compare_units) models.
Proof.
  split; [reflexivity|].
  exact (fetchModels_filtered_sorted compare_units compare_units_opp
           compare_units_trans sample_listing eq_refl).
Defined.

(** The listing of the sample, as it is returned. *)
Example fetchModels_sample :
  fetchModels compare_units sample_listing
  = Return [named "gemma2-9b-it"; named "llama-3.3-70b-versatile";
            named "qwen-32b"].
Proof. reflexivity. Qed.

End PopupFacts.

(** ** More on the oracle client *)

Module OracleMore.
Import JsString Regex Oracle JsStringFacts OracleFacts.

Lemma last_opt_In (A : Type) (l : list A) x : last_opt l = Some x -> In x l.
Proof.
  unfold last_opt. intros H. destruct (rev l) as [|y r] eqn:E; [discriminate|].
  injection H as ->. apply in_rev. rewrite E. now left.
Qed.

Lemma last_opt_app (A : Type) (a b : list A) :
  last_opt (a ++ b)
  = match last_opt b with Some x => Some x | None => last_opt a end.
Proof.
  unfold last_opt. rewrite rev_app_distr. destruct (rev b); reflexivity.
Qed.

Lemma api_error_nonempty r : api_error r <> [].
Proof.
  unfold api_error.
  destruct (err_message r) as [m|]; [destruct m; cbn [truthy]|]; discriminate.
Qed.

Lemma callGroqAPI_cases :
  forall fetch apiKey model question answers,
    let resp := fetch (make_request apiKey model question answers) in
    (ok resp = false ->
     exists msg, callGroqAPI fetch apiKey model question answers = Throw msg
                 /\ msg <> [])
    /\ (ok resp = true ->
        exists r, callGroqAPI fetch apiKey model question answers = Return r
                  /\ (forall k, r = Some k ->
                                (1 <= k <= Z.of_nat (length answers))%Z)
                  /\ (answers = [] -> r = None)).
Proof.
  intros fetch apiKey model question answers resp. unfold callGroqAPI.
  fold resp. split; intros H; rewrite H; cbn [negb].
  - eexists. split; [reflexivity|apply api_error_nonempty].
  - eexists. split; [reflexivity|].
    rewrite parse_answer_tokens. unfold last_small_numeral.
    assert (R : forall k,
               last_opt (filter (within (length answers))
                          (map (digits_val 0)
                             (filter small_numeral
                                (word_runs (or_str (content resp) [])
                                 ++ word_runs (or_str (reasoning resp) [])))))
               = Some k -> (1 <= k <= Z.of_nat (length answers))%Z).
    { intros k E. apply last_opt_In, filter_In in E. destruct E as [_ E].
      unfold within in E. apply andb_true_iff in E. destruct E as [E1 E2].
      apply Z.leb_le in E1, E2. lia. }
    split; [exact R|]. intros ->.
    match goal with |- ?x = None => destruct x as [k|] eqn:E end;
      [|reflexivity].
    specialize (R k eq_refl). cbn [length] in R. lia.
Qed.

(** X2.  The reasoning is searched behind the content, so a number in
    the reasoning wins over every number in the content: the parse is the
    parse of the reasoning alone when that gives an index, and the parse
    of the content alone otherwise. *)
Theorem parse_answer_reasoning_first :
  forall c r N,
    parse_answer c r N
    = match parse_answer None r N with
      | Some k => Some k
      | None => parse_answer c None N
      end.
Proof.
  intros c r N. rewrite !parse_answer_tokens. unfold last_small_numeral.
  cbn [or_str word_runs app]. rewrite app_nil_r.
  now rewrite filter_app, map_app, filter_app, last_opt_app.
Qed.

End OracleMore.

(** ** More on the DOM search *)

Module DomMore.
Import JsString Dom Notions JsStringFacts DomFacts.

Lemma shadow_depth_Elem t a sh ch :
  shadow_depth (Elem t a sh ch)
  = Nat.max (match sh with
             | Some sr => S (shadow_depth_list sr)
             | None => 0
             end)
            (shadow_depth_list ch).
Proof.
  cbn [shadow_depth].
  assert (G : forall l,
             (fix go (l : list node) : nat :=
                match l with
                | [] => 0
                | x :: xs => Nat.max (shadow_depth x) (go xs)
                end) l = shadow_depth_list l).
  { induction l as [|x xs IH]; [reflexivity|]. cbn [shadow_depth_list].
    now rewrite <- IH. }
  rewrite G. destruct sh; [now rewrite G|reflexivity].
Qed.

Lemma elems_of_depth mk l :
  Forall (fun x => forall p par bef e,
              In e (elems p par bef x) ->
              shadow_depth (self e) <= shadow_depth x) l ->
  forall p par i bef e,
    In e (elems_of mk p par i bef l) ->
    shadow_depth (self e) <= shadow_depth_list l.
Proof.
  induction 1 as [|x xs Hx _ IH]; intros p par i bef e He; [destruct He|].
  cbn [elems_of] in He. cbn [shadow_depth_list].
  apply in_app_or in He. destruct He as [He|He].
  - apply Hx in He. lia.
  - apply IH in He. lia.
Qed.

Lemma elems_depth n :
  forall p par bef e,
    In e (elems p par bef n) -> shadow_depth (self e) <= shadow_depth n.
Proof.
  induction n as [s|t a sh ch _ IH] using node_ind'; intros p par bef e He;
    [destruct He|].
  rewrite elems_Elem in He. destruct He as [<-|He]; [reflexivity|].
  apply (elems_of_depth Child ch IH) in He.
  rewrite shadow_depth_Elem. lia.
Qed.

Lemma descendants_depth r h :
  In h (descendants r) -> shadow_depth (self h) <= root_depth r.
Proof.
  destruct r as [d|x|host sr]; cbn [descendants root_depth];
    apply elems_of_depth; apply Forall_forall; intros; eapply elems_depth;
    eassumption.
Qed.

(** The shadow root of an element under a root nests less deep than the
    root. *)
Lemma shadow_root_depth r h sr :
  In h (descendants r) -> shadow_of (self h) = Some sr ->
  root_depth (RShadow h sr) < root_depth r.
Proof.
  intros Hh Hs. apply descendants_depth in Hh. cbn [root_depth].
  destruct (self h) as [|t a sh ch]; [discriminate|].
  cbn [shadow_of] in Hs. subst sh. rewrite shadow_depth_Elem in Hh. lia.
Qed.

Lemma first_some_ext_in (A B : Type) (f g : A -> option B) l :
  (forall x, In x l -> f x = g x) -> first_some f l = first_some g l.
Proof.
  induction l as [|x l IH]; intros H; [reflexivity|].
  cbn [first_some]. rewrite (H x (or_introl eq_refl)).
  destruct (g x); [reflexivity|]. apply IH. intros y Hy. apply H. now right.
Qed.

Lemma fuel_step fuel :
  forall r s, root_depth r < fuel ->
              findInDocument (S fuel) r s = findInDocument fuel r s.
Proof.
  induction fuel as [|fuel IH]; intros r s L; [lia|].
  cbn [findInDocument]. destruct (querySelector r s); [reflexivity|].
  apply first_some_ext_in. intros h Hh.
  destruct (shadow_of (self h)) as [sr|] eqn:Hs; [|reflexivity].
  apply filter_In in Hh. destruct Hh as [Hh _].
  pose proof (shadow_root_depth r h sr Hh Hs) as D.
  cbn [findInDocument] in IH. apply IH. lia.
Qed.

Lemma fuel_enough r s fuel :
  root_depth r < fuel -> findInDocument fuel r s = findInDocument_js r s.
Proof.
  unfold findInDocument_js. intros L.
  induction fuel as [|fuel IH]; [lia|].
  destruct (Nat.eq_dec (root_depth r) fuel) as [->|N]; [reflexivity|].
  rewrite fuel_step by lia. apply IH. lia.
Qed.

Lemma findInDocument_js_facts :
  forall r s,
    (forall fuel, root_depth r < fuel ->
                  findInDocument fuel r s = findInDocument_js r s)
    /\ (forall e, findInDocument_js r s = Some e ->
                  matches s e = true /\ reachable r e)
    /\ (findInDocument_js r s = None <->
        forall e, reachable r e -> matches s e = false)
    /\ (forall e, querySelector r s = Some e ->
                  findInDocument_js r s = Some e).
Proof.
  intros r s. split; [|split; [|split]].
  - intros fuel. apply fuel_enough.
  - intros e. apply findInDocument_sound.
  - split.
    + intros H e R. destruct (matches s e) eqn:M; [|reflexivity].
      destruct (findInDocument_complete r s e R M) as [fuel0 F].
      destruct (F (Nat.max fuel0 (S (root_depth r))) (Nat.le_max_l _ _))
        as [e' E'].
      rewrite fuel_enough in E' by lia. congruence.
    + intros H. destruct (findInDocument_js r s) as [e|] eqn:E; [|reflexivity].
      apply findInDocument_sound in E. destruct E as [M R].
      rewrite (H e R) in M. discriminate.
  - intros e Q. unfold findInDocument_js. cbn [findInDocument]. now rewrite Q.
Qed.

(** X3.  [findInDocument] needs no more calls than there are levels of
    shadow roots, and its result is then the same whatever the bound.
    What it returns matches the selector and lies under the root, in the
    tree of the root or in a shadow tree, however deep; it returns null
    exactly when nothing under the root matches; and a match in the tree
    of the root itself is returned before any match in a shadow tree. *)
Theorem findInDocument_finds :
  forall r s,
    (forall fuel, root_depth r < fuel ->
                  findInDocument fuel r s = findInDocument_js r s)
    /\ (forall e, findInDocument_js r s = Some e ->
                  matches s e = true /\ reachable r e)
    /\ (findInDocument_js r s = None <->
        forall e, reachable r e -> matches s e = false)
    /\ (forall e, querySelector r s = Some e ->
                  findInDocument_js r s = Some e).
Proof. exact findInDocument_js_facts. Qed.

End DomMore.

(** ** More on strings *)

Module JsStringMore.
Import JsString Notions JsStringFacts.

Lemma dropWhile_head p s c : hd_error (dropWhile p s) = Some c -> p c = false.
Proof.
  induction s as [|x s IH]; cbn [dropWhile]; [discriminate|].
  destruct (p x) eqn:E; [exact IH|]. cbn [hd_error]. now intros [= <-].
Qed.

Lemma hd_error_app (A : Type) (a b : list A) c :
  hd_error a = Some c -> hd_error (a ++ b) = Some c.
Proof. destruct a; [discriminate|]. trivial. Qed.

Lemma rev_dropWhile_head p u c :
  hd_error (rev (dropWhile p u)) = Some c -> hd_error (rev u) = Some c.
Proof.
  intros H. rewrite <- (takeWhile_dropWhile p u) at 1.
  rewrite rev_app_distr. now apply hd_error_app.
Qed.

(** What [trim] returns has no white space at either end. *)
Lemma trim_trimmed s : trimmed (trim s).
Proof.
  unfold trimmed, trim, trimEnd, trimStart. split; intros c H.
  - apply rev_dropWhile_head in H. rewrite rev_involutive in H.
    now apply dropWhile_head in H.
  - rewrite rev_involutive in H. now apply dropWhile_head in H.
Qed.

Lemma trimmed_nil : trimmed [].
Proof. split; intros c H; discriminate. Qed.

Lemma includes_part s a k b :
  includes s (a ++ k ++ b) = true -> includes s k = true.
Proof.
  rewrite !includes_iff. intros [pre [post ->]].
  exists (pre ++ a), (b ++ post). now rewrite <- !app_assoc.
Qed.

Lemma includes_rev s k : includes s k = true -> includes (rev s) (rev k) = true.
Proof.
  rewrite !includes_iff. intros [pre [post ->]].
  exists (rev post), (rev pre). now rewrite !rev_app_distr, <- app_assoc.
Qed.

Lemma includes_lower s k :
  includes s k = true -> includes (toLowerCase s) (toLowerCase k) = true.
Proof.
  rewrite !includes_iff. intros [pre [post ->]].
  exists (toLowerCase pre), (toLowerCase post).
  unfold toLowerCase. now rewrite !map_app.
Qed.

Lemma includes_skip_spaces a t c k :
  Forall (fun x => is_space x = true) a -> is_space c = false ->
  includes (a ++ t) (c :: k) = true -> includes t (c :: k) = true.
Proof.
  intros Ha Hc. induction Ha as [|x a Hx _ IH]; [trivial|].
  rewrite <- app_comm_cons. cbn [includes startsWith].
  intros H. apply orb_true_iff in H. destruct H as [H|H]; [|now apply IH].
  apply andb_true_iff in H. destruct H as [H _].
  unfold ascii_eqb in H. apply Ascii.eqb_eq in H. congruence.
Qed.

(** A word with no white space at its ends that occurs in a string
    occurs in the trimmed string. *)
Lemma includes_trim s k :
  k <> [] -> trimmed k -> includes s k = true -> includes (trim s) k = true.
Proof.
  intros Hk [T1 T2] H.
  destruct (trim_decompose s) as [a [b [E [Ha Hb]]]]. rewrite E in H.
  destruct k as [|c k]; [contradiction|].
  apply (includes_skip_spaces a) in H;
    [|assumption|now apply T1].
  apply includes_rev in H. rewrite rev_app_distr in H.
  destruct (rev (c :: k)) as [|d k'] eqn:R.
  { apply (f_equal (@length ascii)) in R. rewrite length_rev in R.
    discriminate. }
  apply (includes_skip_spaces (rev b)) in H;
    [|now apply Forall_rev|now apply T2].
  apply includes_rev in H. rewrite rev_involutive, <- R, rev_involutive in H.
  exact H.
Qed.

End JsStringMore.

(** ** More on the quiz *)

Module QuizMore.
Import JsString Dom Oracle Quiz Notions.
Import JsStringFacts DomFacts QuizFacts JsStringMore OracleMore.

Lemma item_label_trimmed li : trimmed (item_label li).
Proof.
  unfold item_label. destruct (item_button li); [apply trim_trimmed|].
  apply trimmed_nil.
Qed.

Lemma question_from_siblings_trimmed sibs q :
  question_from_siblings sibs = Some q -> trimmed q.
Proof.
  induction sibs as [|x sibs IH]; cbn [question_from_siblings]; [discriminate|].
  match goal with |- context [if ?c then _ else _] => destruct c end;
    [|exact IH].
  intros [= <-]. apply trim_trimmed.
Qed.

(** X4.  The texts the extractor hands to the oracle are clean: the
    question has no white space at either end, and every answer is
    non-empty and has no white space at either end. *)
Theorem extracted_texts_trimmed :
  forall innerText doc,
    trimmed (getQuestionText innerText doc)
    /\ forall a, In a (getAnswers doc) -> a <> [] /\ trimmed a.
Proof.
  intros innerText doc. split.
  - unfold getQuestionText.
    destruct (querySelector (RDoc doc) sel_article) as [article|];
      [|apply trimmed_nil].
    match goal with
    | |- context [question_from_siblings ?l] =>
        destruct (question_from_siblings l) as [q|] eqn:E
    end.
    + now apply question_from_siblings_trimmed in E.
    + apply trim_trimmed.
  - intros a Ha. unfold getAnswers in Ha.
    destruct (answer_items doc) as [items|]; [|destruct Ha].
    apply filter_In in Ha. destruct Ha as [Ha T]. split.
    + destruct a; [discriminate|discriminate].
    + apply in_map_iff in Ha. destruct Ha as [li [<- _]].
      apply item_label_trimmed.
Qed.

Lemma somes_length (A B : Type) (f : A -> option B) l :
  length (somes (map f l)) <= length l.
Proof.
  induction l as [|x l IH]; [reflexivity|].
  cbn [map somes flat_map]. rewrite length_app.
  unfold somes in IH. destruct (f x); cbn [length]; lia.
Qed.

(** X5.  The classifier and the extractor agree: a page is a quiz
    exactly when [getAnswerButtons] returns two buttons or more, and
    there are never more answers than buttons. *)
Theorem isQuizPage_iff_two_buttons :
  forall doc,
    (isQuizPage doc = true <-> 2 <= length (getAnswerButtons doc))
    /\ length (getAnswers doc) <= length (getAnswerButtons doc).
Proof.
  intros doc. split; [|apply answers_le_buttons].
  unfold isQuizPage, getAnswerButtons.
  destruct (answer_items doc) as [items|]; [|cbn [length]; split; [discriminate|lia]].
  pose proof (somes_length _ _ item_button items) as L.
  destruct (length items <? 2) eqn:L1.
  - apply Nat.ltb_lt in L1. split; [discriminate|lia].
  - destruct (length (somes (map item_button items)) <? 2) eqn:L2.
    + apply Nat.ltb_lt in L2. split; [discriminate|lia].
    + apply Nat.ltb_ge in L2. split; [trivial|reflexivity].
Qed.

Lemma somes_all (A B : Type) (f : A -> option B) l :
  (forall x, In x l -> exists b, f x = Some b) ->
  map (@Some B) (somes (map f l)) = map f l.
Proof.
  induction l as [|x l IH]; intros H; [reflexivity|].
  cbn [map somes flat_map].
  destruct (H x (or_introl eq_refl)) as [b ->]. cbn [app map].
  f_equal. apply IH. intros y Hy. apply H. now right.
Qed.

Lemma answers_buttons_at :
  forall doc items,
    answer_items doc = Some items ->
    (forall li b, In li items -> item_button li = Some b ->
                  truthy (item_label li) = true) ->
    length (getAnswers doc) = length (getAnswerButtons doc)
    /\ forall i a,
        nth_error (getAnswers doc) i = Some a ->
        exists li b,
          In li items /\ item_label li = a /\ item_button li = Some b
          /\ nth_error (getAnswerButtons doc) i = Some b.
Proof.
  intros doc items Hi H. unfold getAnswers, getAnswerButtons. rewrite Hi.
  destruct (answers_buttons_aligned items H) as [E1 [E2 E3]].
  split; [exact E3|]. intros i a Ha.
  set (kept := filter (fun li => truthy (item_label li)) items) in *.
  rewrite E1, nth_error_map in Ha.
  destruct (nth_error kept i) as [li|] eqn:K; [|discriminate].
  injection Ha as <-.
  assert (Hin : In li kept) by (eapply nth_error_In; eassumption).
  apply filter_In in Hin. destruct Hin as [Hin T].
  destruct (item_label_button li T) as [b Hb].
  exists li, b. repeat split; try assumption.
  assert (M : map (@Some element) (somes (map item_button kept))
              = map item_button kept).
  { apply somes_all. intros x Hx. apply filter_In in Hx.
    now apply item_label_button. }
  rewrite E2.
  apply (f_equal (fun l => nth_error l i)) in M.
  rewrite !nth_error_map, K in M. cbn [option_map] in M.
  destruct (nth_error (somes (map item_button kept)) i); [|discriminate].
  cbn [option_map] in M. congruence.
Qed.

(** X6.  Where every list item with a button has a label, answers and
    buttons go together: there are as many of the one as of the other,
    and the answer at a place is the label of the list item that holds
    the button at the same place. *)
Theorem answers_match_buttons :
  forall doc items,
    answer_items doc = Some items ->
    (forall li b, In li items -> item_button li = Some b ->
                  truthy (item_label li) = true) ->
    length (getAnswers doc) = length (getAnswerButtons doc)
    /\ forall i a,
        nth_error (getAnswers doc) i = Some a ->
        exists li b,
          In li items /\ item_label li = a /\ item_button li = Some b
          /\ nth_error (getAnswerButtons doc) i = Some b.
Proof. exact answers_buttons_at. Qed.

Lemma answers_match_buttons_witness :
  length (getAnswers Samples.quiz) = length (getAnswerButtons Samples.quiz).
Proof.
  destruct (answer_items Samples.quiz) as [items|] eqn:E; [|discriminate].
  destruct (answers_match_buttons Samples.quiz items E) as [L _]; [|exact L].
  vm_compute in E. injection E as <-.
  intros li b Hin _.
  repeat (destruct Hin as [<-|Hin]; [reflexivity|]). destruct Hin.
Defined.

(** X7.  With [callGroqAPI] for an oracle, a solve attempt clicks at
    most one element, and only an answer button whose place is the index
    the oracle returned, an index that is also a place of an answer; it
    reports success exactly when it has clicked; and its only failures
    are "Could not extract question or answers" and "Invalid API
    response (got null)", an index out of range not being possible. *)
Theorem solveCurrentQuestion_with_callGroqAPI :
  forall innerText fetch doc stored apiKey,
    let solved := solveCurrentQuestion innerText (callGroqAPI fetch)
                                       doc stored apiKey in
    (fst solved = []
     \/ exists b k,
         fst solved = [loc b]
         /\ nth_error (getAnswerButtons doc) (Z.to_nat (k - 1)) = Some b
         /\ (1 <= k <= Z.of_nat (length (getAnswers doc)))%Z
         /\ snd solved = Return (Success k))
    /\ (forall k, snd solved = Return (Success k) -> fst solved <> [])
    /\ (forall e, snd solved = Return (Failure e) ->
                  e = could_not_extract \/ e = invalid_response None).
Proof.
  intros innerText fetch doc stored apiKey solved. subst solved.
  unfold solveCurrentQuestion, solve_extract.
  pose proof (answers_le_buttons doc) as L.
  match goal with |- context [if ?c then _ else _] => destruct c end.
  { cbn [fst snd]. split; [now left|]. split; [discriminate|].
    intros e [= <-]. now left. }
  cbn [ex_question ex_answers ex_buttons].
  set (q := getQuestionText innerText doc).
  destruct (callGroqAPI_cases fetch apiKey (model_or_default stored) q
                                (getAnswers doc)) as [Hbad Hgood].
  destruct (ok (fetch (make_request apiKey (model_or_default stored) q
                                    (getAnswers doc)))).
  - destruct (Hgood eq_refl) as [r [-> [Hr _]]].
    destruct r as [k|].
    + specialize (Hr k eq_refl). unfold solve_finish.
      replace (k <? 1)%Z with false by (symmetry; apply Z.ltb_ge; lia).
      replace (Z.of_nat (length (getAnswerButtons doc)) <? k)%Z with false
        by (symmetry; apply Z.ltb_ge; lia).
      cbn [orb].
      destruct (nth_error_in_range _ (getAnswerButtons doc) k) as [b Hb];
        [lia|].
      rewrite Hb. cbn [fst snd]. split; [|split].
      * right. now exists b, k.
      * discriminate.
      * discriminate.
    + cbn [solve_finish fst snd]. split; [now left|]. split; [discriminate|].
      intros e [= <-]. now right.
  - destruct (Hbad eq_refl) as [msg [-> _]]. cbn [fst snd].
    split; [now left|]. split; discriminate.
Qed.

(** X8.  The Next control is never the Check Answer control: the button
    [nextButton] returns does not have "Check Answer" in its text, and so
    it is not the button [checkAnswerBtn] returns. *)
Theorem nextButton_not_check :
  forall doc b,
    nextButton doc = Some b ->
    includes (text_of b) (lit "Check Answer") = false
    /\ checkAnswerBtn doc <> Some b.
Proof.
  intros doc b H.
  assert (N : includes (text_of b) (lit "Check Answer") = false).
  { unfold nextButton, find_first in H. apply find_some in H.
    destruct H as [_ H]. apply andb_true_iff in H. destruct H as [_ H].
    apply negb_true_iff in H.
    destruct (includes (text_of b) (lit "Check Answer")) eqn:C; [|reflexivity].
    apply (includes_part _ [] (lit "Check") (lit " Answer")) in C.
    apply (includes_trim _ (lit "Check")) in C.
    - apply includes_lower in C.
      change (toLowerCase (lit "Check")) with (lit "check") in C. congruence.
    - discriminate.
    - split; intros c [= <-]; reflexivity. }
  split; [exact N|]. intros C. unfold checkAnswerBtn, find_first in C.
  apply find_some in C. destruct C as [_ C]. congruence.
Qed.

Lemma nextButton_not_check_witness :
  checkAnswerBtn Samples.quiz
  <> nextButton Samples.quiz.
Proof.
  destruct (nextButton Samples.quiz) as [b|] eqn:E; [|discriminate].
  destruct (nextButton_not_check Samples.quiz b E) as [_ N]. exact N.
Defined.

End QuizMore.

(** ** More on the polls and the Run-All loop *)

Module RunAllMore.
Import JsString Dom Oracle Quiz RunAll LoopCounts.
Import JsStringFacts DomFacts RunAllFacts.

Lemma poll_bounded ready w timeout start :
  (forall u, (now w u + 200 <= now w (S u))%Z) ->
  forall fuel t,
    (timeout <= now w t - start + 200 * Z.of_nat fuel)%Z ->
    exists r,
      poll ready w timeout start (S fuel) t = Some r
      /\ match r with
         | Some b =>
             exists t', t <= t' <= t + fuel
                        /\ ready (page w t') = Some b
                        /\ (now w t' - start < timeout)%Z
                        /\ forall u, t <= u < t' -> ready (page w u) = None
         | None => forall u, t <= u ->
                             (now w u - start < timeout)%Z ->
                             ready (page w u) = None
         end.
Proof.
  intros Hclock.
  assert (Hmono : forall u v, u <= v -> (now w u <= now w v)%Z).
  { intros u v L. induction L as [|v L IH]; [lia|].
    specialize (Hclock v). lia. }
  induction fuel as [|fuel IH]; intros t Hf.
  - cbn [poll].
    destruct (now w t - start <? timeout)%Z eqn:C;
      [apply Z.ltb_lt in C; lia|].
    apply Z.ltb_ge in C. exists None. split; [reflexivity|].
    intros u L T. specialize (Hmono t u L). lia.
  - change (poll ready w timeout start (S (S fuel)) t)
      with (if (now w t - start <? timeout)%Z
            then match ready (page w t) with
                 | Some btn => Some (Some btn)
                 | None => poll ready w timeout start (S fuel) (S t)
                 end
            else Some None).
    destruct (now w t - start <? timeout)%Z eqn:C.
    + apply Z.ltb_lt in C. destruct (ready (page w t)) as [b|] eqn:R.
      * exists (Some b). split; [reflexivity|]. exists t.
        repeat split; try assumption; lia.
      * destruct (IH (S t)) as [r [E P]];
          [specialize (Hclock t); lia|].
        exists r. split; [exact E|]. destruct r as [b|].
        -- destruct P as [t' [L [R' [T F]]]]. exists t'.
           repeat split; try assumption; try lia.
           intros u U. destruct (Nat.eq_dec u t) as [->|N]; [exact R|].
           apply F. lia.
        -- intros u U T. destruct (Nat.eq_dec u t) as [->|N]; [exact R|].
           apply P; [lia|exact T].
    + apply Z.ltb_ge in C. exists None. split; [reflexivity|].
      intros u L T. specialize (Hmono t u L). lia.
Qed.

(** X9.  The polls are bounded.  With a clock on which each
    [waitFor(200)] lasts 200 ms or more, the poll for Check Answer with
    its 5000 ms ends within 26 looks and the poll for Next with 8000 ms
    within 41: each returns the button of the first look at which the
    control was ready, a look made before the time was up, or null when
    the control was ready at no look before the time was up. *)
Theorem polls_bounded :
  forall w t,
    (forall u, (now w u + 200 <= now w (S u))%Z) ->
    (exists r,
        waitForCheckAnswerEnabled w 5000 26 t = Some r
        /\ match r with
           | Some b =>
               exists t', t <= t' <= t + 25
                          /\ check_ready (page w t') = Some b
                          /\ (now w t' - now w t < 5000)%Z
                          /\ forall u, t <= u < t' ->
                                       check_ready (page w u) = None
           | None => forall u, t <= u -> (now w u - now w t < 5000)%Z ->
                               check_ready (page w u) = None
           end)
    /\ (exists r,
           waitForNextButton w 8000 41 t = Some r
           /\ match r with
              | Some b =>
                  exists t', t <= t' <= t + 40
                             /\ next_ready (page w t') = Some b
                             /\ (now w t' - now w t < 8000)%Z
                             /\ forall u, t <= u < t' ->
                                          next_ready (page w u) = None
              | None => forall u, t <= u -> (now w u - now w t < 8000)%Z ->
                                  next_ready (page w u) = None
              end).
Proof.
  intros w t H. split.
  - apply (poll_bounded check_ready w 5000 (now w t) H 25 t). lia.
  - apply (poll_bounded next_ready w 8000 (now w t) H 40 t). lia.
Qed.

Lemma polls_bounded_witness :
  exists r, waitForNextButton Samples.steady 8000 41 0 = Some r.
Proof.
  destruct (polls_bounded Samples.steady 0) as [_ [r [E _]]].
  - intros u. cbn [now Samples.steady]. lia.
  - now exists r.
Defined.

Section LoopMore.
Variable innerText : node -> jsstring.
Variable apiKey : jsstring.
Variable w : env.

Ltac branches :=
  repeat match goal with
         | |- context [if ?c then _ else _] => destruct c
         | |- context [match ?x with _ => _ end] => destruct x
         end.

Lemma resume_finally s :
  at_pc s <> Done -> at_pc (resume innerText apiKey w s) = Done ->
  isAutoRunning (resume innerText apiKey w s) = false
  /\ exists l, log (resume innerText apiKey w s)
               = l ++ [SetStatus (lit "Ready")].
Proof.
  unfold resume, loop_head, poll_check, poll_next. intros N.
  destruct (at_pc s) eqn:P; try contradiction; branches;
    cbn [goto emit finally at_pc isAutoRunning log];
    try discriminate; intros _; (split; [reflexivity|]); now eexists.
Qed.

Lemma solve_finish_clicks buttons i :
  match solve_finish buttons i with
  | (clicks, Success _) => length clicks = 1
  | (clicks, Failure _) => clicks = []
  end.
Proof.
  unfold solve_finish. destruct i as [k|]; [|reflexivity].
  destruct ((k <? 1)%Z || (Z.of_nat (length buttons) <? k)%Z); [reflexivity|].
  destruct (nth_error buttons (Z.to_nat (k - 1))); reflexivity.
Qed.

Lemma times_emit p a s :
  times p (emit a s) = times p s + length (filter p a).
Proof. unfold times. cbn [emit log]. now rewrite filter_app, length_app. Qed.

Lemma times_finally p s :
  p (SetStatus (lit "Ready")) = false -> times p (finally s) = times p s.
Proof.
  intros H. unfold times. cbn [finally log].
  rewrite filter_app, length_app. cbn [filter]. rewrite H. cbn [length]. lia.
Qed.

Lemma times_goto p q s : times p (goto q s) = times p s.
Proof. reflexivity. Qed.

Lemma times_next_tick p s : times p (next_tick s) = times p s.
Proof. reflexivity. Qed.

Lemma filter_clicks t clicks :
  length (filter (is_click t) (map (Click AnswerButton) clicks))
  = match t with AnswerButton => length clicks | _ => 0 end.
Proof.
  induction clicks as [|h l IH]; [now destruct t|].
  cbn [map filter]. destruct t; cbn [is_click length] in *; lia.
Qed.

Lemma filter_clicks_other p clicks :
  (forall h, p (Click AnswerButton h) = false) ->
  length (filter p (map (Click AnswerButton) clicks)) = 0.
Proof.
  intros H. induction clicks as [|h l IH]; [reflexivity|].
  cbn [map filter]. now rewrite H.
Qed.

Ltac counts :=
  unfold in_step in *;
  cbn [goto emit finally at_pc] in *;
  repeat rewrite ?times_finally, ?times_goto, ?times_emit by reflexivity;
  cbn [filter length is_extract is_ask is_click] in *;
  lia.

Lemma poll_next_in_step start s :
  (times (is_click NextButton) s + 1 <= times (is_click AnswerButton) s
   /\ times (is_click CheckButton) s <= times (is_click AnswerButton) s
   /\ times (is_click AnswerButton) s <= times is_ask s
   /\ times is_ask s <= times is_extract s) ->
  in_step (poll_next w start s).
Proof.
  intros H. unfold poll_next. branches; counts.
Qed.

Lemma poll_check_in_step start s :
  (times (is_click NextButton) s + 1 <= times (is_click AnswerButton) s
   /\ times (is_click CheckButton) s + 1 <= times (is_click AnswerButton) s
   /\ times (is_click AnswerButton) s <= times is_ask s
   /\ times is_ask s <= times is_extract s) ->
  in_step (poll_check w start s).
Proof.
  intros H. unfold poll_check.
  destruct (now w (tick s) - start <? 5000)%Z.
  - destruct (check_ready (page w (tick s))); counts.
  - apply poll_next_in_step. lia.
Qed.

Lemma loop_head_in_step s :
  (times (is_click NextButton) s <= times (is_click AnswerButton) s
   /\ times (is_click CheckButton) s <= times (is_click AnswerButton) s
   /\ times (is_click AnswerButton) s <= times is_ask s
   /\ times is_ask s <= times is_extract s) ->
  in_step (loop_head innerText w s).
Proof.
  intros H. unfold loop_head. branches; counts.
Qed.

Lemma resume_in_step s : in_step s -> in_step (resume innerText apiKey w s).
Proof.
  intros H. unfold resume.
  destruct (at_pc s) eqn:P; unfold in_step in H; rewrite P in H.
  - now apply loop_head_in_step.
  - branches; counts.
  - destruct (oracle w (tick s) apiKey model (ex_question ex) (ex_answers ex))
      as [msg|answerIndex]; [counts|].
    pose proof (solve_finish_clicks (ex_buttons ex) answerIndex) as F.
    destruct (solve_finish (ex_buttons ex) answerIndex) as [clicks [k|e]].
    + unfold in_step. cbn [goto emit at_pc].
      rewrite !times_goto, !times_emit, !filter_clicks.
      rewrite !filter_clicks_other by reflexivity. lia.
    + counts.
  - apply poll_check_in_step. lia.
  - apply poll_check_in_step. lia.
  - apply poll_next_in_step. lia.
  - apply poll_next_in_step. lia.
  - now apply loop_head_in_step.
  - unfold in_step. now rewrite P.
Qed.

Lemma handle_click_in_step c s : in_step s -> in_step (handle_click c s).
Proof.
  assert (T : forall p, p (SetStatus (lit "Stopping...")) = false ->
                        times p (handle_click c s) = times p s).
  { intros p Hp. unfold times. destruct c; cbn [handle_click stop log];
      [reflexivity| |now destruct (isAutoRunning s)].
    rewrite filter_app, length_app. cbn [filter]. rewrite Hp. cbn [length]. lia. }
  unfold in_step. rewrite handle_click_pc, !T by reflexivity. trivial.
Qed.

Lemma turn_in_step c s : in_step s -> in_step (turn innerText apiKey w c s).
Proof.
  intros H. unfold turn.
  apply handle_click_in_step with (c := c) in H. apply resume_in_step in H.
  exact H.
Qed.
End LoopMore.

(** X10.  However the loop ends (the page is no quiz any more, Stop, a
    failed extraction, an error or an invalid answer of the oracle, no
    Next control), the turn that ends it lowers the flag and writes the
    status "Ready" last. *)
Theorem loop_ends_ready :
  forall innerText apiKey w c s,
    at_pc s <> Done ->
    at_pc (turn innerText apiKey w c s) = Done ->
    isAutoRunning (turn innerText apiKey w c s) = false
    /\ exists l, log (turn innerText apiKey w c s)
                 = l ++ [SetStatus (lit "Ready")].
Proof.
  intros innerText apiKey w c s N D. unfold turn in *.
  cbn [next_tick at_pc isAutoRunning log] in *.
  apply resume_finally; [|exact D].
  now rewrite handle_click_pc.
Qed.

Lemma loop_ends_ready_witness :
  at_pc (run Samples.no_innerText (lit "key") Samples.steady Samples.stop_at_2
             6 Samples.raised) = Done
  /\ isAutoRunning (run Samples.no_innerText (lit "key") Samples.steady
                        Samples.stop_at_2 6 Samples.raised) = false.
Proof.
  split; [reflexivity|].
  apply (loop_ends_ready Samples.no_innerText (lit "key") Samples.steady
           (Samples.stop_at_2 5)
           (run Samples.no_innerText (lit "key") Samples.steady
                Samples.stop_at_2 5 Samples.raised)).
  - vm_compute. discriminate.
  - reflexivity.
Defined.

(** X11.  The steps of the loop keep their order, whatever the page, the
    oracle and the clicks on the panel do: from the start of a run on,
    the loop has asked the oracle no more often than it has extracted,
    clicked an answer no more often than it has asked, and clicked Check
    Answer and Next no more often than it has clicked an answer. *)
Theorem loop_steps_in_order :
  forall innerText apiKey w clicks n,
    let s := run innerText apiKey w clicks n Samples.raised in
    times (is_click NextButton) s <= times (is_click AnswerButton) s
    /\ times (is_click CheckButton) s <= times (is_click AnswerButton) s
    /\ times (is_click AnswerButton) s <= times is_ask s
    /\ times is_ask s <= times is_extract s.
Proof.
  intros innerText apiKey w clicks n s.
  assert (I : in_step s).
  { subst s. induction n as [|n IH].
    - unfold in_step. cbn. lia.
    - cbn [run]. now apply turn_in_step. }
  unfold in_step in I. destruct (at_pc s); lia.
Qed.

End RunAllMore.

(** ** More on the video watchdog *)

Module VideoMore.
Import JsString Video VideoFacts.

Lemma near_end_iff r :
  near_end r = true
  <-> exists d, duration r = Fin d /\ (0 < d)%Q
                /\ (0 <= currentTime r)%Q
                /\ (d - 10 <= currentTime r)%Q.
Proof.
  unfold near_end, Qmax, ADVANCE_SECONDS_BEFORE_END.
  destruct (duration r) as [| |d].
  - split; [discriminate|intros [d [E _]]; discriminate].
  - split; [discriminate|intros [d [E _]]; discriminate].
  - rewrite andb_true_iff, negb_true_iff. split.
    + intros [P T]. exists d. split; [reflexivity|].
      assert (Pd : (0 < d)%Q).
      { apply Qnot_le_lt. intros L. apply Qle_bool_iff in L. congruence. }
      split; [exact Pd|].
      destruct (Qle_bool 0 (d - 10)) eqn:M; apply Qle_bool_iff in T.
      * apply Qle_bool_iff in M. split; [|exact T].
        eapply Qle_trans; eassumption.
      * split; [exact T|].
        assert (L : (d - 10 < 0)%Q).
        { apply Qnot_le_lt. intros L. apply Qle_bool_iff in L. congruence. }
        apply Qlt_le_weak. eapply Qlt_le_trans; eassumption.
    + intros [d' [E [Pd [T0 T]]]]. injection E as <-. split.
      * destruct (Qle_bool d 0) eqn:L; [|reflexivity].
        apply Qle_bool_iff in L. exfalso. eapply Qlt_not_le; eassumption.
      * destruct (Qle_bool 0 (d - 10)); now apply Qle_bool_iff.
Qed.

(** X13.  When the time test of [checkTime] holds: the duration is a
    positive finite number and the current time, not negative, is no
    more than ten seconds from the end.  A duration that is NaN, infinite
    or not positive never triggers, and a video of ten seconds or less
    triggers at the first reading. *)
Theorem near_end_when :
  forall r,
    (near_end r = true
     <-> exists d, duration r = Fin d /\ (0 < d)%Q
                   /\ (0 <= currentTime r)%Q
                   /\ (d - 10 <= currentTime r)%Q)
    /\ (forall d, duration r = Fin d -> (0 < d)%Q -> (d <= 10)%Q ->
                  (0 <= currentTime r)%Q -> near_end r = true).
Proof.
  intros r. split; [apply near_end_iff|].
  intros d E P S T. apply near_end_iff. exists d. split; [exact E|].
  split; [exact P|]. split; [exact T|].
  apply Qle_trans with (y := 0%Q); [|exact T].
  apply (Qplus_le_l _ _ 10). ring_simplify. exact S.
Qed.

End VideoMore.

(** ** The identifier inside the injected script *)

Module EscapeFacts.
Import JsString Escape JsStringFacts.

Lemma flat_map_flat_map (A B C : Type) (f : A -> list B) (g : B -> list C) l :
  flat_map g (flat_map f l) = flat_map (fun x => flat_map g (f x)) l.
Proof.
  induction l as [|x l IH]; [reflexivity|].
  cbn [flat_map]. now rewrite flat_map_app, IH.
Qed.

Lemma ascii_eqb_neq a b : ascii_eqb a b = false <-> a <> b.
Proof. unfold ascii_eqb. apply Ascii.eqb_neq. Qed.

(** The three passes do not get in each other's way: together they
    replace each character of the identifier once. *)
Lemma safeId_units s : safeId s = flat_map escape_unit s.
Proof.
  unfold safeId, replace_all. rewrite !flat_map_flat_map.
  apply flat_map_ext. intros c. unfold escape_unit.
  destruct (ascii_eqb c backslash) eqn:B; [reflexivity|].
  cbn [flat_map app].
  destruct (ascii_eqb c dquote) eqn:Q; [reflexivity|].
  cbn [flat_map app].
  destruct (ascii_eqb c less_than); reflexivity.
Qed.

Lemma literal_value_unit c rest :
  code c <> 10 -> code c <> 13 ->
  literal_value (escape_unit c ++ rest)
  = option_map (cons c) (literal_value rest).
Proof.
  intros N10 N13. unfold escape_unit.
  destruct (ascii_eqb c backslash) eqn:B.
  { unfold ascii_eqb in B. apply Ascii.eqb_eq in B. subst c. reflexivity. }
  destruct (ascii_eqb c dquote) eqn:Q.
  { unfold ascii_eqb in Q. apply Ascii.eqb_eq in Q. subst c. reflexivity. }
  destruct (ascii_eqb c less_than) eqn:L.
  { unfold ascii_eqb in L. apply Ascii.eqb_eq in L. subst c. reflexivity. }
  cbn [app literal_value]. rewrite B, Q. cbn [orb].
  apply Nat.eqb_neq in N10, N13. now rewrite N10, N13.
Qed.

Lemma escape_unit_clean c x :
  In x (escape_unit c) -> x <> less_than /\ (x = dquote -> c = dquote).
Proof.
  unfold escape_unit.
  destruct (ascii_eqb c backslash) eqn:B; [|destruct (ascii_eqb c dquote) eqn:Q;
    [|destruct (ascii_eqb c less_than) eqn:L]].
  - intros [<-|[<-|[]]]; split; discriminate.
  - unfold ascii_eqb in Q. apply Ascii.eqb_eq in Q. subst c.
    intros [<-|[<-|[]]]; split; try discriminate; trivial.
  - cbn. intros H.
    repeat (destruct H as [<-|H]; [split; discriminate|]). destruct H.
  - intros [<-|[]]. apply ascii_eqb_neq in L. split; [exact L|trivial].
Qed.

(** X15.  The escaping of the identifier that goes into the injected
    script is faithful and safe: read back as the body of a string
    literal, the escaped identifier is the identifier itself, for every
    identifier without a line break; and the escaped text holds no [<],
    so that no closing tag can sit in it. *)
Theorem safeId_round_trip :
  forall s,
    (no_line_break s -> literal_value (safeId s) = Some s)
    /\ ~ In less_than (safeId s).
Proof.
  intros s. rewrite safeId_units. split.
  - induction s as [|c s IH]; intros H; [reflexivity|].
    cbn [flat_map]. destruct (H c (or_introl eq_refl)) as [N10 N13].
    rewrite literal_value_unit by assumption.
    rewrite IH; [reflexivity|]. intros x Hx. apply H. now right.
  - intros H. apply in_flat_map in H. destruct H as [c [_ H]].
    apply escape_unit_clean in H. now destruct H.
Qed.

Lemma safeId_round_trip_witness :
  literal_value (safeId (lit "a\b<c")) = Some (lit "a\b<c").
Proof.
  apply (safeId_round_trip (lit "a\b<c")).
  intros c H. cbn in H.
  repeat (destruct H as [<-|H]; [split; discriminate|]). destruct H.
Defined.

End EscapeFacts.

(** ** Working-out pages *)

Module WorkingOutFacts.
Import JsString Regex Dom Oracle Quiz Notions MathField WorkingOut.
Import JsStringFacts DomFacts QuizFacts JsStringMore DomMore RunAllMore.

Lemma or_str_self s : or_str (Some s) [] = s.
Proof. now destruct s. Qed.

Lemma find_first_Some_iff (A : Type) (f : A -> bool) l :
  (exists x, find_first f l = Some x) <-> exists x, In x l /\ f x = true.
Proof.
  unfold find_first. split.
  - intros [x H]. exists x. now apply find_some in H.
  - intros [x [Hx Fx]]. destruct (find f l) as [y|] eqn:E; [now exists y|].
    rewrite (find_none _ _ E x Hx) in Fx. discriminate.
Qed.

(** X16.  A page is a working-out page exactly when a [math-field] lies
    somewhere under the document, in the light DOM or in a shadow tree
    however deep, and a button of the light DOM has "Self-mark" in its
    text; the second search of line 49, which looks in the light DOM
    only, never finds what the first one has missed. *)
Theorem isWorkingOutPage_iff :
  forall doc,
    (isWorkingOutPage doc = true
     <-> (exists mf, reachable (RDoc doc) mf
                     /\ matches sel_mathField mf = true)
         /\ (exists b, In b (querySelectorAll (RDoc doc) sel_button)
                       /\ includes (text_of b) (lit "Self-mark") = true))
    /\ (findInDocument_js (RDoc doc) sel_mathField = None ->
        querySelector (RDoc doc) sel_mathField = None).
Proof.
  intros doc.
  destruct (findInDocument_js_facts (RDoc doc) sel_mathField)
    as [_ [Sound [NoneIff Light]]].
  assert (Second : findInDocument_js (RDoc doc) sel_mathField = None ->
                   querySelector (RDoc doc) sel_mathField = None).
  { intros F. destruct (querySelector (RDoc doc) sel_mathField) as [e|] eqn:Q;
      [|reflexivity].
    rewrite (Light e eq_refl) in F. discriminate. }
  split; [|exact Second].
  assert (Btn : (exists b, selfMarkBtn doc = Some b)
                <-> exists b, In b (querySelectorAll (RDoc doc) sel_button)
                              /\ includes (text_of b) (lit "Self-mark") = true).
  { unfold selfMarkBtn. rewrite find_first_Some_iff.
    split; intros [b [H1 H2]]; exists b; rewrite or_str_self in *; now split. }
  unfold isWorkingOutPage.
  destruct (findInDocument_js (RDoc doc) sel_mathField) as [mf|] eqn:F.
  - cbn [or_else]. destruct (Sound mf eq_refl) as [M R].
    destruct (selfMarkBtn doc) as [b|] eqn:S.
    + split; [intros _|reflexivity]. split; [now exists mf|].
      apply Btn. now exists b.
    + split; [discriminate|]. intros [_ B]. apply Btn in B.
      destruct B as [b B]. discriminate.
  - cbn [or_else]. rewrite (Second eq_refl).
    split; [discriminate|]. intros [[mf [R M]] _].
    destruct NoneIff as [N _]. rewrite (N eq_refl mf R) in M. discriminate.
Qed.

Lemma push_paragraph_grows parts p :
  exists l, push_paragraph parts p = parts ++ l.
Proof.
  unfold push_paragraph.
  match goal with |- context [if ?c then _ else _] => destruct c end;
    [now eexists|exists []; now rewrite app_nil_r].
Qed.

Lemma push_image_grows parts i : exists l, push_image parts i = parts ++ l.
Proof.
  unfold push_image. destruct (getAttribute (self i) (lit "alt")) as [a|].
  - destruct (truthy (trim a)); [now eexists|exists []; now rewrite app_nil_r].
  - exists []. now rewrite app_nil_r.
Qed.

Lemma fold_grows (A : Type) (f : list jsstring -> A -> list jsstring) :
  (forall parts x, exists l, f parts x = parts ++ l) ->
  forall xs parts, exists l, fold_left f xs parts = parts ++ l.
Proof.
  intros H xs. induction xs as [|x xs IH]; intros parts.
  - exists []. now rewrite app_nil_r.
  - cbn [fold_left]. destruct (H parts x) as [l1 ->].
    destruct (IH (parts ++ l1)) as [l2 ->]. exists (l1 ++ l2).
    now rewrite app_assoc.
Qed.

Lemma push_root_grows parts r : exists l, push_root parts r = parts ++ l.
Proof.
  unfold push_root.
  destruct (fold_grows _ push_paragraph push_paragraph_grows
              (querySelectorAll_any (RElem r) sel_paragraphs) parts) as [l1 ->].
  destruct (fold_grows _ push_image push_image_grows
              (querySelectorAll (RElem r) sel_img_alt) (parts ++ l1))
    as [l2 ->].
  exists (l1 ++ l2). now rewrite app_assoc.
Qed.

Lemma has_part_In parts t : has_part parts t = true <-> In t parts.
Proof.
  unfold has_part. rewrite existsb_exists. split.
  - intros [x [Hx E]]. apply str_eqb_eq in E. now subst.
  - intros H. exists t. split; [exact H|now apply str_eqb_eq].
Qed.

Lemma push_paragraph_holds parts p :
  trim (text_of p) <> [] -> In (trim (text_of p)) (push_paragraph parts p).
Proof.
  intros N. unfold push_paragraph.
  destruct (trim (text_of p)) as [|c t] eqn:E; [contradiction|].
  cbn [truthy andb].
  destruct (has_part parts (c :: t)) eqn:H; cbn [negb].
  - now apply has_part_In.
  - apply in_or_app. right. now left.
Qed.

Lemma fold_paragraphs_hold ps :
  forall parts p,
    In p ps -> trim (text_of p) <> [] ->
    In (trim (text_of p)) (fold_left push_paragraph ps parts).
Proof.
  induction ps as [|x ps IH]; intros parts p Hin N; [destruct Hin|].
  destruct Hin as [->|Hp].
  - cbn [fold_left].
    destruct (fold_grows _ push_paragraph push_paragraph_grows ps
                         (push_paragraph parts p)) as [l ->].
    apply in_or_app. left. now apply push_paragraph_holds.
  - cbn [fold_left]. now apply IH.
Qed.

Lemma fold_roots_hold rs :
  forall parts r p,
    In r rs -> In p (querySelectorAll_any (RElem r) sel_paragraphs) ->
    trim (text_of p) <> [] ->
    In (trim (text_of p)) (fold_left push_root rs parts).
Proof.
  induction rs as [|x rs IH]; intros parts r p Hin Hp N; [destruct Hin|].
  destruct Hin as [->|Hr].
  - cbn [fold_left].
    destruct (fold_grows _ push_root push_root_grows rs (push_root parts r))
      as [l ->].
    apply in_or_app. left. unfold push_root.
    destruct (fold_grows _ push_image push_image_grows
                (querySelectorAll (RElem r) sel_img_alt)
                (fold_left push_paragraph
                   (querySelectorAll_any (RElem r) sel_paragraphs) parts))
      as [l' ->].
    apply in_or_app. left. now apply fold_paragraphs_hold.
  - cbn [fold_left]. now apply (IH _ r).
Qed.

(** What holds of the parts all along: none is empty. *)
Lemma fold_Forall (A : Type) (P : jsstring -> Prop)
      (f : list jsstring -> A -> list jsstring) :
  (forall parts x, Forall P parts -> Forall P (f parts x)) ->
  forall xs parts, Forall P parts -> Forall P (fold_left f xs parts).
Proof.
  intros H xs. induction xs as [|x xs IH]; intros parts F; [exact F|].
  cbn [fold_left]. apply IH. now apply H.
Qed.

Lemma push_root_nonempty parts r :
  Forall (fun t => t <> []) parts -> Forall (fun t => t <> []) (push_root parts r).
Proof.
  intros F. unfold push_root. apply fold_Forall.
  - intros ps i Fp. unfold push_image.
    destruct (getAttribute (self i) (lit "alt")) as [a|]; [|exact Fp].
    destruct (truthy (trim a)); [|exact Fp].
    apply Forall_app. split; [exact Fp|]. constructor; [discriminate|constructor].
  - apply fold_Forall; [|exact F].
    intros ps p Fp. unfold push_paragraph.
    destruct (trim (text_of p)) as [|c t]; [exact Fp|]. cbn [truthy andb].
    destruct (negb (has_part ps (c :: t))); [|exact Fp].
    apply Forall_app. split; [exact Fp|]. constructor; [discriminate|constructor].
Qed.

Lemma push_paragraph_NoDup parts p :
  NoDup parts -> NoDup (push_paragraph parts p).
Proof.
  intros N. unfold push_paragraph.
  destruct (truthy (trim (text_of p))); cbn [andb]; [|exact N].
  destruct (has_part parts (trim (text_of p))) eqn:H; cbn [negb]; [exact N|].
  apply NoDup_app; [exact N|repeat constructor; intros []|].
  intros x Hx [<-|[]]. apply has_part_In in Hx. congruence.
Qed.

Lemma fold_same (A : Type) (f : list jsstring -> A -> list jsstring) xs :
  forall parts, (forall ps x, In x xs -> f ps x = ps) ->
                fold_left f xs parts = parts.
Proof.
  induction xs as [|x xs IH]; intros parts H; [reflexivity|].
  cbn [fold_left]. rewrite (H parts x (or_introl eq_refl)).
  apply IH. intros ps y Hy. apply H. now right.
Qed.

Lemma fold_roots_NoDup doc rs :
  no_pictures doc ->
  (forall r, In r rs -> In r (querySelectorAll (RDoc doc) sel_markdown_root)) ->
  forall parts, NoDup parts -> NoDup (fold_left push_root rs parts).
Proof.
  intros NP. induction rs as [|r rs IH]; intros Hin parts N; [exact N|].
  cbn [fold_left]. apply IH; [intros x Hx; apply Hin; now right|].
  unfold push_root. rewrite fold_same.
  - revert parts N.
    induction (querySelectorAll_any (RElem r) sel_paragraphs) as [|p ps IHp];
      intros parts N; [exact N|].
    cbn [fold_left]. apply IHp. now apply push_paragraph_NoDup.
  - intros ps img Himg. unfold push_image.
    specialize (NP r (Hin r (or_introl eq_refl)) img Himg).
    destruct (getAttribute (self img) (lit "alt")) as [a|]; [|reflexivity].
    now rewrite NP.
Qed.

Lemma filter_truthy_nonempty l :
  Forall (fun t : jsstring => t <> []) l -> filter truthy l = l.
Proof.
  induction 1 as [|t l Ht _ IH]; [reflexivity|].
  cbn [filter]. destruct t; [contradiction|]. cbn [truthy]. now rewrite IH.
Qed.

Lemma question_parts_nonempty doc :
  Forall (fun t => t <> []) (question_parts doc).
Proof.
  unfold question_parts. apply fold_Forall; [|constructor].
  intros parts r. apply push_root_nonempty.
Qed.

Lemma returned_parts_eq doc :
  returned_parts doc
  = question_parts doc
    ++ match marksEl doc with
       | Some m => filter truthy [trim (text_of m)]
       | None => []
       end.
Proof.
  unfold returned_parts. pose proof (question_parts_nonempty doc) as F.
  destruct (marksEl doc) as [m|].
  - now rewrite filter_app, (filter_truthy_nonempty _ F).
  - now rewrite app_nil_r, (filter_truthy_nonempty _ F).
Qed.

Lemma NoDup_snoc (A : Type) (l : list A) x :
  NoDup (l ++ [x]) <-> NoDup l /\ ~ In x l.
Proof.
  split.
  - intros H. apply NoDup_remove in H. rewrite app_nil_r in H. exact H.
  - intros [N I]. apply NoDup_app; [exact N|repeat constructor; intros []|].
    intros a Ha [<-|[]]. contradiction.
Qed.

(** X17.  The question of a working-out page: the text returned has no
    white space at either end and is the join of the returned parts,
    which are the parts collected from the Markdown roots followed by
    the line of the marks, when an element of the marks is found and has
    a text.  Every paragraph of a Markdown root that has a text is among
    the parts, and none of the parts is empty.  On a page without
    described pictures no part is collected from the roots twice; the
    line of the marks is added without that test, so that the returned
    parts are free of repetitions exactly when the line of the marks is
    not already one of the collected parts. *)
Theorem getWorkingOutQuestionText_parts :
  forall doc,
    trimmed (getWorkingOutQuestionText doc)
    /\ getWorkingOutQuestionText doc
       = trim (join ["010"%char] (returned_parts doc))
    /\ returned_parts doc
       = question_parts doc
         ++ match marksEl doc with
            | Some m => if truthy (trim (text_of m))
                        then [trim (text_of m)] else []
            | None => []
            end
    /\ (forall t, paragraph_text doc t -> In t (returned_parts doc))
    /\ Forall (fun t => t <> []) (returned_parts doc)
    /\ (no_pictures doc -> NoDup (question_parts doc))
    /\ (no_pictures doc ->
        (NoDup (returned_parts doc)
         <-> forall m, marksEl doc = Some m ->
                       ~ In (trim (text_of m)) (question_parts doc))).
Proof.
  intros doc.
  assert (NE : Forall (fun t => t <> []) (question_parts doc))
    by apply question_parts_nonempty.
  assert (ND : no_pictures doc -> NoDup (question_parts doc)).
  { intros NP. unfold question_parts.
    apply (fold_roots_NoDup doc); [exact NP|trivial|constructor]. }
  split; [apply trim_trimmed|]. split; [reflexivity|].
  split; [apply returned_parts_eq|]. split; [|split; [|split; [exact ND|]]].
  - intros t [r [p [Hr [Hp [-> N]]]]]. rewrite returned_parts_eq.
    apply in_or_app. left. unfold question_parts.
    now apply (fold_roots_hold _ [] r p).
  - rewrite returned_parts_eq. apply Forall_app. split; [exact NE|].
    destruct (marksEl doc) as [m|]; [|constructor].
    cbn [filter]. destruct (trim (text_of m)) eqn:T; cbn [truthy];
      constructor; [discriminate|constructor].
  - intros NP. specialize (ND NP). rewrite returned_parts_eq.
    destruct (marksEl doc) as [m|].
    + cbn [filter]. destruct (trim (text_of m)) as [|c t] eqn:T; cbn [truthy].
      * rewrite app_nil_r. split; [|intros _; exact ND].
        intros _ m' [= <-] I. rewrite T in I.
        rewrite Forall_forall in NE. now apply (NE [] I).
      * rewrite NoDup_snoc. split.
        -- intros [_ I] m' [= <-]. now rewrite T.
        -- intros H. split; [exact ND|]. specialize (H m eq_refl).
           now rewrite T in H.
    + rewrite app_nil_r. split; [discriminate|intros _; exact ND].
Qed.

(** The marks in a paragraph of the Markdown root come twice. *)
Example marks_line_twice :
  getWorkingOutQuestionText Samples.marks_in_root
  = lit "Differentiate x^3" ++ ["010"%char] ++ lit "3 marks"
    ++ ["010"%char] ++ lit "3 marks".
Proof. reflexivity. Qed.

Lemma setMathFieldValue_nonempty pg f latex : setMathFieldValue pg f latex <> [].
Proof.
  unfold setMathFieldValue. intros H. apply (f_equal (@length op)) in H.
  rewrite !length_app in H. cbn [length] in H. lia.
Qed.

Lemma callGroqAPIForWorkingOut_trimmed fetch k m q out :
  callGroqAPIForWorkingOut fetch k m q = Return out -> trimmed out.
Proof.
  unfold callGroqAPIForWorkingOut.
  match goal with |- context [if ?c then _ else _] => destruct c end;
    [discriminate|].
  intros [= <-]. apply trim_trimmed.
Qed.

(** X18.  A working-out autofill writes into the field exactly when it
    reports success, and then it writes the answer of the oracle, which
    is not empty, by [setMathFieldValue]; it asks the oracle at most
    once, never without a math field and never with an empty question,
    the question being the text of the page cut at 3000 characters when
    no question was extracted; and what [callGroqAPIForWorkingOut]
    returns has no white space at either end. *)
Theorem runWorkingOutAutofill_writes :
  forall oracle pg mathField doc bodyText stored apiKey,
    let r := runWorkingOutAutofill oracle pg mathField doc bodyText stored
                                   apiKey in
    (returned r = Filled <-> written r <> [])
    /\ (returned r = Filled ->
        exists f q m out,
          mathField = Some f /\ asked r = [q] /\ stored = Return m
          /\ oracle apiKey (model_or_default m) q = Return out
          /\ out <> [] /\ written r = setMathFieldValue pg f out)
    /\ length (asked r) <= 1
    /\ (forall q, In q (asked r) ->
                  q <> [] /\ mathField <> None
                  /\ (q = getWorkingOutQuestionText doc
                      \/ (getWorkingOutQuestionText doc = []
                          /\ q = firstn 3000 bodyText)))
    /\ (forall fetch k m q out,
           callGroqAPIForWorkingOut fetch k m q = Return out -> trimmed out).
Proof.
  intros oracle pg mathField doc bodyText stored apiKey r.
  split; [|split; [|split; [|split]]];
    [| | | |intros; eapply callGroqAPIForWorkingOut_trimmed; eassumption];
    subst r; unfold runWorkingOutAutofill;
    destruct mathField as [f|];
    try (cbn; first [lia | (split; [discriminate|congruence])
                     | discriminate | (intros q []) ]).
  - destruct (getWorkingOutQuestionText doc) as [|c q0] eqn:Q;
      destruct (firstn 3000 bodyText) as [|c' fb] eqn:B;
      cbn [truthy negb andb app]; try (cbn; split; [discriminate|congruence]);
      destruct stored as [msg|m]; try (cbn; split; [discriminate|congruence]);
      match goal with |- context [oracle ?a ?b ?c] => destruct (oracle a b c) as [msg|out] end;
      try (cbn; split; [discriminate|congruence]);
      destruct out; cbn [truthy negb returned written];
      try (split; [discriminate|congruence]);
      (split; [intros _; apply setMathFieldValue_nonempty|reflexivity]).
  - destruct (getWorkingOutQuestionText doc) as [|c q0] eqn:Q;
      destruct (firstn 3000 bodyText) as [|c' fb] eqn:B;
      cbn [truthy negb andb app]; try (cbn; discriminate);
      destruct stored as [msg|m]; try (cbn; discriminate);
      match goal with |- context [oracle ?a ?b ?c] => destruct (oracle a b c) as [msg|out] eqn:O end;
      try (cbn; discriminate);
      destruct out as [|o out]; cbn [truthy negb returned written asked];
      try discriminate; intros _;
      eexists f, _, m, (o :: out);
      (repeat split; [exact O|discriminate]).
  - destruct (negb (truthy (getWorkingOutQuestionText doc))
              && negb (truthy (firstn 3000 bodyText))); [cbn; lia|].
    destruct stored as [msg|m]; [cbn; lia|].
    match goal with |- context [oracle ?a ?b ?c] => destruct (oracle a b c) as [msg|out] end;
      [cbn; lia|].
    destruct (negb (truthy out)); cbn; lia.
  - intros q Hq.
    assert (G : q <> [] /\
                (q = getWorkingOutQuestionText doc
                 \/ getWorkingOutQuestionText doc = [] /\ q = firstn 3000 bodyText)).
    { destruct (getWorkingOutQuestionText doc) as [|c q0] eqn:Q;
        destruct (firstn 3000 bodyText) as [|c' fb] eqn:B;
        cbn [truthy negb andb app] in Hq; try (now destruct Hq);
        destruct stored as [msg|m]; try (now destruct Hq);
        match type of Hq with context [oracle ?a ?b ?c] => destruct (oracle a b c) as [msg|out] end;
        try (destruct (negb (truthy out)));
        cbn [asked] in Hq; destruct Hq as [<-|[]];
        (split; [discriminate|]); auto. }
    destruct G as [G1 G2]. split; [exact G1|]. split; [discriminate|exact G2].
Qed.

Lemma solveCurrentQuestion_clicks innerText oracle doc stored apiKey :
  match solveCurrentQuestion innerText oracle doc stored apiKey with
  | (clicks, Return (Success _)) => length clicks = 1
  | (clicks, _) => clicks = []
  end.
Proof.
  unfold solveCurrentQuestion, solve_extract.
  match goal with |- context [if ?c then _ else _] => destruct c end;
    [reflexivity|].
  cbn [ex_question ex_answers ex_buttons].
  match goal with
  | |- context [oracle ?a ?b ?c ?d] => destruct (oracle a b c d) as [msg|i]
  end; [reflexivity|].
  pose proof (solve_finish_clicks (getAnswerButtons doc) i) as F.
  destruct (solve_finish (getAnswerButtons doc) i) as [clicks [k|e]]; exact F.
Qed.

End WorkingOutFacts.

(** ** The autofill of one question, the next control and the listing *)

Module PanelFacts.
Import JsString Dom Oracle Quiz Notions Video VideoPage WorkingOut Popup.
Import JsStringFacts DomFacts QuizFacts JsStringMore WorkingOutFacts PopupFacts.

(** X19.  [runSingleAutofill] never throws: it writes two status lines,
    the first one "Solving...", and returns true exactly when one answer
    button has been clicked, false exactly when nothing has been
    clicked. *)
Theorem runSingleAutofill_reports :
  forall innerText oracle doc stored apiKey,
    let r := runSingleAutofill innerText oracle doc stored apiKey in
    let clicks := fst (fst r) in
    let lines := snd (fst r) in
    length lines = 2
    /\ hd_error lines = Some (lit "Solving...")
    /\ (snd r = true <-> length clicks = 1)
    /\ (snd r = false <-> clicks = [])
    /\ clicks = fst (solveCurrentQuestion innerText oracle doc stored apiKey).
Proof.
  intros innerText oracle doc stored apiKey. unfold runSingleAutofill.
  pose proof (solveCurrentQuestion_clicks innerText oracle doc stored apiKey) as C.
  destruct (solveCurrentQuestion innerText oracle doc stored apiKey)
    as [clicks [msg|[k|e]]]; cbn [fst snd length hd_error]; subst;
    repeat split; try reflexivity; try discriminate; try congruence.
  - intros H. rewrite H in C. discriminate.
Qed.

Lemma text_without (el : element) (word : jsstring) :
  word <> [] -> trimmed word ->
  includes (toLowerCase (trim (text_of el))) (toLowerCase word) = false ->
  includes (text_of el) word = false.
Proof.
  intros N T H. destruct (includes (text_of el) word) eqn:I; [|reflexivity].
  apply (includes_trim _ word N T), includes_lower in I. congruence.
Qed.

(** The first element of a selection that passes a test has, before it
    in the document, no element of the selection that passes. *)
Lemma find_filter_first (A : Type) (f g : A -> bool) l x :
  find f (filter g l) = Some x ->
  exists before after,
    l = before ++ x :: after /\ g x = true /\ f x = true
    /\ forall y, In y before -> g y = true -> f y = false.
Proof.
  induction l as [|a l IH]; [discriminate|].
  cbn [filter]. destruct (g a) eqn:G.
  - cbn [find]. destruct (f a) eqn:F.
    + intros [= <-]. exists [], l. repeat split; try assumption.
      intros y [].
    + intros H. destruct (IH H) as [b [c [-> [Gx [Fx N]]]]].
      exists (a :: b), c. repeat split; try assumption.
      intros y [<-|Hy] Gy; [exact F|now apply N].
  - intros H. destruct (IH H) as [b [c [-> [Gx [Fx N]]]]].
    exists (a :: b), c. repeat split; try assumption.
    intros y [<-|Hy] Gy; [congruence|now apply N].
Qed.

(** X20.  The next control of a video page: a pagination link that is
    marked as switched or says "up next" is taken before anything else,
    the first such link of the document; without one, the first link
    with an address or button of the document that says "next", in its
    text or its label, and neither "check" nor "prev", is taken, and it
    is never a control whose text has "Check Answer" or "Previous" in
    it; null is returned exactly when there is neither.  Of what is
    found, only a link with an address is followed by a change of
    location; anything else is clicked. *)
Theorem getVideoNextButton_choice :
  forall doc,
    (forall el, find_first preferred (pagination_links doc) = Some el ->
                getVideoNextButton doc = Some el)
    /\ (forall el,
           getVideoNextButton doc = Some el ->
           (In el (pagination_links doc) /\ preferred el = true)
           \/ ((forall l, In l (pagination_links doc) -> preferred l = false)
               /\ In el (links_and_buttons doc)
               /\ next_like el = true
               /\ includes (text_of el) (lit "Check Answer") = false
               /\ includes (text_of el) (lit "Previous") = false))
    /\ (getVideoNextButton doc = None
        <-> (forall l, In l (pagination_links doc) -> preferred l = false)
            /\ (forall c, In c (links_and_buttons doc) -> next_like c = false))
    /\ (forall origin resolve el,
           str_eqb (tagName (self el)) (lit "a") = false
           \/ hasAttribute (self el) (lit "href") = false ->
           control_of origin resolve el = Button)
    /\ (forall el,
           getVideoNextButton doc = Some el ->
           exists before after,
             descendants (RDoc doc) = before ++ el :: after
             /\ ((is_pagination_link el = true /\ preferred el = true
                  /\ forall l, In l before -> is_pagination_link l = true ->
                               preferred l = false)
                 \/ ((forall l, In l (descendants (RDoc doc)) ->
                                is_pagination_link l = true ->
                                preferred l = false)
                     /\ is_link_or_button el = true /\ next_like el = true
                     /\ forall c, In c before -> is_link_or_button c = true ->
                                  next_like c = false))).
Proof.
  intros doc. unfold getVideoNextButton, find_first.
  split; [|split; [|split; [|split]]].
  - intros el ->. reflexivity.
  - intros el H.
    destruct (find preferred (pagination_links doc)) as [l|] eqn:P.
    + cbn [or_else] in H. injection H as ->. left. now apply find_some in P.
    + cbn [or_else] in H. right. split; [apply (find_none _ _ P)|].
      apply find_some in H. destruct H as [Hin N]. split; [exact Hin|].
      split; [exact N|].
      unfold next_like in N. rewrite or_str_self in N.
      apply andb_true_iff in N. destruct N as [N Nprev].
      apply andb_true_iff in N. destruct N as [_ Ncheck].
      apply negb_true_iff in Ncheck, Nprev. split.
      * destruct (includes (text_of el) (lit "Check Answer")) eqn:C;
          [|reflexivity].
        apply (includes_part _ [] (lit "Check") (lit " Answer")) in C.
        apply (text_without el (lit "Check")) in Ncheck;
          [congruence|discriminate|].
        split; intros c [= <-]; reflexivity.
      * destruct (includes (text_of el) (lit "Previous")) eqn:C;
          [|reflexivity].
        apply (includes_part _ [] (lit "Prev") (lit "ious")) in C.
        apply (text_without el (lit "Prev")) in Nprev;
          [congruence|discriminate|].
        split; intros c [= <-]; reflexivity.
  - split.
    + intros H.
      destruct (find preferred (pagination_links doc)) eqn:P; [discriminate|].
      cbn [or_else] in H. split; [apply (find_none _ _ P)|apply (find_none _ _ H)].
    + intros [H1 H2].
      destruct (find preferred (pagination_links doc)) as [l|] eqn:P.
      * apply find_some in P. destruct P as [Hin P]. rewrite (H1 l Hin) in P.
        discriminate.
      * cbn [or_else].
        destruct (find next_like (links_and_buttons doc)) as [c|] eqn:N;
          [|reflexivity].
        apply find_some in N. destruct N as [Hin N]. rewrite (H2 c Hin) in N.
        discriminate.
  - intros origin resolve el H. unfold control_of, hasAttribute in *.
    destruct (getAttribute (self el) (lit "href")) as [h|]; [|reflexivity].
    destruct H as [H|H]; [|discriminate].
    now rewrite H, andb_false_r.
  - intros el H.
    destruct (find preferred (pagination_links doc)) as [l|] eqn:P.
    + cbn [or_else] in H. injection H as ->.
      apply find_filter_first in P.
      destruct P as [b [a [E [G [F N]]]]]. exists b, a. split; [exact E|].
      left. now repeat split.
    + cbn [or_else] in H. pose proof (find_none _ _ P) as NP.
      apply find_filter_first in H.
      destruct H as [b [a [E [G [F N]]]]]. exists b, a. split; [exact E|].
      right. repeat split; try assumption.
      intros l Hl Gl. apply NP. apply filter_In. now split.
Qed.

Section Listing.
Variable localeCompare : jsstring -> jsstring -> comparison.
Hypothesis compare_opp :
  forall a b, localeCompare b a = CompOpp (localeCompare a b).
Hypothesis compare_trans :
  forall a b c, localeCompare a b <> Gt -> localeCompare b c <> Gt ->
                localeCompare a c <> Gt.

Lemma sort_fixed l :
  StronglySorted (Popup.le localeCompare) l -> Popup.sort localeCompare l = l.
Proof.
  induction 1 as [|x l Hl IH Hx]; [reflexivity|].
  cbn [Popup.sort fold_right]. fold (Popup.sort localeCompare l). rewrite IH.
  destruct l as [|y l]; [reflexivity|].
  cbn [Popup.insert]. apply Forall_inv in Hx. unfold Popup.le in Hx.
  destruct (cmp localeCompare x y); [reflexivity|reflexivity|contradiction].
Qed.

Lemma filter_all (A : Type) (f : A -> bool) l :
  (forall x, In x l -> f x = true) -> filter f l = l.
Proof.
  induction l as [|x l IH]; intros H; [reflexivity|].
  cbn [filter]. rewrite (H x (or_introl eq_refl)). f_equal.
  apply IH. intros y Hy. apply H. now right.
Qed.

Lemma fetchModels_again res models :
  fetchModels localeCompare res = Return models ->
  fetchModels localeCompare
              {| res_ok := true; res_status := res_status res;
                 res_error := None; data := Some models |}
  = Return models.
Proof.
  unfold fetchModels. destruct (res_ok res); cbn [negb]; [|discriminate].
  intros [= <-]. cbn [res_ok negb data]. f_equal.
  set (kept := filter (fun m => isChatModel (model_id m))
                      match data res with Some d => d | None => [] end).
  rewrite filter_all.
  - apply sort_fixed. now apply sort_sorted.
  - intros m Hm. apply (Permutation_in _ (sort_perm localeCompare kept)) in Hm.
    subst kept. now apply filter_In in Hm.
Qed.
End Listing.

End PanelFacts.

(** ** The prompt and the labels *)

Module PromptFacts.
Import JsString Regex Dom Oracle Quiz Notions.
Import JsStringFacts.

Lemma numbered_from start l :
  forall i a,
    nth_error l i = Some a ->
    nth_error (map (fun ia => of_nat (S (fst ia)) ++ lit ". " ++ snd ia)
                   (combine (seq start (length l)) l)) i
    = Some (of_nat (S (start + i)) ++ lit ". " ++ a).
Proof.
  revert start. induction l as [|x l IH]; intros start i a H.
  - destruct i; discriminate.
  - destruct i as [|i]; cbn [length seq combine map nth_error] in *.
    + injection H as ->. now rewrite Nat.add_0_r.
    + rewrite (IH (S start) i a H). now rewrite Nat.add_succ_r.
Qed.

Lemma join_nth sep l :
  forall i x,
    nth_error l i = Some x ->
    exists pre post,
      join sep l = pre ++ x ++ post
      /\ (pre = [] \/ exists p, pre = p ++ sep)
      /\ (post = [] \/ exists q, post = sep ++ q).
Proof.
  assert (T : forall l i x,
             nth_error l i = Some x ->
             exists pre post,
               flat_map (fun y => sep ++ y) l = pre ++ sep ++ x ++ post
               /\ (post = [] \/ exists q, post = sep ++ q)).
  { clear l. induction l as [|y l IH]; intros i x H; [destruct i; discriminate|].
    destruct i as [|i]; cbn [nth_error flat_map] in *.
    - injection H as ->. exists [], (flat_map (fun y => sep ++ y) l).
      split; [now rewrite <- app_assoc|].
      destruct l as [|z l]; [now left|right].
      cbn [flat_map]. rewrite <- app_assoc. now eexists.
    - destruct (IH i x H) as [pre [post [E P]]].
      exists (sep ++ y ++ pre), post. split; [|exact P].
      rewrite E. now rewrite <- !app_assoc. }
  intros i x H. unfold join. destruct l as [|y l]; [destruct i; discriminate|].
  destruct i as [|i]; cbn [nth_error] in H.
  - injection H as ->. exists [], (flat_map (fun y => sep ++ y) l).
    split; [reflexivity|]. split; [now left|].
    destruct l as [|z l]; [now left|right].
    cbn [flat_map]. rewrite <- app_assoc. now eexists.
  - destruct (T l i x H) as [pre [post [E P]]].
    exists (y ++ pre ++ sep), post. split.
    + rewrite E. now rewrite <- !app_assoc.
    + split; [right; exists (y ++ pre); now rewrite <- app_assoc|exact P].
Qed.

(** The line of an answer in the prompt: between two line feeds. *)
Lemma userContent_line question answers i a :
  nth_error answers i = Some a ->
  exists before after,
    userContent question answers
    = before ++ ["010"%char] ++ (of_nat (S i) ++ lit ". " ++ a)
             ++ ["010"%char] ++ after.
Proof.
  intros H. apply (numbered_from 0 answers i a) in H.
  change (map _ (combine (seq 0 (length answers)) answers))
    with (numbered answers) in H.
  cbn [Nat.add] in H.
  destruct (join_nth ["010"%char] (numbered answers) i _ H)
    as [pre [post [E [P Q]]]].
  unfold userContent. rewrite E.
  set (line := of_nat (S i) ++ lit ". " ++ a).
  destruct P as [->|[p ->]], Q as [->|[q ->]].
  - exists (lit "Question:" ++ ["010"%char] ++ question
            ++ ["010"%char; "010"%char] ++ lit "Possible answers:"),
      (["010"%char] ++ lit "Reply with only the number (1-"
       ++ of_nat (length answers) ++ lit "):").
    now rewrite <- !app_assoc.
  - exists (lit "Question:" ++ ["010"%char] ++ question
            ++ ["010"%char; "010"%char] ++ lit "Possible answers:"),
      (q ++ ["010"%char; "010"%char] ++ lit "Reply with only the number (1-"
       ++ of_nat (length answers) ++ lit "):").
    now rewrite <- !app_assoc.
  - exists (lit "Question:" ++ ["010"%char] ++ question
            ++ ["010"%char; "010"%char] ++ lit "Possible answers:"
            ++ ["010"%char] ++ p),
      (["010"%char] ++ lit "Reply with only the number (1-"
       ++ of_nat (length answers) ++ lit "):").
    now rewrite <- !app_assoc.
  - exists (lit "Question:" ++ ["010"%char] ++ question
            ++ ["010"%char; "010"%char] ++ lit "Possible answers:"
            ++ ["010"%char] ++ p),
      (q ++ ["010"%char; "010"%char] ++ lit "Reply with only the number (1-"
       ++ of_nat (length answers) ++ lit "):").
    now rewrite <- !app_assoc.
Qed.

(** X22.  The number an answer has in the prompt is the number that
    clicks its button.  On a page where every list item with a button
    has a label and a question is found, the answer at place i (from 0)
    stands in the prompt as the line "i+1. answer", and when the oracle
    answers i+1 the solve attempt clicks exactly the button of the list
    item whose label is that answer, and reports success with i+1. *)
Theorem prompt_number_clicks_button :
  forall innerText oracle doc stored apiKey items i a,
    answer_items doc = Some items ->
    (forall li b, In li items -> item_button li = Some b ->
                  truthy (item_label li) = true) ->
    truthy (getQuestionText innerText doc) = true ->
    nth_error (getAnswers doc) i = Some a ->
    oracle apiKey (model_or_default stored) (getQuestionText innerText doc)
           (getAnswers doc) = Return (Some (Z.of_nat (S i))) ->
    (exists before after,
        req_user (make_request apiKey (model_or_default stored)
                               (getQuestionText innerText doc)
                               (getAnswers doc))
        = before ++ ["010"%char] ++ (of_nat (S i) ++ lit ". " ++ a)
                 ++ ["010"%char] ++ after)
    /\ exists li b,
        In li items /\ item_label li = a /\ item_button li = Some b
        /\ solveCurrentQuestion innerText oracle doc stored apiKey
           = ([loc b], Return (Success (Z.of_nat (S i)))).
Proof.
  intros innerText oracle doc stored apiKey items i a Hi HL HQ Ha HO.
  split; [cbn [make_request req_user]; now apply userContent_line|].
  destruct (QuizMore.answers_buttons_at doc items Hi HL) as [Len At].
  destruct (At i a Ha) as [li [b [Hin [Hl [Hb Hn]]]]].
  exists li, b. repeat split; try assumption.
  assert (Li : i < length (getAnswerButtons doc)).
  { apply nth_error_Some. congruence. }
  assert (E1 : (length (getAnswers doc) =? 0) = false)
    by (apply Nat.eqb_neq; lia).
  assert (E2 : (length (getAnswerButtons doc) =? 0) = false)
    by (apply Nat.eqb_neq; lia).
  unfold solveCurrentQuestion, solve_extract. rewrite HQ, E1, E2.
  cbn [negb orb ex_question ex_answers ex_buttons]. rewrite HO.
  unfold solve_finish.
  replace ((Z.of_nat (S i) <? 1)%Z
           || (Z.of_nat (length (getAnswerButtons doc)) <? Z.of_nat (S i))%Z)
    with false
    by (symmetry; apply orb_false_iff; split; apply Z.ltb_ge; lia).
  replace (Z.to_nat (Z.of_nat (S i) - 1)) with i by lia.
  now rewrite Hn.
Qed.

Lemma prompt_number_clicks_button_witness :
  exists li b,
    item_label li = lit "Paris" /\ item_button li = Some b
    /\ solveCurrentQuestion Samples.no_innerText
         (fun _ _ _ _ => Return (Some 2%Z)) Samples.quiz None (lit "key")
       = ([loc b], Return (Success 2)).
Proof.
  destruct (answer_items Samples.quiz) as [items|] eqn:E; [|discriminate].
  destruct (prompt_number_clicks_button Samples.no_innerText
              (fun _ _ _ _ => Return (Some 2%Z)) Samples.quiz None (lit "key")
              items 1 (lit "Paris") E) as [_ [li [b [_ [L [B S]]]]]].
  - vm_compute in E. injection E as <-.
    intros li b Hin _.
    repeat (destruct Hin as [<-|Hin]; [reflexivity|]). destruct Hin.
  - reflexivity.
  - reflexivity.
  - reflexivity.
  - now exists li, b.
Defined.

Lemma literal_ci_match (R : Type) (l : jsstring) :
  forall p (k : option ascii -> jsstring -> option R) prev t,
    map lower_char p = map lower_char l ->
    exists prev',
      mre (fold_right (fun a r => Cat (chr_ci a) r) Eps l) k prev (p ++ t)
      = k prev' t.
Proof.
  induction l as [|a l IH]; intros p k prev t H.
  - destruct p; [|discriminate]. now exists prev.
  - destruct p as [|c p]; [discriminate|]. cbn [map] in H.
    injection H as Hc Hp. cbn [fold_right mre app chr_ci].
    unfold ascii_eqb. rewrite Hc, Ascii.eqb_refl.
    apply (IH p k (Some c) t Hp).
Qed.

Lemma star_greedy_all (p : ascii -> bool) ws :
  forall prev body,
    Forall (fun c => p c = true) ws ->
    (forall c, hd_error body = Some c -> p c = false) ->
    star_greedy p (fun _ rest => Some rest) prev (ws ++ body) = Some body.
Proof.
  induction ws as [|c ws IH]; intros prev body F H.
  - cbn [app]. destruct body as [|b body]; [reflexivity|].
    cbn [star_greedy]. now rewrite (H b eq_refl).
  - apply Forall_cons_iff in F. destruct F as [Pc F].
    cbn [app star_greedy]. rewrite Pc. now rewrite (IH (Some c) body F H).
Qed.

(** X23.  The label of an answer loses its "Choice X" head: a text that
    starts with "Choice ", in whatever case, a letter and any white
    space is left with what follows. *)
Theorem choice_head_removed :
  forall p X ws body,
    toLowerCase p = lit "choice " ->
    is_alpha X = true ->
    Forall (fun c => is_space c = true) ws ->
    (forall c, hd_error body = Some c -> is_space c = false) ->
    remove_first choice_re (p ++ X :: ws ++ body) = body.
Proof.
  intros p X ws body Hp HX Hws Hb.
  unfold remove_first. destruct (p ++ X :: ws ++ body) eqn:E.
  - destruct p; discriminate.
  - rewrite <- E. clear E.
    assert (M : match_here choice_re None (p ++ X :: ws ++ body) = Some body).
    { unfold match_here, choice_re, lit_ci.
      change (mre (fold_right (fun a r => Cat (chr_ci a) r) Eps (lit "Choice "))
                  (mre (Cat (Chr is_alpha) (Star is_space))
                       (fun _ rest => Some rest))
                  None (p ++ X :: ws ++ body) = Some body).
      destruct (literal_ci_match _ (lit "Choice ") p
                  (mre (Cat (Chr is_alpha) (Star is_space))
                       (fun _ rest => Some rest))
                  None (X :: ws ++ body) Hp) as [prev' ->].
      cbn [mre]. rewrite HX. now apply star_greedy_all. }
    destruct (p ++ X :: ws ++ body) eqn:E; cbn [remove_first_from];
      now rewrite M.
Qed.

Lemma choice_head_removed_witness :
  remove_first choice_re (lit "CHOICE b  Paris") = lit "Paris".
Proof.
  apply (choice_head_removed (lit "CHOICE ") "b"%char (lit "  ") (lit "Paris")).
  - reflexivity.
  - reflexivity.
  - repeat constructor.
  - intros c [= <-]. reflexivity.
Defined.

End PromptFacts.

(** ** The video watchdog as a whole *)

Module WatchdogFacts.
Import JsString Watchdog.

Lemma alter_length (A : Type) (f : A -> A) i :
  forall l, length (alter f i l) = length l.
Proof.
  induction i as [|i IH]; intros [|x l]; cbn [alter length]; try reflexivity.
  now rewrite IH.
Qed.

Lemma nth_error_alter (A : Type) (f : A -> A) i :
  forall l j,
    nth_error (alter f i l) j
    = if i =? j then option_map f (nth_error l j) else nth_error l j.
Proof.
  induction i as [|i IH]; intros [|x l] [|j]; cbn [alter nth_error Nat.eqb];
    try reflexivity.
  - now destruct (i =? j).
  - apply IH.
Qed.

Lemma closure_eqb_eq a b : closure_eqb a b = true <-> a = b.
Proof.
  destruct a as [i|i], b as [j|j]; cbn [closure_eqb];
    rewrite ?Nat.eqb_eq; split; try discriminate; congruence.
Qed.

Lemma closure_eqb_refl a : closure_eqb a a = true.
Proof. now apply closure_eqb_eq. Qed.

Lemma on_current_length f s : length (on_current f s) = length (listeners s).
Proof.
  unfold on_current. destruct (current s); [apply alter_length|reflexivity].
Qed.

Lemma on_current_guard f s i :
  (forall l, guard (f l) = guard l) ->
  option_map guard (nth_error (on_current f s) i)
  = option_map guard (nth_error (listeners s) i).
Proof.
  intros H. unfold on_current. destruct (current s) as [c|]; [|reflexivity].
  rewrite nth_error_alter. destruct (c =? i); [|reflexivity].
  destruct (nth_error (listeners s) i); cbn [option_map]; [|reflexivity].
  now rewrite H.
Qed.

Section PageFacts.
Variable nextBtn : nat -> option Video.control.

Abbreviation advanceToNext := (advanceToNext nextBtn).
Abbreviation fire := (fire nextBtn).
Abbreviation checkTime := (checkTime nextBtn).
Abbreviation onEnded := (onEnded nextBtn).
Abbreviation step := (step nextBtn).
Abbreviation run := (run nextBtn).
Abbreviation found := (found nextBtn).

Lemma advance_auto who s : auto_on (advanceToNext who s) = auto_on s.
Proof. unfold Watchdog.advanceToNext. now destruct (nextBtn (asked s)). Qed.

Lemma advance_listeners who s :
  listeners (advanceToNext who s) = on_current stop_poll s.
Proof. unfold Watchdog.advanceToNext. now destruct (nextBtn (asked s)). Qed.

Lemma advance_players who s : players (advanceToNext who s) = players s.
Proof. unfold Watchdog.advanceToNext. now destruct (nextBtn (asked s)). Qed.

Lemma advance_configs who s : configs (advanceToNext who s) = configs s.
Proof. unfold Watchdog.advanceToNext. now destruct (nextBtn (asked s)). Qed.

Lemma advance_guard who s who' :
  guard_of (advanceToNext who s) who' = guard_of s who'.
Proof.
  destruct who' as [i|j]; cbn [guard_of].
  - rewrite advance_listeners. now apply on_current_guard.
  - now rewrite advance_players.
Qed.

Lemma advance_goes_by who s who' :
  goes_by who' (advanceToNext who s)
  = goes_by who' s + (if closure_eqb who who' then found s else 0).
Proof.
  unfold goes_by, found, Watchdog.advanceToNext.
  destruct (nextBtn (asked s)); cbn [wlog]; rewrite filter_app, length_app;
    cbn [filter is_go_by length]; destruct (closure_eqb who who');
    cbn [length]; lia.
Qed.

Lemma advance_goes who s : goes (advanceToNext who s) = goes s + found s.
Proof.
  unfold goes, found, Watchdog.advanceToNext.
  destruct (nextBtn (asked s)); cbn [wlog]; rewrite filter_app, length_app;
    cbn [filter is_go length]; lia.
Qed.

Lemma advance_timers_set who s :
  timers_set (advanceToNext who s) = timers_set s + found s.
Proof.
  unfold timers_set, found, Watchdog.advanceToNext.
  destruct (nextBtn (asked s)); cbn [wlog]; rewrite filter_app, length_app;
    cbn [filter is_timer length]; lia.
Qed.

Lemma raised_guard who s who' :
  guard_of (raised who s) who'
  = if closure_eqb who who' then option_map (fun _ => true) (guard_of s who')
    else guard_of s who'.
Proof.
  destruct who as [i|j], who' as [i'|j'];
    cbn [raised guard_of closure_eqb with_listeners with_players listeners
         players]; try reflexivity.
  - rewrite nth_error_alter. destruct (i =? i'); [|reflexivity].
    now destruct (nth_error (listeners s) i').
  - rewrite nth_error_alter. destruct (j =? j'); reflexivity.
Qed.

Lemma fire_guard who s who' :
  guard_of (fire who s) who'
  = if closure_eqb who who' then option_map (fun _ => true) (guard_of s who')
    else guard_of s who'.
Proof.
  change (fire who s) with (advanceToNext who (raised who s)).
  now rewrite advance_guard, raised_guard.
Qed.

Lemma raised_same who s :
  auto_on (raised who s) = auto_on s /\ asked (raised who s) = asked s
  /\ wlog (raised who s) = wlog s /\ configs (raised who s) = configs s
  /\ length (listeners (raised who s)) = length (listeners s)
  /\ length (players (raised who s)) = length (players s).
Proof.
  destruct who; cbn [raised with_listeners with_players auto_on asked wlog
                     configs listeners players];
    rewrite ?alter_length; repeat split.
Qed.

Lemma fire_goes_by who s who' :
  goes_by who' (fire who s)
  = goes_by who' s + (if closure_eqb who who' then found s else 0).
Proof.
  change (fire who s) with (advanceToNext who (raised who s)).
  rewrite advance_goes_by. unfold goes_by, found.
  destruct (raised_same who s) as [_ [-> [-> _]]]. reflexivity.
Qed.

Lemma fire_goes who s : goes (fire who s) = goes s + found s.
Proof.
  change (fire who s) with (advanceToNext who (raised who s)).
  rewrite advance_goes. unfold goes, found.
  destruct (raised_same who s) as [_ [-> [-> _]]]. reflexivity.
Qed.

Lemma fire_timers_set who s : timers_set (fire who s) = timers_set s + found s.
Proof.
  change (fire who s) with (advanceToNext who (raised who s)).
  rewrite advance_timers_set. unfold timers_set, found.
  destruct (raised_same who s) as [_ [-> [-> _]]]. reflexivity.
Qed.

Lemma fire_auto who s : auto_on (fire who s) = auto_on s.
Proof.
  change (fire who s) with (advanceToNext who (raised who s)).
  rewrite advance_auto. now destruct (raised_same who s) as [-> _].
Qed.

Lemma fire_configs who s : configs (fire who s) = configs s.
Proof.
  change (fire who s) with (advanceToNext who (raised who s)).
  rewrite advance_configs. now destruct (raised_same who s) as [_ [_ [_ [-> _]]]].
Qed.

Lemma fire_lengths who s :
  length (listeners (fire who s)) = length (listeners s)
  /\ length (players (fire who s)) = length (players s).
Proof.
  change (fire who s) with (advanceToNext who (raised who s)).
  rewrite advance_listeners, advance_players, on_current_length.
  destruct (raised_same who s) as [_ [_ [_ [_ [-> ->]]]]]. now split.
Qed.

Lemma found_le s : found s <= 1.
Proof. unfold found. destruct (nextBtn (asked s)); lia. Qed.

Lemma handled_same who k s : handled who k s s.
Proof. unfold handled. repeat split; try lia. now left. Qed.

Lemma neq_closure who who' : who' <> who -> closure_eqb who who' = false.
Proof.
  intros N. destruct (closure_eqb who who') eqn:E; [|reflexivity].
  apply closure_eqb_eq in E. congruence.
Qed.

Lemma handled_fire who s :
  auto_on s = true -> guard_of s who = Some false ->
  handled who 1 s (fire who s).
Proof.
  intros A G. unfold handled.
  rewrite fire_auto, fire_configs, fire_goes, fire_timers_set.
  destruct (fire_lengths who s) as [-> ->].
  repeat split; try lia.
  - rewrite fire_guard. now rewrite neq_closure.
  - rewrite fire_goes_by. rewrite neq_closure by assumption. lia.
  - rewrite fire_goes_by. lia.
  - right. rewrite fire_guard, fire_goes_by, closure_eqb_refl, G.
    pose proof (found_le s). repeat split; try assumption; try reflexivity. lia.
Qed.

(** A second call in the same handler, the guard being up already. *)
Lemma handled_fire_again who s0 s :
  handled who 1 s0 s -> s <> s0 ->
  handled who 2 s0 (fire who s).
Proof.
  intros [A [C [L [P [T [M [O [Mw H]]]]]]]] N.
  destruct H as [H|[A0 [G0 [G1 B]]]]; [contradiction|].
  unfold handled.
  rewrite fire_auto, fire_configs, fire_goes, fire_timers_set.
  destruct (fire_lengths who s) as [-> ->].
  repeat split; try lia; try congruence.
  - rewrite fire_guard. rewrite neq_closure by assumption. now apply O.
  - rewrite fire_goes_by. rewrite neq_closure by assumption.
    destruct (O who' H) as [_ ->]. lia.
  - rewrite fire_goes_by. lia.
  - right. rewrite fire_guard, fire_goes_by, closure_eqb_refl, G1.
    pose proof (found_le s). repeat split; try assumption; try reflexivity. lia.
Qed.

Lemma handled_weaken who k k' s s' :
  k <= k' -> handled who k s s' -> handled who k' s s'.
Proof.
  intros Hk [A [C [L [P [T [M [O [Mw H]]]]]]]]. unfold handled.
  refine (conj A (conj C (conj L (conj P (conj T (conj M (conj O
            (conj Mw _)))))))).
  destruct H as [H|[A0 [G0 [G1 B]]]]; [now left|right].
  repeat split; try assumption. lia.
Qed.

Lemma listener_guard s i l :
  nth_error (listeners s) i = Some l -> guard_of s (Listener i) = Some (guard l).
Proof. intros H. cbn [guard_of]. now rewrite H. Qed.

Lemma checkTime_handled i r s :
  handled (Listener i)
          (if Video.near_end r && Video.ended r then 2 else 1)
          s (checkTime i r s).
Proof.
  unfold Watchdog.checkTime.
  destruct (nth_error (listeners s) i) as [l|] eqn:E; [|apply handled_same].
  destruct (auto_on s) eqn:A; cbn [negb orb]; [|apply handled_same].
  destruct (guard l) eqn:G; [apply handled_same|].
  pose proof (listener_guard s i l E) as Gs. rewrite G in Gs.
  destruct (Video.near_end r), (Video.ended r); cbn [andb].
  - apply handled_fire_again; [now apply handled_fire|].
    intros Eq. apply (f_equal (fun x => guard_of x (Listener i))) in Eq.
    rewrite fire_guard, closure_eqb_refl, Gs in Eq. discriminate.
  - now apply handled_fire.
  - now apply handled_fire.
  - apply handled_same.
Qed.

Lemma onEnded_handled i s : handled (Listener i) 1 s (onEnded i s).
Proof.
  unfold Watchdog.onEnded.
  destruct (nth_error (listeners s) i) as [l|] eqn:E; [|apply handled_same].
  destruct (auto_on s) eqn:A; cbn [negb orb]; [|apply handled_same].
  destruct (guard l) eqn:G; [apply handled_same|].
  pose proof (listener_guard s i l E) as Gs. rewrite G in Gs.
  now apply handled_fire.
Qed.

Lemma onTimechange_handled j dur t s :
  handled (Player j) 1 s (onTimechange nextBtn j dur t s).
Proof.
  unfold onTimechange.
  destruct (nth_error (players s) j) as [g|] eqn:E; [|apply handled_same].
  destruct (auto_on s) eqn:A; cbn [negb orb]; [|apply handled_same].
  destruct g; [apply handled_same|].
  destruct (near_end_at dur t); [|apply handled_same].
  now apply handled_fire.
Qed.

Lemma onEnd_handled j s : handled (Player j) 1 s (onEnd nextBtn j s).
Proof.
  unfold onEnd.
  destruct (nth_error (players s) j) as [g|] eqn:E; [|apply handled_same].
  destruct (auto_on s) eqn:A; cbn [negb orb]; [|apply handled_same].
  destruct g; [apply handled_same|].
  now apply handled_fire.
Qed.

Lemma handled_capped b who k s s' :
  handled who k s s' ->
  k <= cap b who (Some true) ->
  capped b s -> capped b s'.
Proof.
  intros [A [C [L [P [T [M [O [Mw H]]]]]]]] K I who'.
  destruct H as [->|[A0 [G0 [G1 B]]]]; [apply I|].
  destruct (closure_eqb who who') eqn:E.
  - apply closure_eqb_eq in E. subst who'. rewrite G1.
    specialize (I who). rewrite G0 in I. cbn [cap] in I. lia.
  - assert (N : who' <> who).
    { intros ->. rewrite closure_eqb_refl in E. discriminate. }
    destruct (O who' N) as [-> ->]. apply I.
Qed.

(** The handlers of one event, one after the other. *)
Lemma fold_handlers (P : wstate -> Prop) (h : nat -> wstate -> wstate) l :
  (forall i s, P s -> P (h i s)) ->
  forall s, P s -> P (fold_left (fun st i => h i st) l s).
Proof.
  intros H. induction l as [|i l IH]; intros s Ps; [exact Ps|].
  cbn [fold_left]. apply IH. now apply H.
Qed.

Lemma attach_guard v s who :
  auto_on s = true ->
  guard_of (attachNativeListener v s) who
  = match who with
    | Listener i => if i =? length (listeners s) then Some false
                    else guard_of s who
    | Player _ => guard_of s who
    end.
Proof.
  intros A. unfold attachNativeListener. rewrite A. cbn [negb].
  destruct who as [i|j]; cbn [guard_of listeners players]; [|reflexivity].
  destruct (Nat.lt_total i (length (listeners s))) as [L|[->|L]].
  - rewrite nth_error_app1 by (rewrite on_current_length; exact L).
    replace (i =? length (listeners s)) with false
      by (symmetry; apply Nat.eqb_neq; lia).
    apply on_current_guard. reflexivity.
  - rewrite Nat.eqb_refl.
    rewrite nth_error_app2 by (rewrite on_current_length; lia).
    rewrite on_current_length, Nat.sub_diag. reflexivity.
  - replace (i =? length (listeners s)) with false
      by (symmetry; apply Nat.eqb_neq; lia).
    replace (nth_error (listeners s) i) with (@None listener)
      by (symmetry; apply nth_error_None; lia).
    replace (nth_error _ i) with (@None listener); [reflexivity|].
    symmetry. apply nth_error_None.
    rewrite length_app, on_current_length. cbn [length]. lia.
Qed.

Lemma attach_log v s : wlog (attachNativeListener v s) = wlog s.
Proof. unfold attachNativeListener. now destruct (negb (auto_on s)). Qed.

Lemma attach_capped b v s : capped b s -> capped b (attachNativeListener v s).
Proof.
  intros I. destruct (auto_on s) eqn:A.
  - intros who. unfold goes_by. rewrite attach_log, attach_guard by exact A.
    fold (goes_by who s). specialize (I who).
    destruct who as [i|j]; [|exact I].
    destruct (i =? length (listeners s)) eqn:E; [|exact I].
    apply Nat.eqb_eq in E. subst i. cbn [guard_of] in I.
    replace (nth_error (listeners s) (length (listeners s)))
      with (@None listener) in I
      by (symmetry; apply nth_error_None; lia).
    cbn [option_map cap] in *. exact I.
  - unfold attachNativeListener. now rewrite A.
Qed.

Lemma say_capped b msg s : capped b s -> capped b (say msg s).
Proof.
  intros I who. specialize (I who). unfold goes_by in *. cbn [say wlog].
  rewrite filter_app, length_app. cbn [filter is_go_by length].
  replace (guard_of (say msg s) who) with (guard_of s who)
    by (now destruct who).
  lia.
Qed.

Lemma setup_capped b found0 hw s :
  capped b s -> capped b (setupVideoAutoAdvance found0 hw s).
Proof.
  intros I. unfold setupVideoAutoAdvance.
  destruct found0 as [v|].
  - now apply say_capped, attach_capped.
  - destruct hw; [|exact I]. apply say_capped. exact I.
Qed.

Lemma onReady_capped b s : capped b s -> capped b (onReady s).
Proof.
  intros I. unfold onReady. destruct (negb (auto_on s)); [exact I|].
  intros who. specialize (I who). unfold goes_by in *.
  cbn [with_players wlog].
  destruct who as [i|j]; cbn [guard_of with_players listeners players] in *;
    [exact I|].
  destruct (Nat.lt_total j (length (players s))) as [L|[->|L]].
  - now rewrite nth_error_app1 by exact L.
  - rewrite nth_error_app2 by lia. rewrite Nat.sub_diag. cbn [nth_error cap].
    replace (nth_error (players s) (length (players s))) with (@None bool) in I
      by (symmetry; apply nth_error_None; lia).
    exact I.
  - replace (nth_error (players s) j) with (@None bool) in I
      by (symmetry; apply nth_error_None; lia).
    replace (nth_error (players s ++ [false]) j) with (@None bool);
      [exact I|].
    symmetry. apply nth_error_None. rewrite length_app. cbn [length]. lia.
Qed.

Lemma step_capped b e s :
  (b = 2 \/ (b = 1 /\ meets_both e = false)) ->
  capped b s -> capped b (step e s).
Proof.
  intros Hb I.
  assert (CT : forall i r st,
             meets_both e = (Video.near_end r && Video.ended r) ->
             capped b st -> capped b (checkTime i r st)).
  { intros i r st M Ist.
    apply (handled_capped b _ _ _ _ (checkTime_handled i r st)); [|exact Ist].
    cbn [cap]. rewrite <- M.
    destruct Hb as [->|[-> ->]]; [destruct (meets_both e); lia|lia]. }
  assert (B1 : 1 <= b) by (destruct Hb as [->|[-> _]]; lia).
  destruct e as [v r|v|i r|vp fd hw|fd hw|v|en| |j dur t|j];
    cbn [Watchdog.step].
  - unfold dispatch. apply fold_handlers; [|exact I].
    intros i st. now apply CT.
  - unfold dispatch. apply fold_handlers; [|exact I].
    intros i st Ist.
    now apply (handled_capped b _ _ _ _ (onEnded_handled i st)).
  - destruct (is_polling i s); [now apply CT|exact I].
  - destruct (timers s) as [|n]; [exact I|].
    match goal with
    | |- capped b (if _ then _ ?x else ?x) =>
        assert (I' : capped b x) by exact I
    end.
    destruct (auto_on s && vp); [now apply setup_capped|exact I'].
  - now apply setup_capped.
  - now apply attach_capped.
  - exact I.
  - destruct (configs s); [exact I|now apply onReady_capped].
  - now apply (handled_capped b _ _ _ _ (onTimechange_handled j dur t s)).
  - now apply (handled_capped b _ _ _ _ (onEnd_handled j s)).
Qed.

Lemma init_capped b : capped b init.
Proof. intros who. unfold goes_by. cbn [init wlog filter length]. lia. Qed.
Lemma say_counts msg s :
  goes (say msg s) = goes s /\ timers_set (say msg s) = timers_set s
  /\ length (listeners (say msg s)) = length (listeners s).
Proof.
  unfold goes, timers_set. cbn [say wlog listeners].
  rewrite !filter_app, !length_app. cbn [filter is_go is_timer length].
  repeat split; lia.
Qed.

Lemma attach_length v s :
  length (listeners (attachNativeListener v s)) <= S (length (listeners s)).
Proof.
  unfold attachNativeListener. destruct (negb (auto_on s)); [lia|].
  cbn [listeners]. rewrite length_app, on_current_length. cbn [length]. lia.
Qed.

Lemma setup_counts found0 hw s :
  goes (setupVideoAutoAdvance found0 hw s) = goes s
  /\ timers_set (setupVideoAutoAdvance found0 hw s) = timers_set s
  /\ length (listeners (setupVideoAutoAdvance found0 hw s))
     <= length (listeners s)
        + match found0 with Some _ => 1 | None => 0 end.
Proof.
  unfold setupVideoAutoAdvance. destruct found0 as [v|].
  - destruct (say_counts (lit "Listening for video end")
                (attachNativeListener v s)) as [-> [-> ->]].
    pose proof (attach_length v s).
    unfold goes, timers_set. rewrite attach_log. repeat split; lia.
  - destruct hw; [|repeat split; lia].
    destruct (say_counts (lit "Using Wistia API") (tryWistiaApi s))
      as [-> [-> ->]].
    cbn [tryWistiaApi listeners]. repeat split; lia.
Qed.

Lemma handled_counted who k s s' : handled who k s s' -> counted s s' 0.
Proof.
  intros [A [C [L [P [T [M _]]]]]]. unfold counted. repeat split; lia.
Qed.

Lemma counted_trans s0 s1 s2 a b :
  counted s0 s1 a -> counted s1 s2 b -> counted s0 s2 (a + b).
Proof. unfold counted. intros [? [? ?]] [? [? ?]]. repeat split; lia. Qed.

Lemma fold_counted (h : nat -> wstate -> wstate) l :
  (forall i s, counted s (h i s) 0) ->
  forall s, counted s (fold_left (fun st i => h i st) l s) 0.
Proof.
  intros H. induction l as [|i l IH]; intros s.
  - unfold counted. cbn [fold_left]. repeat split; lia.
  - cbn [fold_left]. apply (counted_trans s (h i s) _ 0 0); [apply H|apply IH].
Qed.

Lemma step_counted e s :
  counted s (step e s) (if attaches e then 1 else 0).
Proof.
  destruct e as [v r|v|i r|vp fd hw|fd hw|v|en| |j dur t|j];
    cbn [Watchdog.step attaches].
  - unfold dispatch. apply fold_counted. intros i st.
    apply (handled_counted _ _ _ _ (checkTime_handled i r st)).
  - unfold dispatch. apply fold_counted. intros i st.
    apply (handled_counted _ _ _ _ (onEnded_handled i st)).
  - destruct (is_polling i s).
    + apply (handled_counted _ _ _ _ (checkTime_handled i r s)).
    + unfold counted. repeat split; lia.
  - destruct (timers s) as [|n]; [unfold counted; destruct fd; repeat split; lia|].
    destruct (auto_on s && vp).
    + match goal with
      | |- counted s (setupVideoAutoAdvance fd hw ?x) _ =>
          destruct (setup_counts fd hw x) as [G [T L]];
            change (goes x) with (goes s) in G;
            change (timers_set x) with (timers_set s) in T;
            change (listeners x) with (listeners s) in L
      end.
      unfold counted. destruct fd; repeat split; lia.
    + unfold counted, goes, timers_set. cbn [wlog listeners].
      destruct fd; repeat split; lia.
  - destruct (setup_counts fd hw s) as [G [T L]].
    unfold counted. destruct fd; repeat split; lia.
  - pose proof (attach_length v s). unfold counted, goes, timers_set.
    rewrite attach_log. repeat split; lia.
  - unfold counted, goes, timers_set. cbn [wlog listeners]. repeat split; lia.
  - destruct (configs s); [unfold counted; repeat split; lia|].
    unfold onReady. destruct (negb (auto_on s)); unfold counted, goes, timers_set;
      cbn [with_players wlog listeners]; repeat split; lia.
  - apply (handled_counted _ _ _ _ (onTimechange_handled j dur t s)).
  - apply (handled_counted _ _ _ _ (onEnd_handled j s)).
Qed.

Lemma run_app es es' s : run (es ++ es') s = run es' (run es s).
Proof. unfold Watchdog.run. apply fold_left_app. Qed.

Lemma run_capped b es :
  (b = 2 \/ (b = 1 /\ forallb (fun e => negb (meets_both e)) es = true)) ->
  forall s, capped b s -> capped b (run es s).
Proof.
  induction es as [|e es IH]; intros Hb s I; [exact I|].
  change (run (e :: es) s) with (run es (step e s)).
  apply IH.
  - destruct Hb as [->|[-> F]]; [now left|right]. split; [reflexivity|].
    cbn [forallb] in F. now apply andb_true_iff in F.
  - apply step_capped; [|exact I].
    destruct Hb as [->|[-> F]]; [now left|right]. split; [reflexivity|].
    cbn [forallb] in F. apply andb_true_iff in F. destruct F as [F _].
    now apply negb_true_iff in F.
Qed.

Lemma run_counted es :
  forall s, counted s (run es s) (length (filter attaches es)).
Proof.
  induction es as [|e es IH]; intros s.
  - unfold counted. cbn. repeat split; lia.
  - change (run (e :: es) s) with (run es (step e s)).
    pose proof (counted_trans _ _ _ _ _ (step_counted e s) (IH (step e s))) as C.
    cbn [filter]. destruct (attaches e); cbn [length]; exact C.
Qed.

(** With the flag down the handlers do nothing. *)
Lemma fold_idle (h : nat -> wstate -> wstate) l s :
  (forall i, h i s = s) -> fold_left (fun st i => h i st) l s = s.
Proof.
  intros H. induction l as [|i l IH]; [reflexivity|].
  cbn [fold_left]. now rewrite H.
Qed.

Lemma checkTime_off i r s : auto_on s = false -> checkTime i r s = s.
Proof.
  intros A. unfold Watchdog.checkTime.
  destruct (nth_error (listeners s) i); [|reflexivity]. now rewrite A.
Qed.

Lemma onEnded_off i s : auto_on s = false -> onEnded i s = s.
Proof.
  intros A. unfold Watchdog.onEnded.
  destruct (nth_error (listeners s) i); [|reflexivity]. now rewrite A.
Qed.

Lemma step_off e s : auto_on s = false -> goes (step e s) = goes s.
Proof.
  intros A.
  destruct e as [v r|v|i r|vp fd hw|fd hw|v|en| |j dur t|j];
    cbn [Watchdog.step].
  - unfold dispatch. rewrite fold_idle; [reflexivity|].
    intros i. now apply checkTime_off.
  - unfold dispatch. rewrite fold_idle; [reflexivity|].
    intros i. now apply onEnded_off.
  - destruct (is_polling i s); [now rewrite checkTime_off|reflexivity].
  - destruct (timers s); [reflexivity|]. rewrite A. reflexivity.
  - now destruct (setup_counts fd hw s) as [-> _].
  - unfold goes. now rewrite attach_log.
  - reflexivity.
  - destruct (configs s); [reflexivity|]. unfold onReady. now rewrite A.
  - unfold onTimechange. destruct (nth_error (players s) j); [|reflexivity].
    now rewrite A.
  - unfold onEnd. destruct (nth_error (players s) j); [|reflexivity].
    now rewrite A.
Qed.

(** *** Re-arming: a new closure has a guard of its own *)

Lemma hearing_new v ls s :
  listeners s = ls ++ [{| on_video := v; guard := false; bound := true;
                          polling := true |}] ->
  exists pre, hearing v s = pre ++ [length ls]
              /\ forall i, In i pre -> i < length ls.
Proof.
  intros E. unfold hearing. rewrite E, length_app. cbn [length].
  rewrite Nat.add_1_r, seq_S, filter_app. cbn [Nat.add filter].
  rewrite nth_error_app2 by lia. rewrite Nat.sub_diag. cbn [nth_error bound
                                                             on_video andb].
  rewrite Nat.eqb_refl. eexists. split; [reflexivity|].
  intros i H. apply filter_In in H. destruct H as [H _].
  apply in_seq in H. lia.
Qed.

Lemma handled_other who k s s' who' :
  handled who k s s' -> who' <> who ->
  auto_on s' = auto_on s /\ guard_of s' who' = guard_of s who'
  /\ goes_by who' s' = goes_by who' s.
Proof.
  intros [A [C [L [P [T [M [O _]]]]]]] N. destruct (O who' N). now repeat split.
Qed.

Lemma fold_others (h : nat -> wstate -> wstate) (k : nat) n l :
  (forall i s, handled (Listener i) k s (h i s)) ->
  (forall i, In i l -> i < n) ->
  forall s,
    auto_on (fold_left (fun st i => h i st) l s) = auto_on s
    /\ guard_of (fold_left (fun st i => h i st) l s) (Listener n)
       = guard_of s (Listener n)
    /\ goes_by (Listener n) (fold_left (fun st i => h i st) l s)
       = goes_by (Listener n) s.
Proof.
  intros H. induction l as [|i l IH]; intros B s; [now repeat split|].
  cbn [fold_left].
  destruct (IH (fun j Hj => B j (or_intror Hj)) (h i s)) as [-> [-> ->]].
  apply (handled_other _ _ _ _ _ (H i s)).
  intros [= E]. specialize (B i (or_introl eq_refl)). lia.
Qed.

Lemma fire_found who s :
  nextBtn (asked s) <> None -> goes_by who (fire who s) = S (goes_by who s).
Proof.
  intros N. rewrite fire_goes_by, closure_eqb_refl. unfold found.
  destruct (nextBtn (asked s)); [lia|contradiction].
Qed.

Lemma rearmed_listener s v r hw :
  auto_on s = true -> timers s <> 0 -> Video.near_end r = true ->
  (forall k, nextBtn k <> None) ->
  goes_by (Listener (length (listeners s)))
          (run [TimerFires true (Some v) hw; TimeUpdate v r] s)
  >= S (goes_by (Listener (length (listeners s))) s).
Proof.
  intros A T N F. set (n := length (listeners s)).
  cbn [Watchdog.run fold_left Watchdog.step].
  destruct (timers s) as [|t]; [contradiction|].
  set (s0 := {| auto_on := auto_on s; current := current s;
                listeners := listeners s; players := players s;
                configs := configs s; timers := t; asked := asked s;
                wlog := wlog s |}).
  replace (auto_on s && true) with true by (now rewrite A).
  cbn [setupVideoAutoAdvance].
  set (s1 := say (lit "Listening for video end") (attachNativeListener v s0)).
  assert (E1 : listeners s1
               = on_current (release v) s0
                 ++ [{| on_video := v; guard := false; bound := true;
                        polling := true |}]).
  { subst s1. unfold attachNativeListener. cbn [say listeners s0 auto_on].
    rewrite A. reflexivity. }
  assert (A1 : auto_on s1 = true).
  { subst s1. unfold attachNativeListener. cbn [say auto_on s0].
    rewrite A. reflexivity. }
  assert (G1 : goes_by (Listener n) s1 = goes_by (Listener n) s).
  { subst s1. unfold goes_by. cbn [say wlog]. rewrite attach_log.
    rewrite filter_app, length_app. cbn [filter is_go_by length s0 wlog]. lia. }
  destruct (hearing_new v _ s1 E1) as [pre [H B]].
  rewrite on_current_length in H, B. change (length (listeners s0)) with n in *.
  unfold dispatch. rewrite H, fold_left_app. cbn [fold_left].
  destruct (fold_others (fun i => checkTime i r) 2 n pre) with (s := s1)
    as [Af [Gf Cf]].
  { intros i st. eapply handled_weaken; [|apply checkTime_handled].
    destruct (Video.near_end r && Video.ended r); lia. }
  { exact B. }
  set (st := fold_left (fun st i => checkTime i r st) pre s1) in *.
  assert (Gs : guard_of st (Listener n) = Some false).
  { rewrite Gf. cbn [guard_of]. rewrite E1.
    rewrite nth_error_app2 by (rewrite on_current_length; subst n; cbn; lia).
    rewrite on_current_length. change (length (listeners s0)) with n.
    now rewrite Nat.sub_diag. }
  unfold Watchdog.checkTime. cbn [guard_of] in Gs.
  destruct (nth_error (listeners st) n) as [l|]; [|discriminate].
  cbn [option_map] in Gs. injection Gs as Gl.
  rewrite Af, A1, Gl, N. cbn [negb orb].
  destruct (Video.ended r).
  - rewrite !fire_found by apply F. lia.
  - rewrite fire_found by apply F. lia.
Qed.

Lemma rearmed_player s :
  auto_on s = true -> configs s <> 0 -> (forall k, nextBtn k <> None) ->
  goes_by (Player (length (players s)))
          (run [PlayerReady; PlayerEnd (length (players s))] s)
  = S (goes_by (Player (length (players s))) s).
Proof.
  intros A C F. cbn [Watchdog.run fold_left Watchdog.step].
  destruct (configs s); [contradiction|].
  unfold onReady. rewrite A. cbn [negb]. unfold onEnd.
  cbn [with_players players auto_on].
  rewrite nth_error_app2 by lia. rewrite Nat.sub_diag. cbn [nth_error].
  rewrite A. cbn [negb orb]. rewrite fire_found by apply F.
  unfold goes_by. reflexivity.
Qed.
End PageFacts.

(** X12.  The guard of the native listeners with the re-arming.  Over
    any sequence of events (time updates, ticks of the polls, ended
    events, time-outs, calls of the set-up, finds of the observer,
    writes of the flag, events of a player), each closure made by
    [attachNativeListener] navigates at most twice, and at most once when
    no reading is both within ten seconds of the end and ended; it has
    not navigated while its guard is down.  Each navigation sets one
    time-out, there are no more listeners than events that can attach
    one, and with the flag down no event navigates.  Twice is reached: a
    tick of the poll of a closure whose guard is down, with a reading
    that is both near the end and ended, navigates twice, a next control
    being on the page.  The guard is one per closure, not one per video: when a pending time-out runs on a video
    page with a video and the flag up, the closure it attaches has a
    guard of its own, and on the next reading near the end it navigates
    again, a next control being on the page. *)
Theorem native_listeners_guard :
  forall nextBtn es,
    let s := run nextBtn es init in
    (forall i, goes_by (Listener i) s <= 2)
    /\ (forallb (fun e => negb (meets_both e)) es = true ->
        forall i, goes_by (Listener i) s <= 1)
    /\ (forall i, guard_of s (Listener i) <> Some true ->
                  goes_by (Listener i) s = 0)
    /\ timers_set s = goes s
    /\ length (listeners s) <= length (filter attaches es)
    /\ (forall e, auto_on s = false -> goes (step nextBtn e s) = goes s)
    /\ (forall i r,
           auto_on s = true -> guard_of s (Listener i) = Some false ->
           is_polling i s = true ->
           Video.near_end r = true -> Video.ended r = true ->
           (forall k, nextBtn k <> None) ->
           goes_by (Listener i) (step nextBtn (Tick i r) s) = 2)
    /\ (forall v r hw,
           auto_on s = true -> timers s <> 0 -> Video.near_end r = true ->
           (forall k, nextBtn k <> None) ->
           goes_by (Listener (length (listeners s))) s = 0
           /\ 1 <= goes_by (Listener (length (listeners s)))
                           (run nextBtn [TimerFires true (Some v) hw;
                                         TimeUpdate v r] s)).
Proof.
  intros nextBtn es s.
  assert (C2 : capped 2 s)
    by (apply run_capped; [now left|apply init_capped]).
  assert (Z : forall who, guard_of s who <> Some true -> goes_by who s = 0).
  { intros who G. specialize (C2 who).
    destruct (guard_of s who) as [[|]|]; [contradiction| |]; cbn [cap] in C2;
      lia. }
  pose proof (run_counted nextBtn es init) as [T [_ L]]. fold s in T, L.
  split; [|split; [|split; [|split; [|split; [|split; [|split]]]]]].
  - intros i. specialize (C2 (Listener i)).
    destruct (guard_of s (Listener i)) as [[|]|]; cbn [cap] in C2; lia.
  - intros F i.
    assert (C1 : capped 1 s)
      by (apply run_capped; [now right|apply init_capped]).
    specialize (C1 (Listener i)).
    destruct (guard_of s (Listener i)) as [[|]|]; cbn [cap] in C1; lia.
  - intros i. apply Z.
  - cbn in T. lia.
  - cbn in L. lia.
  - intros e A. now apply step_off.
  - intros i r A G P N E F.
    assert (G0 : goes_by (Listener i) s = 0)
      by (apply Z; rewrite G; discriminate).
    cbn [Watchdog.step]. rewrite P. unfold checkTime.
    cbn [guard_of] in G.
    destruct (nth_error (listeners s) i) as [l|]; [|discriminate].
    cbn [option_map] in G. injection G as G.
    rewrite A, G, N, E. cbn [negb orb].
    rewrite !fire_found by apply F. lia.
  - intros v r hw A Tm N F.
    assert (G0 : goes_by (Listener (length (listeners s))) s = 0).
    { apply Z. cbn [guard_of].
      replace (nth_error (listeners s) (length (listeners s)))
        with (@None listener) by (symmetry; apply nth_error_None; lia).
      discriminate. }
    split; [exact G0|].
    pose proof (rearmed_listener nextBtn s v r hw A Tm N F). lia.
Qed.

Lemma native_listeners_guard_witness :
  let next := fun _ : nat => Some Video.Button in
  let s := run next [SetEnabled true; Setup (Some 0) false; Ended 0; Ended 0]
               init in
  goes_by (Listener 0) s <= 1
  /\ 1 <= goes_by (Listener 1)
                  (run next [TimerFires true (Some 0) false;
                             TimeUpdate 0 Samples.at_the_end] s).
Proof.
  intros next s.
  destruct (native_listeners_guard next
              [SetEnabled true; Setup (Some 0) false; Ended 0; Ended 0])
    as [_ [H1 [_ [_ [_ [_ [_ H2]]]]]]].
  split.
  - apply (H1 eq_refl 0).
  - apply (H2 0 Samples.at_the_end false eq_refl ltac:(discriminate) eq_refl
              ltac:(discriminate)).
Defined.

(** X14.  The guard of the closures of a player.  Over any sequence of
    events each closure made by [onReady] navigates at most once, and it
    has not navigated while its guard is down.  The guard is one per
    closure: when the player calls [onReady] again, a configuration
    being pushed and the flag up, the new closure navigates at its next
    end event, a next control being on the page. *)
Theorem player_closures_guard :
  forall nextBtn es,
    let s := run nextBtn es init in
    (forall j, goes_by (Player j) s <= 1)
    /\ (forall j, guard_of s (Player j) <> Some true ->
                  goes_by (Player j) s = 0)
    /\ (auto_on s = true -> configs s <> 0 ->
        (forall k, nextBtn k <> None) ->
        goes_by (Player (length (players s))) s = 0
        /\ goes_by (Player (length (players s)))
                   (run nextBtn [PlayerReady;
                                 PlayerEnd (length (players s))] s) = 1).
Proof.
  intros nextBtn es s.
  assert (C2 : capped 2 s)
    by (apply run_capped; [now left|apply init_capped]).
  assert (Z : forall who, guard_of s who <> Some true -> goes_by who s = 0).
  { intros who G. specialize (C2 who).
    destruct (guard_of s who) as [[|]|]; [contradiction| |]; cbn [cap] in C2;
      lia. }
  split; [|split].
  - intros j. specialize (C2 (Player j)).
    destruct (guard_of s (Player j)) as [[|]|]; cbn [cap] in C2; lia.
  - intros j. apply Z.
  - intros A C F.
    assert (G0 : goes_by (Player (length (players s))) s = 0).
    { apply Z. cbn [guard_of].
      replace (nth_error (players s) (length (players s)))
        with (@None bool) by (symmetry; apply nth_error_None; lia).
      discriminate. }
    split; [exact G0|].
    rewrite (rearmed_player nextBtn s A C F). lia.
Qed.

Lemma player_closures_guard_witness :
  let next := fun _ : nat => Some Video.Button in
  let s := run next [SetEnabled true; Setup None true; PlayerReady;
                     PlayerEnd 0; PlayerEnd 0] init in
  goes_by (Player 0) s <= 1
  /\ goes_by (Player 1) (run next [PlayerReady; PlayerEnd 1] s) = 1.
Proof.
  intros next s.
  destruct (player_closures_guard next
              [SetEnabled true; Setup None true; PlayerReady;
               PlayerEnd 0; PlayerEnd 0]) as [H1 [_ H2]].
  split.
  - apply (H1 0).
  - apply (H2 eq_refl ltac:(discriminate) ltac:(discriminate)).
Defined.

End WatchdogFacts.

(** ** What the network gives back *)

Module TransportFacts.
Import JsString Oracle Popup Transport.
Import JsStringFacts OracleFacts PopupFacts.

Lemma text_or_empty_Some v :
  (exists s, text_or_empty v = Some s) <-> text_like v.
Proof.
  unfold text_or_empty, text_like. split.
  - intros [s H]. destruct (truthy_value v); [|now left].
    right. destruct v; try discriminate. now eexists.
  - intros [H|[s ->]].
    + rewrite H. now eexists.
    + cbn [truthy_value]. destruct (truthy s); now eexists.
Qed.

Lemma api_failure_kind status body :
  api_failure status body = TypeError
  \/ exists m, api_failure status body = Error m /\ truthy_value m = true.
Proof.
  unfold api_failure.
  destruct (prop (lit "error") _) as [e|]; [right|now left].
  destruct (truthy_value (chain (prop (lit "message")) e)) eqn:T.
  - now eexists.
  - eexists. split; [reflexivity|]. reflexivity.
Qed.

Lemma parse_answer_range c r N k :
  parse_answer c r N = Some k -> (1 <= k <= Z.of_nat N)%Z.
Proof.
  rewrite parse_answer_tokens. unfold last_small_numeral. intros E.
  unfold last_opt in E.
  destruct (rev _) as [|y l] eqn:R; [discriminate|]. injection E as ->.
  assert (I : In k (rev (k :: l))) by (apply in_rev; rewrite rev_involutive; now left).
  rewrite <- R, rev_involutive in I. apply filter_In in I.
  destruct I as [_ I]. unfold within in I.
  apply andb_true_iff in I. destruct I as [E1 E2].
  apply Z.leb_le in E1, E2. lia.
Qed.

Lemma or_str_text s :
  or_str (match text_or_empty (text_value s) with
          | Some x => Some x
          | None => None
          end) [] = or_str s [].
Proof. destruct s as [[|c s]|]; reflexivity. Qed.

Lemma callGroqAPI_reply_of fetch0 apiKey model question answers :
  Transport.callGroqAPI (fun q => reply_of (fetch0 q))
                        apiKey model question answers
  = lift (Oracle.callGroqAPI fetch0 apiKey model question answers).
Proof.
  unfold Transport.callGroqAPI, Oracle.callGroqAPI, reply_of.
  set (resp := fetch0 (make_request apiKey model question answers)).
  destruct (ok resp); cbn [negb lift].
  - unfold parse_answer, combined.
    destruct (content resp) as [[|c cs]|], (reasoning resp) as [[|d ds]|];
      reflexivity.
  - unfold api_failure, api_error.
    destruct (err_message resp) as [[|c cs]|]; reflexivity.
Qed.


Lemma record_of_model_value m : record_of (model_value m) = Some m.
Proof. destruct m as [[s|] o]; reflexivity. Qed.

Lemma records_model_values ms : records (map model_value ms) = Some ms.
Proof.
  induction ms as [|m ms IH]; [reflexivity|].
  cbn [map records]. now rewrite record_of_model_value, IH.
Qed.

(** An identifier on which the callback of the filter does not throw. *)
Lemma record_of_Some m :
  (exists r, record_of m = Some r)
  <-> m <> Null /\ m <> Undefined /\ text_like (chain (prop (lit "id")) m).
Proof.
  unfold record_of, chain, text_like. split.
  - intros [r H].
    destruct (prop (lit "id") m) as [i|] eqn:P; [|discriminate].
    split; [intros ->; discriminate|]. split; [intros ->; discriminate|].
    destruct i; cbn [truthy_value] in *;
      try (now left); try (right; now eexists);
      match goal with
      | H : (if ?c then _ else _) = _ |- _ => destruct c; [discriminate|now left]
      end.
  - intros [N1 [N2 T]].
    destruct (prop (lit "id") m) as [i|] eqn:P;
      [|destruct m; try discriminate; contradiction].
    destruct T as [T|[s ->]]; [|now eexists].
    destruct i; cbn [truthy_value] in *; try discriminate;
      try (eexists; reflexivity); rewrite T; eexists; reflexivity.
Qed.

Lemma records_Some items :
  (exists ms, records items = Some ms)
  <-> Forall (fun m => m <> Null /\ m <> Undefined
                       /\ text_like (chain (prop (lit "id")) m)) items.
Proof.
  induction items as [|m items IH].
  - split; [constructor|now eexists].
  - cbn [records]. split.
    + intros [ms H]. destruct (record_of m) as [r|] eqn:E; [|discriminate].
      destruct (records items) as [rs|]; [|discriminate].
      constructor.
      * apply record_of_Some. now exists r.
      * apply IH. now exists rs.
    + intros F. apply Forall_cons_iff in F. destruct F as [Hm F].
      apply record_of_Some in Hm. destruct Hm as [r ->].
      apply IH in F. destruct F as [rs ->]. now eexists.
Qed.

(** X21.  [fetchModels] from what [fetch] gives.  It returns exactly
    when the response is ok, its body is JSON and not null, the data of
    the body is an array or falsy, and every element of the array is not
    null and has an identifier that is a string or falsy; a rejected
    fetch, a body that is not JSON and data that is not an array make it
    throw, and so does every response that is not ok.  On the replies
    that the record [listing] stands for it is the function of the same
    name over these records.  With a consistent collation its result is
    final: a listing of just the models it has returned gives the same
    models in the same order. *)
Theorem fetchModels_settles :
  forall localeCompare,
    (forall a b, localeCompare b a = CompOpp (localeCompare a b)) ->
    (forall a b c, localeCompare a b <> Gt -> localeCompare b c <> Gt ->
                   localeCompare a c <> Gt) ->
    forall r,
      ((exists out, Transport.fetchModels localeCompare r = Resolves out) <->
       exists status data items,
         r = Responded true status (Some data)
         /\ data <> Null /\ data <> Undefined
         /\ (chain (prop (lit "data")) data = Arr items
             \/ (truthy_value (chain (prop (lit "data")) data) = false
                 /\ items = []))
         /\ Forall (fun m => m <> Null /\ m <> Undefined
                             /\ text_like (chain (prop (lit "id")) m)) items)
      /\ (forall status body,
             r = Responded false status body ->
             Transport.fetchModels localeCompare r
             = Rejects (api_failure status body))
      /\ (forall res,
             Transport.fetchModels localeCompare (reply_of_listing res)
             = lift (Popup.fetchModels localeCompare res))
      /\ (forall out,
             Transport.fetchModels localeCompare r = Resolves out ->
             forall status,
               Transport.fetchModels localeCompare
                 (Responded true status (Some (listing_value out)))
               = Resolves out).
Proof.
  intros localeCompare Hopp Htrans r.
  split; [|split; [|split]].
  - unfold Transport.fetchModels. split.
    + intros [out H].
      destruct r as [|ok status [data|]]; try discriminate;
        destruct ok; cbn [negb] in H; try discriminate.
      destruct (prop (lit "data") data) as [d|] eqn:P; [|discriminate].
      destruct (truthy_value d) eqn:T.
      * destruct d as [| |b|q|s|items|fs]; try discriminate.
        destruct (records items) as [ms|] eqn:E; [|discriminate].
        exists status, data, items. split; [reflexivity|].
        split; [intros ->; discriminate|]. split; [intros ->; discriminate|].
        split; [left; unfold chain; now rewrite P|].
        apply records_Some. now exists ms.
      * exists status, data, []. split; [reflexivity|].
        split; [intros ->; discriminate|]. split; [intros ->; discriminate|].
        split; [right; unfold chain; rewrite P; now split|constructor].
    + intros [status [data [items [-> [N1 [N2 [D F]]]]]]]. cbn [negb].
      unfold chain in D.
      destruct (prop (lit "data") data) as [d|] eqn:P;
        [|destruct data; try discriminate; contradiction].
      apply records_Some in F. destruct F as [ms E].
      destruct D as [->|[T ->]].
      * cbn [truthy_value]. rewrite E. now eexists.
      * rewrite T. cbn [records]. now eexists.
  - intros status body ->. reflexivity.
  - intros res. unfold Transport.fetchModels, Popup.fetchModels,
                reply_of_listing.
    destruct (res_ok res); cbn [negb lift].
    + destruct (data res) as [ms|].
      * change (prop (lit "data") _) with (Some (Arr (map model_value ms))).
        cbn [truthy_value]. now rewrite records_model_values.
      * reflexivity.
    + unfold api_failure.
      destruct (res_error res) as [[|c cs]|]; reflexivity.
  - intros out H status.
    assert (S : Popup.sort localeCompare
                  (filter (fun m => isChatModel (model_id m)) out) = out).
    { unfold Transport.fetchModels in H.
      destruct r as [|ok st [data|]]; try discriminate;
        destruct ok; cbn [negb] in H; try discriminate.
      destruct (prop (lit "data") data) as [d|]; [|discriminate].
      destruct (if truthy_value d then d else Arr [])
        as [| |b|q|s|items|fs]; try discriminate.
      destruct (records items) as [ms|]; [|discriminate].
      injection H as H.
      pose proof (PanelFacts.fetchModels_again localeCompare Hopp Htrans
                    {| res_ok := true; res_status := 200; res_error := None;
                       data := Some ms |} out) as A.
      unfold Popup.fetchModels in A. cbn [res_ok negb Popup.data] in A.
      rewrite H in A. specialize (A eq_refl). now injection A. }
    unfold Transport.fetchModels, listing_value. cbn [negb].
    change (prop (lit "data") _) with (Some (Arr (map model_value out))).
    cbn [truthy_value]. now rewrite records_model_values, S.
Qed.

Lemma fetchModels_settles_witness :
  Transport.fetchModels compare_units
    (Responded true 200
       (Some (listing_value [named "gemma2-9b-it";
                             named "llama-3.3-70b-versatile";
                             named "qwen-32b"])))
  = Resolves [named "gemma2-9b-it"; named "llama-3.3-70b-versatile";
              named "qwen-32b"].
Proof.
  destruct (fetchModels_settles compare_units compare_units_opp
              compare_units_trans (reply_of_listing sample_listing))
    as [_ [_ [_ H]]].
  apply H. reflexivity.
Defined.

End TransportFacts.
